(** * Badger log manager and key registry: a shallow embedding

    The development follows [src/log_manager.go] and [src/key_registry.go].
    Machine integers are [Z] with their wrap-around written out, byte
    slices are [list byte], Go maps are [gmap], and every function that
    touches the file system takes and returns the state it works on.
    Collaborators whose code lives in other packages of the repository
    (the record codec, the [y] helpers, the protobuf data key) are
    gathered in type classes, so that every definition below computes as
    soon as an instance is supplied. *)

From Stdlib Require Import ZArith List Lia Bool.
From Stdlib Require Import Strings.String Strings.Byte.
From stdpp Require Import base option list sorting gmap strings.

Import ListNotations.
Local Open Scope Z_scope.

(** ** Machine words and byte order *)

Global Instance byte_eq_dec : EqDecision byte := Byte.byte_eq_dec.

Module Wire.

Definition wrap32 (z : Z) : Z := z mod 2 ^ 32.
Definition wrap64 (z : Z) : Z := z mod 2 ^ 64.

Definition maxInt64 : Z := 2 ^ 63 - 1.
Definition minInt64 : Z := - 2 ^ 63.

Definition byte_of_Z (z : Z) : byte :=
  match Byte.of_N (Z.to_N (z mod 256)) with
  | Some b => b
  | None => x00
  end.

Definition Z_of_byte (b : byte) : Z := Z.of_N (Byte.to_N b).

(** [binary.BigEndian.PutUint32] on a four byte buffer. *)
Definition PutUint32 (v : Z) : list byte :=
  [ byte_of_Z (Z.shiftr v 24); byte_of_Z (Z.shiftr v 16);
    byte_of_Z (Z.shiftr v 8); byte_of_Z v ].

(** [binary.BigEndian.Uint32]: reads the first four bytes.  Go panics on
    a shorter slice; every caller below passes exactly four bytes, and
    the short case is mapped to [0]. *)
Definition Uint32 (b : list byte) : Z :=
  match b with
  | b0 :: b1 :: b2 :: b3 :: _ =>
      Z.lor (Z.shiftl (Z_of_byte b0) 24)
        (Z.lor (Z.shiftl (Z_of_byte b1) 16)
           (Z.lor (Z.shiftl (Z_of_byte b2) 8) (Z_of_byte b3)))
  | _ => 0
  end.

(** [binary.BigEndian.PutUint64] and [binary.BigEndian.Uint64]. *)
Definition PutUint64 (v : Z) : list byte :=
  PutUint32 (Z.shiftr v 32) ++ PutUint32 v.

Definition Uint64 (b : list byte) : Z :=
  Z.lor (Z.shiftl (Uint32 b) 32) (Uint32 (drop 4 b)).

Definition digit_of_byte (b : byte) : option Z :=
  let n := Z_of_byte b in
  if (48 <=? n) && (n <=? 57) then Some (n - 48) else None.

Fixpoint parse_digits (acc : Z) (s : list byte) : option Z :=
  match s with
  | [] => Some acc
  | b :: rest =>
      match digit_of_byte b with
      | Some d =>
          let acc' := acc * 10 + d in
          if acc' <? 2 ^ 64 then parse_digits acc' rest else None
      | None => None
      end
  end.

(** [strconv.ParseUint(s, 10, 64)]: a non-empty run of decimal digits
    whose value fits 64 bits; [None] stands for the returned error. *)
Definition ParseUint (s : list byte) : option Z :=
  match s with
  | [] => None
  | _ => parse_digits 0 s
  end.

End Wire.

(** ** Errors *)

Inductive error : Type :=
| io_EOF
| errTruncate
| ErrRetry
| ErrEncryptionKeyMismatch
| errBadChecksum
| ErrInvalidDataKeyID
| os_ErrNotExist
| os_ErrClosed
| os_ErrPermission
| os_ErrInvalid
| errFault (code : Z)                     (* any other error of a collaborator *)
| InvalidPointer (ptrOffset cur : Z)      (* errors.Errorf in Read *)
| errorsNew (msg : string)                (* errors.New(msg) *)
| Wrapf (e : error) (msg : string).       (* y.Wrapf(e, msg, ...) *)

Global Instance error_eq_dec : EqDecision error.
Proof. solve_decision. Defined.

(** [err.Error()], the text of an error. *)
Fixpoint Error (e : error) : string :=
  match e with
  | io_EOF => "EOF"
  | errTruncate => "Do truncate"
  | ErrRetry => "Unable to find log file. Please retry"
  | ErrEncryptionKeyMismatch => "Encryption key mismatch"
  | errBadChecksum => "Invalid checksum"
  | ErrInvalidDataKeyID => "Invalid datakey id"
  | os_ErrNotExist => "file does not exist"
  | os_ErrClosed => "file already closed"
  | os_ErrPermission => "permission denied"
  | os_ErrInvalid => "invalid argument"
  | errFault _ => "fault"
  | InvalidPointer _ _ => "Invalid value pointer offset"
  | errorsNew msg => msg
  | Wrapf e' msg => msg ++ " error: " ++ Error e'
  end%string.

(** What a Go function in this model can do: return (with or without an
    error), abort the process with a panic, or, for the loops that Go
    writes as [for { ... }], exhaust the fuel of the model. *)
Inductive outcome (A : Type) : Type :=
| Returned (a : A)
| Failed (e : error)
| Panicked (msg : string)
| OutOfFuel.
Arguments Returned {A} a.
Arguments Failed {A} e.
Arguments Panicked {A} msg.
Arguments OutOfFuel {A}.

(** ** Data model of the log manager *)

Inductive family : Type := WAL | VLOG.

(** Modelled from the spec: [walFilePath(dir, fid)] and
    [vlogFilePath(dir, fid)] name the files "<n>.log" and "<n>.vlog" of the
    value directory; a path is kept as the pair it is built from. *)
Definition filePath : Type := (family * Z)%type.
Definition walFilePath (fid : Z) : filePath := (WAL, fid).
Definition vlogFilePath (fid : Z) : filePath := (VLOG, fid).

Record valuePointer : Type := mkVP { Fid : Z; Len : Z; Offset : Z }.

Definition emptyPointer : valuePointer := mkVP 0 0 0.

Record Entry : Type := mkEntry {
  Key : list byte;
  Value : list byte;
  UserMeta : Z;
  ExpiresAt : Z;
  meta : Z;
  offset : Z;
  skipVlog : bool;
  hlen : Z
}.

(** Modelled from the spec: the decoder [entryReader.Entry], whose code is
    with the value log, hands out the next framed entry with its "implicit
    offset (position within its log file, filled in after framing)" set
    to the record offset of the reader. *)
Definition set_offset (e : Entry) (o : Z) : Entry :=
  mkEntry (Key e) (Value e) (UserMeta e) (ExpiresAt e) (meta e) o
    (skipVlog e) (hlen e).

Definition vlogHeaderSize : Z := 20.
Definition crc32_Size : Z := 4.

(** [uint32(int(e.hlen) + len(e.Key) + len(e.Value) + crc32.Size)] *)
Definition entryLen (e : Entry) : Z :=
  Wire.wrap32 (hlen e + Z.of_nat (length (Key e)) + Z.of_nat (length (Value e))
               + crc32_Size).

(** Constants and helpers of the record layer that the iterator uses and
    that are declared outside the two files modelled here. *)
Class RecordEnv : Type := {
  bitTxn : Z;
  bitFinTxn : Z;
  ParseTs : list byte -> Z
}.

(** The iterator of [newLogIterator].  [pending] and [final] stand for the
    bytes that lie ahead of the reader: the records it will decode, in
    order, and the error [entryReader.Entry] reports once they are used up
    ([io_EOF] at a clean end of file, [errTruncate] at a torn or corrupt
    record).  [itPath] remembers which file the iterator was created on. *)
Record logIterator : Type := mkIter {
  itPath : filePath;
  recordOffset : Z;
  validOffset : Z;
  pending : list Entry;
  final : error
}.

Section Iterator.
Context {RE : RecordEnv}.

(** The loop of [iterateEntries], by recursion on the records ahead.
    Each turn takes the next record from [entryReader.Entry], stamped by
    [set_offset], or ends with the error the reader reports; the loop
    advances [recordOffset] itself. *)
Fixpoint iterateEntries_loop (ahead : list Entry) (it : logIterator)
    (commitTs : Z) (entries : list Entry)
  : (list Entry * Z * option error) * logIterator :=
  match ahead with
  | [] =>
      (([], 0, Some (final it)),
       mkIter (itPath it) (recordOffset it) (validOffset it) [] (final it))
  | raw :: rest =>
      let e := set_offset raw (recordOffset it) in
      let off' := Wire.wrap32 (recordOffset it + entryLen e) in
      let it' := mkIter (itPath it) off' (validOffset it) rest (final it) in
      if 0 <? Z.land (meta e) bitTxn then
        let txnTs := ParseTs (Key e) in
        let commitTs' := if commitTs =? 0 then txnTs else commitTs in
        if negb (commitTs' =? txnTs) then (([], 0, Some errTruncate), it')
        else iterateEntries_loop rest it' commitTs' (entries ++ [e])
      else if 0 <? Z.land (meta e) bitFinTxn then
        match Wire.ParseUint (Value e) with
        | Some txnTs =>
            if commitTs =? txnTs then
              ((entries, commitTs, None),
               mkIter (itPath it) off' off' rest (final it))
            else (([], 0, Some errTruncate), it')
        | None => (([], 0, Some errTruncate), it')
        end
      else iterateEntries_loop rest it' commitTs entries
  end.

Definition iterateEntries (it : logIterator)
  : (list Entry * Z * option error) * logIterator :=
  iterateEntries_loop (pending it) it 0 [].

(** Two reference functions, used to state what a call of
    [iterateEntries] returns for a transaction.  [offsetPast o es] is the
    record offset behind the records [es] when the first of them sits at
    [o]: every record counts with its length, whatever its marks.
    [stampedTxn o es] is the batch that the records [es] contribute: the
    records that carry the transaction bit, in order, each with the
    offset it sits at. *)
Fixpoint offsetPast (o : Z) (es : list Entry) : Z :=
  match es with
  | [] => o
  | e :: rest => offsetPast (Wire.wrap32 (o + entryLen e)) rest
  end.

Fixpoint stampedTxn (o : Z) (es : list Entry) : list Entry :=
  match es with
  | [] => []
  | e :: rest =>
      (if 0 <? Z.land (meta e) bitTxn then [set_offset e o] else [])
      ++ stampedTxn (Wire.wrap32 (o + entryLen e)) rest
  end.

End Iterator.

(** ** The files of the value directory *)

Global Instance family_eq_dec : EqDecision family.
Proof. solve_decision. Defined.

Global Instance family_countable : Countable family.
Proof.
  refine (inj_countable' (fun f => match f with WAL => false | VLOG => true end)
            (fun b => if b then VLOG else WAL) _).
  intros []; reflexivity.
Defined.

(** A log file as it lies on disk.  [f_stream o] is what a reader that was
    positioned at byte [o] decodes: the records ahead and the error that
    ends them.  [f_offset] is the append cursor that [logFile.open] leaves
    in the opened file, [f_removable] tells whether [os.Remove] succeeds. *)
Record diskFile : Type := mkDiskFile {
  f_size : Z;
  f_offset : Z;
  f_stream : Z -> list Entry * error;
  f_removable : bool
}.

Abbreviation disk := (gmap filePath diskFile).

Record logFile : Type := mkLogFile {
  fid : Z;
  path : filePath;
  lf_offset : Z;     (* the field [offset], read through [fileOffset()] *)
  fd_open : bool     (* whether [fd] is an open descriptor *)
}.

Definition fileOffset (lf : logFile) : Z := lf_offset lf.

(** [flags] starts at zero and the switch of [replay] ors in at most one
    of [y.ReadOnly] and [y.Sync]. *)
Inductive openFlags : Type := flagsZero | flagsReadOnly | flagsSync.

Inductive loadingMode : Type := FileIO | MemoryMap.

Record Options : Type := mkOptions {
  ReadOnly : bool;
  SyncWrites : bool;
  ValueLogLoadingMode : loadingMode
}.

Definition openFlagsOf (o : Options) : openFlags :=
  if ReadOnly o then flagsReadOnly
  else if SyncWrites o then flagsSync
  else flagsZero.

(** What the replayer does to the outside world, in order. *)
Inductive event : Type :=
| EvOpen (p : filePath) (flags : openFlags)
| EvBootstrap (p : filePath)
| EvSeek (p : filePath) (off : Z)
| EvIterate (p : filePath)
| EvStat (p : filePath)
| EvClose (p : filePath)
| EvRemove (p : filePath)
| EvReplayFn (e : Entry) (vp : valuePointer).

(** The files a trace opened, in order. *)
Definition openedPaths (tr : list event) : list filePath :=
  omap (fun ev => match ev with EvOpen p _ => Some p | _ => None end) tr.

(** The files whose iterator a trace asked for a batch, in order. *)
Definition iteratedPaths (tr : list event) : list filePath :=
  omap (fun ev => match ev with EvIterate p => Some p | _ => None end) tr.

(** Modelled from the spec: [logFile.open] (its code is with the value log,
    not in the two files modelled here) "reads bootstrap header; resolves
    data_key_id via registry".  It fails when the file is missing and
    otherwise leaves an open descriptor and the file's append cursor. *)
Definition logFile_open (d : disk) (lf : logFile) (p : filePath)
  : error + logFile :=
  match d !! p with
  | None => inl os_ErrNotExist
  | Some f => inr (mkLogFile (fid lf) (path lf) (f_offset f) true)
  end.

(** Modelled from the spec: [bootstrap()] "writes a fresh 20-byte header"
    and "sets writable_offset = 20". *)
Definition bootstrap (d : disk) (lf : logFile) : error + (disk * logFile) :=
  if fd_open lf then
    match d !! path lf with
    | None => inl os_ErrNotExist
    | Some f =>
        inr (<[path lf := mkDiskFile (Z.max (f_size f) vlogHeaderSize)
                            vlogHeaderSize (f_stream f) (f_removable f)]> d,
             mkLogFile (fid lf) (path lf) vlogHeaderSize true)
    end
  else inl os_ErrClosed.

(** [log.fd.Stat()] followed by [info.Size()]. *)
Definition fd_Stat (d : disk) (lf : logFile) : error + Z :=
  if fd_open lf then
    match d !! path lf with
    | None => inl os_ErrNotExist
    | Some f => inr (f_size f)
    end
  else inl os_ErrClosed.

(** The closure [isTruncateNeeded] of [replay]. *)
Definition isTruncateNeeded (d : disk) (validOff : Z) (log : logFile)
  : bool * option error :=
  match fd_Stat d log with
  | inl err => (false, Some err)
  | inr sz => (negb (sz =? validOff), None)
  end.

(** [lf.fd.Close()] *)
Definition fd_Close (lf : logFile) : error + logFile :=
  if fd_open lf then inr (mkLogFile (fid lf) (path lf) (lf_offset lf) false)
  else inl os_ErrClosed.

(** [newLogIterator]: seek the descriptor, then build the iterator.
    [validOffset] is not initialised by the source and starts at zero.
    The source does not set the field [reader] either, and
    [iterateEntries] hands it to [entryReader.Entry] as it is.  The
    iterator of the model reads the records of the file from [off] on,
    as the spec has it ("start iterator at either file header or
    [vlog_head.offset]", "read next framed entry"); what the loops of
    [replay] and of [iterateEntries] do is stated for such a reader. *)
Definition newLogIterator (d : disk) (log : logFile) (off : Z)
  : error + logIterator :=
  if fd_open log then
    match d !! path log with
    | None => inl os_ErrNotExist
    | Some f =>
        inr (mkIter (path log) off 0 (fst (f_stream f off)) (snd (f_stream f off)))
    end
  else inl os_ErrClosed.

(** ** The replayer *)

Record logReplayer : Type := mkReplayer {
  walIDs : list Z;
  vlogIDs : list Z;
  vhead : valuePointer;
  opt : Options
}.

(** The variables [replay] keeps for one stream: its file, its iterator,
    its index in the id list and the batch last read. *)
Record cursor : Type := mkCursor {
  cFile : logFile;
  cIterator : logIterator;
  cIndex : nat;
  cEntries : list Entry;
  cCommitTs : Z;
  cErr : option error
}.

Record replayVars : Type := mkVars {
  rDisk : disk;
  rTrace : list event;
  rWal : cursor;
  rVlog : cursor;
  truncateNeeded : bool
}.

Definition walFile (st : replayVars) : logFile := cFile (rWal st).
Definition vlogFile (st : replayVars) : logFile := cFile (rVlog st).
Definition walIterator (st : replayVars) : logIterator := cIterator (rWal st).
Definition vlogIterator (st : replayVars) : logIterator := cIterator (rVlog st).
Definition currentWalIndex (st : replayVars) : nat := cIndex (rWal st).
Definition currentVlogIndex (st : replayVars) : nat := cIndex (rVlog st).
Definition walEntries (st : replayVars) : list Entry := cEntries (rWal st).
Definition vlogEntries (st : replayVars) : list Entry := cEntries (rVlog st).
Definition walCommitTs (st : replayVars) : Z := cCommitTs (rWal st).
Definition vlogCommitTs (st : replayVars) : Z := cCommitTs (rVlog st).
Definition walErr (st : replayVars) : option error := cErr (rWal st).
Definition vlogErr (st : replayVars) : option error := cErr (rVlog st).

(** How one turn of the [for] loop ends. *)
Inductive loopStep : Type :=
| Continue (st : replayVars)
| Break (st : replayVars)
| Return (r : option error) (st : replayVars)
| Panic (msg : string) (st : replayVars).

Definition logEntry : Type := Entry -> valuePointer -> option error.

(** The two [for _, e := range ...] loops that hand every entry of a
    batch to [replayFn], stopping at the first error. *)
Fixpoint replayAll (replayFn : logEntry) (vpOf : Entry -> valuePointer)
    (entries : list Entry) (tr : list event) : option error * list event :=
  match entries with
  | [] => (None, tr)
  | e :: rest =>
      let tr' := tr ++ [EvReplayFn e (vpOf e)] in
      match replayFn e (vpOf e) with
      | Some err => (Some err, tr')
      | None => replayAll replayFn vpOf rest tr'
      end
  end.

Record replayResult : Type := mkResult {
  resOutcome : outcome unit;
  resDisk : disk;
  resTrace : list event
}.

Section Replay.
Context {RE : RecordEnv}.
Variable lp : logReplayer.
Variable replayFn : logEntry.

Definition flags : openFlags := openFlagsOf (opt lp).

Definition emit (ev : event) (st : replayVars) : replayVars :=
  mkVars (rDisk st) (rTrace st ++ [ev]) (rWal st) (rVlog st) (truncateNeeded st).

Definition set_truncateNeeded (b : bool) (st : replayVars) : replayVars :=
  mkVars (rDisk st) (rTrace st) (rWal st) (rVlog st) b.

Definition set_wal (c : cursor) (st : replayVars) : replayVars :=
  mkVars (rDisk st) (rTrace st) c (rVlog st) (truncateNeeded st).

Definition set_vlog (c : cursor) (st : replayVars) : replayVars :=
  mkVars (rDisk st) (rTrace st) (rWal st) c (truncateNeeded st).

Definition set_cFile (lf : logFile) (c : cursor) : cursor :=
  mkCursor lf (cIterator c) (cIndex c) (cEntries c) (cCommitTs c) (cErr c).

Definition set_cIndex (i : nat) (c : cursor) : cursor :=
  mkCursor (cFile c) (cIterator c) i (cEntries c) (cCommitTs c) (cErr c).

Definition set_cIterator (it : logIterator) (c : cursor) : cursor :=
  mkCursor (cFile c) it (cIndex c) (cEntries c) (cCommitTs c) (cErr c).

Definition set_cBatch (b : list Entry * Z * option error) (c : cursor) : cursor :=
  mkCursor (cFile c) (cIterator c) (cIndex c) (fst (fst b)) (snd (fst b)) (snd b).

(** Lines 322-362: the WAL stream reported [io.EOF].  The new file is
    bound by [walFile := ...] to a variable local to the block, so the
    outer [walFile] keeps naming the first file, with its descriptor now
    closed. *)
Definition advanceWal (st : replayVars) : loopStep :=
  let st := emit (EvStat (path (walFile st))) st in
  match isTruncateNeeded (rDisk st) (validOffset (walIterator st)) (walFile st) with
  | (_, Some err) =>
      Return (Some (Wrapf err "Error while checking truncation for the wal file %s"))
        (set_truncateNeeded false st)
  | (true, None) => Break (set_truncateNeeded true st)
  | (false, None) =>
      let st := emit (EvClose (path (walFile st))) (set_truncateNeeded false st) in
      match fd_Close (walFile st) with
      | inl err =>
          Return (Some (Wrapf err "Error while closing the WAL file %s in replay")) st
      | inr closedFile =>
          let st := set_wal (set_cFile closedFile (rWal st)) st in
          if (length (walIDs lp) <? currentWalIndex st)%nat then Break st
          else
            let idx := S (currentWalIndex st) in
            let st := set_wal (set_cIndex idx (rWal st)) st in
            match walIDs lp !! idx with
            | None => Panic "index out of range" st
            | Some id =>
                let newFile := mkLogFile id (walFilePath id) 0 false in
                let st := emit (EvOpen (path newFile) flags) st in
                match logFile_open (rDisk st) newFile (path newFile) with
                | inl err =>
                    Return (Some (Wrapf err "Error while opening WAL file %d in logReplayer")) st
                | inr opened =>
                    if fileOffset opened <? vlogHeaderSize
                    then Break (set_truncateNeeded true st)
                    else
                      let st := emit (EvSeek (path opened) vlogHeaderSize) st in
                      match newLogIterator (rDisk st) opened vlogHeaderSize with
                      | inl _ => Panic "nil pointer dereference" st
                      | inr it =>
                          let st := emit (EvIterate (itPath it)) st in
                          let r := iterateEntries it in
                          Continue
                            (set_wal (set_cBatch (fst r)
                                        (set_cIterator (snd r) (rWal st))) st)
                      end
                end
            end
      end
  end.

(** Lines 364-404: the vlog stream reported [io.EOF].  The next file is
    named by [lp.walIDs[currentVlogIndex]], and the batch that follows is
    read with [walIterator.iterateEntries()]. *)
Definition advanceVlog (st : replayVars) : loopStep :=
  let st := emit (EvStat (path (vlogFile st))) st in
  match isTruncateNeeded (rDisk st) (validOffset (vlogIterator st)) (vlogFile st) with
  | (_, Some err) =>
      Return (Some (Wrapf err "Error while checking truncation for the vlog file %s"))
        (set_truncateNeeded false st)
  | (true, None) => Break (set_truncateNeeded true st)
  | (false, None) =>
      let st := emit (EvClose (path (vlogFile st))) (set_truncateNeeded false st) in
      match fd_Close (vlogFile st) with
      | inl err =>
          Return (Some (Wrapf err "Error while closing the vlog file %s in replay")) st
      | inr closedFile =>
          let st := set_vlog (set_cFile closedFile (rVlog st)) st in
          if (length (vlogIDs lp) <? currentVlogIndex st)%nat then Break st
          else
            let idx := S (currentVlogIndex st) in
            let st := set_vlog (set_cIndex idx (rVlog st)) st in
            match walIDs lp !! idx with
            | None => Panic "index out of range" st
            | Some id =>
                let newFile := mkLogFile id (vlogFilePath id) 0 false in
                let st := set_vlog (set_cFile newFile (rVlog st)) st in
                let st := emit (EvOpen (path newFile) flags) st in
                match logFile_open (rDisk st) newFile (path newFile) with
                | inl err =>
                    Return (Some (Wrapf err "Error while opening WAL file %d in logReplayer")) st
                | inr opened =>
                    let st := set_vlog (set_cFile opened (rVlog st)) st in
                    if fileOffset opened <? vlogHeaderSize
                    then Break (set_truncateNeeded true st)
                    else
                      let st := emit (EvSeek (path opened) vlogHeaderSize) st in
                      match newLogIterator (rDisk st) opened vlogHeaderSize with
                      | inl _ =>
                          (* [err] is dropped and [vlogIterator] becomes nil;
                             the batch is still read from [walIterator] *)
                          let st := emit (EvIterate (itPath (walIterator st))) st in
                          let r := iterateEntries (walIterator st) in
                          Continue
                            (set_vlog (set_cBatch (fst r) (rVlog st))
                               (set_wal (set_cIterator (snd r) (rWal st)) st))
                      | inr it =>
                          let st := set_vlog (set_cIterator it (rVlog st)) st in
                          let st := emit (EvIterate (itPath (walIterator st))) st in
                          let r := iterateEntries (walIterator st) in
                          Continue
                            (set_vlog (set_cBatch (fst r) (rVlog st))
                               (set_wal (set_cIterator (snd r) (rWal st)) st))
                      end
                end
            end
      end
  end.

(** The pointer built for a vlog entry at lines 429-433. *)
Definition vlogPointer (vlogFid : Z) (e : Entry) : valuePointer :=
  mkVP vlogFid (entryLen e) (offset e).

(** Lines 421-440: both batches carry the same commit timestamp. *)
Definition replayBatch (st : replayVars) : loopStep :=
  match replayAll replayFn (fun _ => emptyPointer) (walEntries st) (rTrace st) with
  | (Some err, tr) =>
      Return (Some (Wrapf err "Error while inserting entry to lsm."))
        (mkVars (rDisk st) tr (rWal st) (rVlog st) (truncateNeeded st))
  | (None, tr) =>
      match replayAll replayFn (vlogPointer (fid (vlogFile st))) (vlogEntries st) tr with
      | (Some err, tr') =>
          Return (Some (Wrapf err "Error while inserting entry to lsm."))
            (mkVars (rDisk st) tr' (rWal st) (rVlog st) (truncateNeeded st))
      | (None, tr') =>
          let st := mkVars (rDisk st) tr' (rWal st) (rVlog st) (truncateNeeded st) in
          (* walEntries, walCommitTs, walErr = walIterator.iterateEntries() *)
          let st := emit (EvIterate (itPath (walIterator st))) st in
          let r1 := iterateEntries (walIterator st) in
          let st := set_wal (set_cBatch (fst r1) (set_cIterator (snd r1) (rWal st))) st in
          (* vlogEntries, vlogCommitTs, vlogErr = walIterator.iterateEntries() *)
          let st := emit (EvIterate (itPath (walIterator st))) st in
          let r2 := iterateEntries (walIterator st) in
          Continue
            (set_vlog (set_cBatch (fst r2) (rVlog st))
               (set_wal (set_cIterator (snd r2) (rWal st)) st))
      end
  end.

Definition errText (o : option error) : string :=
  match o with
  | Some e => Error e
  | None => ""%string
  end.

(** One turn of the [for] loop, lines 316-440. *)
Definition replay_step (st : replayVars) : loopStep :=
  if decide (walErr st = Some errTruncate \/ vlogErr st = Some errTruncate) then
    Break (set_truncateNeeded true st)
  else if decide (walErr st = Some io_EOF) then advanceWal st
  else if decide (vlogErr st = Some io_EOF) then advanceVlog st
  else if decide (walErr st <> None \/ vlogErr st <> None) then
    Return
      (Some (Wrapf (errorsNew (errText (walErr st) ++ errText (vlogErr st))%string)
               "Error while replay log"))
      st
  else if negb (vlogCommitTs st =? walCommitTs st) then
    Break (set_truncateNeeded true st)
  else replayBatch st.

(** Lines 443-446, after the loop. *)
Definition afterLoop (st : replayVars) : replayResult :=
  if truncateNeeded st
  then mkResult (Panicked "Sup implement this guy.") (rDisk st) (rTrace st)
  else mkResult (Returned tt) (rDisk st) (rTrace st).

Fixpoint replay_loop (fuel : nat) (st : replayVars) : replayResult :=
  match fuel with
  | O => mkResult OutOfFuel (rDisk st) (rTrace st)
  | S fuel' =>
      match replay_step st with
      | Continue st' => replay_loop fuel' st'
      | Break st' => afterLoop st'
      | Return None st' => mkResult (Returned tt) (rDisk st') (rTrace st')
      | Return (Some err) st' => mkResult (Failed err) (rDisk st') (rTrace st')
      | Panic msg st' => mkResult (Panicked msg) (rDisk st') (rTrace st')
      end
  end.

(** Opening one log file the way lines 260-275 and 285-300 do: open,
    then bootstrap when the append cursor is below the header size. *)
Definition openAndBootstrap (d : disk) (tr : list event) (lf : logFile)
    (openMsg bootMsg : string)
  : (error * list event) + (disk * list event * logFile) :=
  let tr := tr ++ [EvOpen (path lf) flags] in
  match logFile_open d lf (path lf) with
  | inl err => inl (Wrapf err openMsg, tr)
  | inr opened =>
      if fileOffset opened <? vlogHeaderSize then
        let tr := tr ++ [EvBootstrap (path opened)] in
        match bootstrap d opened with
        | inl err => inl (Wrapf err bootMsg, tr)
        | inr (d', booted) => inr (d', tr, booted)
        end
      else inr (d, tr, opened)
  end.

(** Lines 246-307: everything before the loop.  The result is either the
    way [replay] ends early or the variables the loop starts with. *)
Definition replay_init (d : disk) : replayResult + replayVars :=
  if (length (walIDs lp) =? 0)%nat then inl (mkResult (Returned tt) d [])
  else
    match vlogIDs lp !! 0%nat with
    | None => inl (mkResult (Panicked "index out of range") d [])
    | Some vid =>
        match openAndBootstrap d [] (mkLogFile vid (vlogFilePath vid) 0 false)
                "Error while opening vlog file %d in log replayer"
                "Error while bootstraping vlog file %d" with
        | inl (err, tr) => inl (mkResult (Failed err) d tr)
        | inr (d, tr, vlogF) =>
            let vlogOffset :=
              if fid vlogF =? Fid (vhead lp) then Offset (vhead lp)
              else vlogHeaderSize in
            let tr := tr ++ [EvSeek (path vlogF) vlogOffset] in
            match newLogIterator d vlogF vlogOffset with
            | inl err =>
                inl (mkResult
                       (Failed (Wrapf err "Error while creating log iterator for the vlog file %s"))
                       d tr)
            | inr vlogIt =>
                match walIDs lp !! 0%nat with
                | None => inl (mkResult (Panicked "index out of range") d tr)
                | Some wid =>
                    match openAndBootstrap d tr (mkLogFile wid (walFilePath wid) 0 false)
                            "Error while opening WAL file %d in logReplayer"
                            "Error while bootstraping wal file %d" with
                    | inl (err, tr) => inl (mkResult (Failed err) d tr)
                    | inr (d, tr, walF) =>
                        let tr := tr ++ [EvSeek (path walF) vlogHeaderSize] in
                        match newLogIterator d walF vlogHeaderSize with
                        | inl err =>
                            inl (mkResult
                                   (Failed (Wrapf err "Error while creating log iterator for the wal file %s"))
                                   d tr)
                        | inr walIt =>
                            let rw := iterateEntries walIt in
                            let rv := iterateEntries vlogIt in
                            let tr := tr ++ [EvIterate (itPath walIt); EvIterate (itPath vlogIt)] in
                            inr (mkVars d tr
                                   (set_cBatch (fst rw) (mkCursor walF (snd rw) 0%nat [] 0 None))
                                   (set_cBatch (fst rv) (mkCursor vlogF (snd rv) 0%nat [] 0 None))
                                   false)
                        end
                    end
                end
            end
        end
    end.

(** [(lp *logReplayer) replay(replayFn)] on the value directory [d]. *)
Definition replay (fuel : nat) (d : disk) : replayResult :=
  match replay_init d with
  | inl r => r
  | inr st => replay_loop fuel st
  end.

End Replay.

(** ** The log manager *)

Record header : Type := mkHeader { klen : Z; vlen : Z }.

(** The manager, with its two active files.  In the source [wal] and
    [vlog] are pointers, and [openLogManager] assigns [vlog] on the path
    of the empty directory only (line 142): on every other path it is
    left nil, and [write] and [Read] dereference it.  The manager of the
    model has both files; what is stated about [write] and [Read] is
    stated for such a manager. *)
Record logManager : Type := mkManager {
  mOpt : Options;
  wal : logFile;
  vlog : logFile;
  entriesWritten : Z;
  maxWalID : Z;
  maxVlogID : Z;
  vlogFileMap : gmap Z logFile;
  rlocks : gmap Z nat    (* read locks held on the [lock] of each vlog file *)
}.

Record request : Type := mkRequest {
  Entries : list Entry;
  Ptrs : list valuePointer
}.

(** The collaborators of [write] and [Read] that are implemented with the
    value log and the database: the routing predicate, the record encoder
    (its result is the bytes it appends to the buffer), the flush of a
    buffer, the read of a record and the header and payload decoders. *)
Class ManagerEnv : Type := {
  shouldWriteValueToLSM : Entry -> bool;
  encode : logFile -> Entry -> Z -> error + list byte;
  writeLog : logFile -> list byte -> error + logFile;
  lf_read : logFile -> valuePointer -> error + list byte;
  header_Decode : list byte -> header * Z;
  encryptionEnabled : logFile -> bool;
  decryptKV : logFile -> list byte -> Z -> error + list byte
}.

Section OpenLogManager.

(** [os.Remove(path)] *)
Definition os_Remove (d : disk) (p : filePath) : error + disk :=
  match d !! p with
  | None => inl os_ErrNotExist
  | Some f => if f_removable f then inr (delete p d) else inl os_ErrPermission
  end.

(** Lines 67-85.  [walFiles] is a Go map and [range] visits its keys in
    an unspecified order; the list [fids] is the order of one run. *)
Fixpoint filterWAL (walhead : Z) (readOnly : bool) (fids : list Z)
    (d : disk) (tr : list event) (maxWal : Z) (filteredWALIDs : list Z)
  : (error * disk * list event) + (disk * list event * Z * list Z) :=
  match fids with
  | [] => inr (d, tr, maxWal, filteredWALIDs)
  | fid :: rest =>
      let maxWal := if fid >? maxWal then fid else maxWal in
      if fid >? walhead then
        if negb readOnly then
          let tr := tr ++ [EvRemove (walFilePath fid)] in
          match os_Remove d (walFilePath fid) with
          | inl err => inl (Wrapf err "Error while removing log file %d", d, tr)
          | inr d' => filterWAL walhead readOnly rest d' tr maxWal filteredWALIDs
          end
        else filterWAL walhead readOnly rest d tr maxWal filteredWALIDs
      else filterWAL walhead readOnly rest d tr maxWal (filteredWALIDs ++ [fid])
  end.

(** Lines 94-105. *)
Fixpoint filterVlog (vheadFid : Z) (fids : list Z) (maxVlog : Z)
    (filteredVlogIDs : list Z) : Z * list Z :=
  match fids with
  | [] => (maxVlog, filteredVlogIDs)
  | fid :: rest =>
      let maxVlog := if fid >? maxVlog then fid else maxVlog in
      if fid <? vheadFid then filterVlog vheadFid rest maxVlog filteredVlogIDs
      else filterVlog vheadFid rest maxVlog (filteredVlogIDs ++ [fid])
  end.

Definition sortIDs (ids : list Z) : list Z := merge_sort Z.le ids.

Record openPrefix : Type := mkOpenPrefix {
  opMaxWalID : Z;
  opMaxVlogID : Z;
  opReplayer : logReplayer;
  opDisk : disk;
  opTrace : list event
}.

(** [openLogManager] from its first line to the point where the
    replayer is built (lines 51-119), on the path on which both calls of
    [y.PopulateFilesForSuffix] succeed.  [walFiles] and [vlogFiles] are
    the ids that they found, in the order the two [range] loops visit
    them.  [openLogManager_prefix] below has the two error returns. *)
Definition openLogManager_filter (o : Options) (vhd : valuePointer)
    (walhead : Z) (walFiles vlogFiles : list Z) (d : disk)
  : (error * disk * list event) + openPrefix :=
  match filterWAL walhead (ReadOnly o) walFiles d [] 0 [] with
  | inl bad => inl bad
  | inr (d, tr, maxWal, filteredWALIDs) =>
      let '(maxVlog, filteredVlogIDs) := filterVlog (Fid vhd) vlogFiles 0 [] in
      inr (mkOpenPrefix maxWal maxVlog
             (mkReplayer (sortIDs filteredWALIDs) (sortIDs filteredVlogIDs) vhd o)
             d tr)
  end.

(** [openLogManager] from its first line to the point where the
    replayer is built (lines 51-119), with the error returns of the two
    calls of [y.PopulateFilesForSuffix] (lines 63-65 and 90-92).
    [walFiles] and [vlogFiles] are what the two calls return: an error,
    or the ids found in the order the [range] loop visits them.  The
    vlog files are listed after the WAL loop has run, so a failure of
    the second call leaves the directory without the WAL files that
    were removed. *)
Definition openLogManager_prefix (o : Options) (vhd : valuePointer)
    (walhead : Z) (walFiles vlogFiles : error + list Z) (d : disk)
  : (error * disk * list event) + openPrefix :=
  match walFiles with
  | inl err =>
      inl (Wrapf err "Error while populating map in openLogManager", d, [])
  | inr wals =>
      match filterWAL walhead (ReadOnly o) wals d [] 0 [] with
      | inl bad => inl bad
      | inr (d, tr, maxWal, filteredWALIDs) =>
          match vlogFiles with
          | inl err => inl (Wrapf err "Error while populating vlog files", d, tr)
          | inr vlogs =>
              let '(maxVlog, filteredVlogIDs) :=
                filterVlog (Fid vhd) vlogs 0 [] in
              inr (mkOpenPrefix maxWal maxVlog
                     (mkReplayer (sortIDs filteredWALIDs)
                        (sortIDs filteredVlogIDs) vhd o)
                     d tr)
          end
      end
  end.

(** [openLogManager] up to and including the replay (lines 51-123): what
    the replay returned, next to the replayer that ran. *)
Definition openLogManager_replay {RE : RecordEnv} (o : Options)
    (vhd : valuePointer) (walhead : Z) (replayFn : logEntry)
    (walFiles vlogFiles : list Z) (fuel : nat) (d : disk)
  : (error * disk * list event) + (openPrefix * replayResult) :=
  match openLogManager_filter o vhd walhead walFiles vlogFiles d with
  | inl bad => inl bad
  | inr pre =>
      let r := replay (opReplayer pre) replayFn fuel (opDisk pre) in
      let r := mkResult (resOutcome r) (resDisk r) (opTrace pre ++ resTrace r) in
      match resOutcome r with
      | Failed err => inl (Wrapf err "Error while replaying log", resDisk r, resTrace r)
      | _ => inr (pre, r)
      end
  end.

End OpenLogManager.

Section Write.
Context {ME : ManagerEnv}.
Variable manager : logManager.

(** Lines 527-557: the loop over the entries of one request that precede
    its two end markers. *)
Fixpoint writeEntries (txnEntries : list Entry) (walBuf vlogBuf : list byte)
    (ptrs : list valuePointer) (written : Z)
  : (error * list valuePointer)
    + (list byte * list byte * list valuePointer * Z) :=
  match txnEntries with
  | [] => inr (walBuf, vlogBuf, ptrs, written)
  | e :: rest =>
      let ptrs := if skipVlog e then ptrs ++ [emptyPointer] else ptrs in
      if shouldWriteValueToLSM e then
        let entryOffset :=
          Wire.wrap32 (fileOffset (wal manager)
                       + Wire.wrap32 (Z.of_nat (length walBuf))) in
        match encode (wal manager) e entryOffset with
        | inl err => inl (Wrapf err "Error while encoding entry for WAL %d", ptrs)
        | inr bytes =>
            writeEntries rest (walBuf ++ bytes) vlogBuf
              (ptrs ++ [emptyPointer]) (written + 1)
        end
      else
        let entryOffset :=
          Wire.wrap32 (fileOffset (vlog manager)
                       + Wire.wrap32 (Z.of_nat (length vlogBuf))) in
        match encode (vlog manager) e entryOffset with
        | inl err => inl (Wrapf err "Error while encoding entry for vlog %d", ptrs)
        | inr bytes =>
            let p := mkVP (fid (vlog manager))
                       (Wire.wrap32 (Z.of_nat (length bytes))) entryOffset in
            writeEntries rest walBuf (vlogBuf ++ bytes) (ptrs ++ [p]) (written + 1)
        end
  end.

Record writeVars : Type := mkWriteVars {
  wWalBuf : list byte;
  wVlogBuf : list byte;
  wEntriesWritten : Z
}.

(** Lines 522-576: one request.  The result carries the request with the
    pointers appended so far, also when an encoder fails midway. *)
Definition writeRequest (b : request) (w : writeVars)
  : outcome writeVars * request :=
  let n := length (Entries b) in
  if (n <? 2)%nat then (Panicked "slice bounds out of range", b)
  else
    match writeEntries (take (n - 2) (Entries b)) (wWalBuf w) (wVlogBuf w)
            (Ptrs b) 0 with
    | inl (err, ptrs) => (Failed err, mkRequest (Entries b) ptrs)
    | inr (walBuf, vlogBuf, ptrs, written) =>
        match Entries b !! (n - 2)%nat, Entries b !! (n - 1)%nat with
        | Some endWal, Some endVlog =>
            let entryOffset :=
              Wire.wrap32 (fileOffset (wal manager)
                           + Wire.wrap32 (Z.of_nat (length walBuf))) in
            match encode (wal manager) endWal entryOffset with
            | inl err =>
                (Failed (Wrapf err "Error while encoding end entry for WAL %d"),
                 mkRequest (Entries b) ptrs)
            | inr wbytes =>
                let walBuf := walBuf ++ wbytes in
                let ptrs := ptrs ++ [emptyPointer] in
                let entryOffset :=
                  Wire.wrap32 (fileOffset (vlog manager)
                               + Wire.wrap32 (Z.of_nat (length vlogBuf))) in
                match encode (vlog manager) endVlog entryOffset with
                | inl err =>
                    (Failed (Wrapf err "Error while encoding eng entry for vlog %d"),
                     mkRequest (Entries b) ptrs)
                | inr vbytes =>
                    (Returned
                       (mkWriteVars walBuf (vlogBuf ++ vbytes)
                          (Wire.wrap32 (wEntriesWritten w
                                        + Wire.wrap32 (written + 2)))),
                     mkRequest (Entries b) (ptrs ++ [emptyPointer]))
                end
            end
        | _, _ => (Panicked "index out of range", mkRequest (Entries b) ptrs)
        end
    end.

(** The loop over the requests, lines 521-577. *)
Fixpoint writeRequests (reqs : list request) (w : writeVars)
  : outcome writeVars * list request :=
  match reqs with
  | [] => (Returned w, [])
  | b :: rest =>
      match writeRequest b w with
      | (Returned w', b') =>
          let r := writeRequests rest w' in (fst r, b' :: snd r)
      | (bad, b') => (bad, b' :: rest)
      end
  end.

(** The value of [manager.entriesWritten] when the loop over the
    requests stops: line 576 has added the entries of every request that
    was processed in full, also when a later request fails or panics. *)
Fixpoint entriesWrittenAt (reqs : list request) (w : writeVars) : Z :=
  match reqs with
  | [] => wEntriesWritten w
  | b :: rest =>
      match writeRequest b w with
      | (Returned w', _) => entriesWrittenAt rest w'
      | _ => wEntriesWritten w
      end
  end.

Record writeResult : Type := mkWriteResult {
  wrOutcome : outcome unit;
  wrReqs : list request;
  wrVars : writeVars;
  wrManager : logManager
}.

Definition set_files (w v : logFile) (n : Z) : logManager :=
  mkManager (mOpt manager) w v n (maxWalID manager) (maxVlogID manager)
    (vlogFileMap manager) (rlocks manager).

(** [(manager *logManager) write(reqs)] *)
Definition write (reqs : list request) : writeResult :=
  let w0 := mkWriteVars [] [] (entriesWritten manager) in
  match writeRequests reqs w0 with
  | (Returned w, reqs') =>
      let m1 := set_files (wal manager) (vlog manager) (wEntriesWritten w) in
      match writeLog (wal manager) (wWalBuf w) with
      | inl err =>
          mkWriteResult (Failed (Wrapf err "Error while writing log to WAL %d"))
            reqs' w m1
      | inr wal' =>
          let m2 := set_files wal' (vlog manager) (wEntriesWritten w) in
          match writeLog (vlog manager) (wVlogBuf w) with
          | inl err =>
              mkWriteResult (Failed (Wrapf err "Error while writing log to vlog %d"))
                reqs' w m2
          | inr vlog' =>
              mkWriteResult (Returned tt) reqs' w
                (set_files wal' vlog' (wEntriesWritten w))
          end
      end
  | (Failed err, reqs') =>
      mkWriteResult (Failed err) reqs' w0
        (set_files (wal manager) (vlog manager) (entriesWrittenAt reqs w0))
  | (Panicked msg, reqs') =>
      mkWriteResult (Panicked msg) reqs' w0
        (set_files (wal manager) (vlog manager) (entriesWrittenAt reqs w0))
  | (OutOfFuel, reqs') =>
      mkWriteResult OutOfFuel reqs' w0
        (set_files (wal manager) (vlog manager) (entriesWrittenAt reqs w0))
  end.

End Write.

Section Read.
Context {ME : ManagerEnv}.

Definition lockCount (lm : logManager) (f : Z) : nat :=
  default 0%nat (rlocks lm !! f).

Definition set_rlocks (lm : logManager) (l : gmap Z nat) : logManager :=
  mkManager (mOpt lm) (wal lm) (vlog lm) (entriesWritten lm) (maxWalID lm)
    (maxVlogID lm) (vlogFileMap lm) l.

(** [getFileRLocked]: the file of the map, with its lock read-locked. *)
Definition getFileRLocked (lm : logManager) (f : Z)
  : error + (logFile * logManager) :=
  match vlogFileMap lm !! f with
  | None => inl ErrRetry
  | Some ret =>
      inr (ret, set_rlocks lm (<[f := S (lockCount lm f)]> (rlocks lm)))
  end.

(** [readValueBytes] *)
Definition readValueBytes (lm : logManager) (vp : valuePointer)
  : option (list byte) * option logFile * option error * logManager :=
  match getFileRLocked lm (Fid vp) with
  | inl err => (None, None, Some err, lm)
  | inr (lf, lm') =>
      match lf_read lf vp with
      | inl err => (None, Some lf, Some err, lm')
      | inr buf => (Some buf, Some lf, None, lm')
      end
  end.

(** [getUnlockCallback]: the callback is named by the id of the file
    whose read lock it releases. *)
Definition getUnlockCallback (lm : logManager) (lf : option logFile)
  : option Z * logManager :=
  match lf with
  | None => (None, lm)
  | Some f =>
      match ValueLogLoadingMode (mOpt lm) with
      | MemoryMap => (Some (fid f), lm)
      | FileIO =>
          (None, set_rlocks lm (<[fid f := pred (lockCount lm (fid f))]> (rlocks lm)))
      end
  end.

(** [(lm *logManager) Read(vp, s)]: the value, the unlock callback and
    the manager with its lock counts.  The two slice expressions panic
    when their bounds are out of range; the model takes the slices to
    have no capacity beyond their length, so a key and a value that do
    not fit the bytes read are out of range. *)
Definition Read (lm : logManager) (vp : valuePointer)
  : outcome (list byte) * option Z * logManager :=
  let maxFid := maxVlogID lm in
  if (Fid vp =? maxFid) && (Offset vp >=? fileOffset (vlog lm)) then
    (Failed (InvalidPointer (Offset vp) (fileOffset (vlog lm))), None, lm)
  else
    let '(buf, lf, err, lm1) := readValueBytes lm vp in
    let '(cb, lm2) := getUnlockCallback lm1 lf in
    match err, buf, lf with
    | Some e, _, _ => (Failed e, cb, lm2)
    | None, Some buf, Some lf =>
        let '(h, headerLen) := header_Decode buf in
        if (headerLen <? 0) || (Z.of_nat (length buf) <? headerLen) then
          (Panicked "slice bounds out of range", cb, lm2)
        else
          let kv := drop (Z.to_nat headerLen) buf in
          let decrypted :=
            if encryptionEnabled lf then decryptKV lf kv (Offset vp) else inr kv in
          match decrypted with
          | inl e => (Failed e, cb, lm2)
          | inr kv =>
              if (klen h <? 0) || (vlen h <? 0)
                 || (Z.of_nat (length kv) <? klen h + vlen h) then
                (Panicked "slice bounds out of range", cb, lm2)
              else
                (Returned (take (Z.to_nat (vlen h)) (drop (Z.to_nat (klen h)) kv)),
                 cb, lm2)
          end
    | None, _, _ => (Panicked "nil pointer dereference", cb, lm2)
    end.

End Read.

(** ** The key registry *)

(** [pb.DataKey] *)
Record DataKey : Type := mkDataKey {
  KeyID : Z;
  Data : list byte;
  IV : list byte;
  CreatedAt : Z
}.

Definition set_Data (k : DataKey) (d : list byte) : DataKey :=
  mkDataKey (KeyID k) d (IV k) (CreatedAt k).

(** The helpers of the registry that live in the packages [y] and [pb]:
    the AES stream cipher [y.XORBlock(key, iv, data)], the protobuf codec
    of a data key and the Castagnoli checksum. *)
Class RegistryEnv : Type := {
  XORBlock : list byte -> list byte -> list byte -> error + list byte;
  Marshal : DataKey -> error + list byte;
  Unmarshal : list byte -> error + DataKey;
  crc32_Checksum : list byte -> Z
}.

(** A registry file: its bytes, and the bytes that the last [fsync] made
    durable.  Writes go to the end of the file, where both writers of the
    source have their descriptor positioned. *)
Record regFile : Type := mkRegFile {
  rf_bytes : list byte;
  rf_synced : list byte
}.

(** Modelled from the spec: an open descriptor of a registry file, as
    [y.OpenExistingFile(path, flags)] and [y.OpenTruncFile] hand it out:
    the file, and whether it was opened with [y.ReadOnly] ("read_only -
    disables writes, deletions, rotation").  The descriptor of
    [y.OpenTruncFile] is writable. *)
Record regFd : Type := mkRegFd {
  fd_file : regFile;
  fd_readOnly : bool
}.

(** The two registry files of the directory, [KEYREGISTRY] and
    [REWRITE-KEYREGISTRY]. *)
Record regDir : Type := mkRegDir {
  dKeyRegistry : option regFile;
  dRewrite : option regFile
}.

Record KeyRegistry : Type := mkKeyRegistry {
  dataKeys : gmap Z DataKey;
  lastCreated : Z;
  nextKeyID : Z;
  storageKey : list byte;
  fp : option regFd
}.

Definition RotationPeriod : Z := 10.
Definition aes_BlockSize : Z := 16.

Definition sanityText : list byte := list_byte_of_string "!Badger!Registry!".

Definition newKeyRegistry (sk : list byte) : KeyRegistry :=
  mkKeyRegistry ∅ 0 0 sk None.

(** Modelled from the spec: [y.ReadAt(fp, offset, n)] reads the fields of
    the registry file, "[0..16) registry_iv", the sanity text and the
    "[len:u32][crc32c:u32][marshaled DataKey of length len]" records: it
    returns exactly [n] bytes from [offset], or the error of a short
    read. *)
Definition ReadAt (bytes : list byte) (pos n : Z) : error + list byte :=
  if Z.of_nat (length bytes) <? pos + n then inl io_EOF
  else inr (take (Z.to_nat n) (drop (Z.to_nat pos) bytes)).

(** The error of a write through a descriptor that was opened read-only:
    [EBADF], bad file descriptor. *)
Definition os_EBADF : error := errFault 9.

(** [fp.Write(b)] on a descriptor that may be nil.  A descriptor that
    was opened read-only refuses the write; on a writable one the bytes
    go to the end of the file (failures of the device are outside the
    model). *)
Definition fp_Write (f : option regFd) (b : list byte) : error + regFd :=
  match f with
  | None => inl os_ErrInvalid
  | Some fd =>
      if fd_readOnly fd then inl os_EBADF
      else
        inr (mkRegFd (mkRegFile (rf_bytes (fd_file fd) ++ b)
                        (rf_synced (fd_file fd)))
               (fd_readOnly fd))
  end.

(** [y.FileSync(fp)] *)
Definition FileSync (fd : regFd) : regFd :=
  mkRegFd (mkRegFile (rf_bytes (fd_file fd)) (rf_bytes (fd_file fd)))
    (fd_readOnly fd).

Section Registry.
Context {GE : RegistryEnv}.

(** The eight bytes that precede a marshalled key: its length and its
    checksum, both big-endian. *)
Definition lenCrcBuf (data : list byte) : list byte :=
  Wire.PutUint32 (Wire.wrap32 (Z.of_nat (length data)))
  ++ Wire.PutUint32 (crc32_Checksum data).

(** [storeDataKey(fp, storageKey, k, sync)].  [k] is a pointer: the
    encrypted material is stored back into the caller's key, which is
    returned next to the file. *)
Definition storeDataKey (f : option regFd) (sk : list byte) (k : DataKey)
    (sync : bool) : option error * option regFd * DataKey :=
  let enc :=
    if (0 <? length sk)%nat then
      match XORBlock sk (IV k) (Data k) with
      | inl err => inl (err, set_Data k [])
      | inr d => inr (set_Data k d)
      end
    else inr k in
  match enc with
  | inl (err, k') => (Some err, f, k')
  | inr k' =>
      match Marshal k' with
      | inl err => (Some err, f, k')
      | inr data =>
          match fp_Write f (lenCrcBuf data) with
          | inl err => (Some err, f, k')
          | inr f1 =>
              match fp_Write (Some f1) data with
              | inl err => (Some err, Some f1, k')
              | inr f2 =>
                  if sync then (None, Some (FileSync f2), k')
                  else (None, Some f2, k')
              end
          end
      end
  end.

(** The loop of [buildKeyRegistry], lines 109-146.  Every turn consumes
    at least the eight bytes of a length and a checksum. *)
Fixpoint buildLoop (fuel : nat) (bytes : list byte) (sk : list byte)
    (readPos : Z) (kr : KeyRegistry) : outcome KeyRegistry :=
  match fuel with
  | O => OutOfFuel
  | S fuel' =>
      if readPos =? Z.of_nat (length bytes) then Returned kr
      else
        match ReadAt bytes readPos 8 with
        | inl err => Failed err
        | inr lenCrcBuf =>
            let readPos := readPos + 8 in
            let l := Wire.Uint32 (take 4 lenCrcBuf) in
            match ReadAt bytes readPos l with
            | inl err => Failed err
            | inr data =>
                if negb (crc32_Checksum data =? Wire.Uint32 (drop 4 lenCrcBuf))
                then Failed errBadChecksum
                else
                  match Unmarshal data with
                  | inl err => Failed err
                  | inr dataKey =>
                      let dec :=
                        if (0 <? length sk)%nat then
                          match XORBlock sk (IV dataKey) (Data dataKey) with
                          | inl err => inl err
                          | inr d => inr (set_Data dataKey d)
                          end
                        else inr dataKey in
                      match dec with
                      | inl err => Failed err
                      | inr dataKey =>
                          let next :=
                            if KeyID dataKey >? nextKeyID kr
                            then KeyID dataKey else nextKeyID kr in
                          let last :=
                            if CreatedAt dataKey >? lastCreated kr
                            then CreatedAt dataKey else lastCreated kr in
                          buildLoop fuel' bytes sk (readPos + l)
                            (mkKeyRegistry (<[next := dataKey]> (dataKeys kr))
                               last next (storageKey kr) (fp kr))
                      end
                  end
            end
        end
  end.

(** [buildKeyRegistry(fp, storageKey)] *)
Definition buildKeyRegistry (f : regFd) (sk : list byte)
  : outcome KeyRegistry :=
  let bytes := rf_bytes (fd_file f) in
  match ReadAt bytes 0 aes_BlockSize with
  | inl err => Failed err
  | inr iv =>
      match ReadAt bytes aes_BlockSize (Z.of_nat (length sanityText)) with
      | inl err => Failed err
      | inr eSanityText =>
          let plain :=
            if (0 <? length sk)%nat then XORBlock sk iv eSanityText
            else inr eSanityText in
          match plain with
          | inl err => Failed err
          | inr eSanityText =>
              if negb (bool_decide (eSanityText = sanityText))
              then Failed ErrEncryptionKeyMismatch
              else
                match buildLoop (S (length bytes)) bytes sk
                        (aes_BlockSize + Z.of_nat (length sanityText))
                        (newKeyRegistry sk) with
                | Returned kr =>
                    Returned (mkKeyRegistry (dataKeys kr) (lastCreated kr)
                                (nextKeyID kr) (storageKey kr) (Some f))
                | bad => bad
                end
          end
      end
  end.

(** The loop [for _, k := range reg.dataKeys] of [RewriteRegistry].  The
    list [order] is the order in which one run of [range] visits the
    keys of the map; the keys stored are pointers, so the map ends up
    holding what [storeDataKey] left in them. *)
Fixpoint storeAll (order : list Z) (f : option regFd) (sk : list byte)
    (keys : gmap Z DataKey) : option error * option regFd * gmap Z DataKey :=
  match order with
  | [] => (None, f, keys)
  | id :: rest =>
      match keys !! id with
      | None => storeAll rest f sk keys
      | Some k =>
          match storeDataKey f sk k false with
          | (Some err, f', k') => (Some err, f', <[id := k']> keys)
          | (None, f', k') => storeAll rest f' sk (<[id := k']> keys)
          end
      end
  end.

Definition set_dataKeys (reg : KeyRegistry) (keys : gmap Z DataKey) : KeyRegistry :=
  mkKeyRegistry keys (lastCreated reg) (nextKeyID reg) (storageKey reg) (fp reg).

(** [RewriteRegistry(dir, reg, storageKey)].  [genIV] is the result of
    [y.GenereateIV()].  The rewrite file is written through the writable
    descriptor of [y.OpenTruncFile]. *)
Definition RewriteRegistry (dir : regDir) (reg : KeyRegistry) (sk : list byte)
    (genIV : error + list byte) (order : list Z)
  : option error * regDir * KeyRegistry :=
  let empty := mkRegFile [] [] in
  let dir0 := mkRegDir (dKeyRegistry dir) (Some empty) in
  match genIV with
  | inl err => (Some err, dir0, reg)
  | inr iv =>
      let eSanity :=
        if (0 <? length sk)%nat then XORBlock sk iv sanityText
        else inr sanityText in
      match eSanity with
      | inl err => (Some err, dir0, reg)
      | inr eSanity =>
          let f := mkRegFd (mkRegFile (iv ++ eSanity) []) false in
          match storeAll order (Some f) sk (dataKeys reg) with
          | (Some err, f', keys) =>
              (Some err, mkRegDir (dKeyRegistry dir) (fd_file <$> f'),
               set_dataKeys reg keys)
          | (None, None, keys) =>
              (Some os_ErrInvalid, dir0, set_dataKeys reg keys)
          | (None, Some f', keys) =>
              (None, mkRegDir (Some (fd_file (FileSync f'))) None,
               set_dataKeys reg keys)
          end
      end
  end.

(** [OpenKeyRegistry(dir, readOnly, storageKey)].  Both calls of
    [y.OpenExistingFile] pass the flags that are computed from
    [readOnly]. *)
Definition OpenKeyRegistry (dir : regDir) (readOnly : bool) (sk : list byte)
    (genIV : error + list byte) : outcome KeyRegistry * regDir :=
  match dKeyRegistry dir with
  | Some f => (buildKeyRegistry (mkRegFd f readOnly) sk, dir)
  | None =>
      let kr := newKeyRegistry sk in
      if readOnly then (Returned kr, dir)
      else
        match RewriteRegistry dir kr sk genIV [] with
        | (Some err, dir', _) => (Failed err, dir')
        | (None, dir', _) =>
            match dKeyRegistry dir' with
            | None => (Failed os_ErrNotExist, dir')
            | Some f => (buildKeyRegistry (mkRegFd f readOnly) sk, dir')
            end
        end
  end.

(** [(kr *KeyRegistry) dataKey(id)] *)
Definition dataKey (kr : KeyRegistry) (id : Z) : error + option DataKey :=
  if id =? 0 then inr None
  else
    match dataKeys kr !! id with
    | None => inl ErrInvalidDataKeyID
    | Some dk => inr (Some dk)
    end.

Definition nsPerHour : Z := 3600 * 10 ^ 9.

(** The seconds between the first of January of the year 1 and the Unix
    epoch: the constant [unixToInternal] of the package [time]. *)
Definition unixToInternal : Z := 62135596800.

(** The second that [time.Unix(sec, 0)] denotes, counted from the Unix
    epoch.  The time is kept as [sec + unixToInternal] in an [int64],
    which wraps for [sec] near the ends of the range. *)
Definition time_Unix (sec : Z) : Z :=
  (sec + unixToInternal + 2 ^ 63) mod 2 ^ 64 - 2 ^ 63 - unixToInternal.

(** [time.Since(time.Unix(last, 0))] read at the instant [nowNs], in
    nanoseconds from the Unix epoch: a [Duration], that is a signed 64
    bit count of nanoseconds; [Sub] saturates when the difference does
    not fit. *)
Definition time_Since (nowNs last : Z) : Z :=
  Z.max Wire.minInt64
    (Z.min Wire.maxInt64 (nowNs - time_Unix last * 10 ^ 9)).

(** [diff.Hours()/24 < RotationPeriod].  [Hours] is a float: whole hours
    plus the remaining nanoseconds over [3.6e12].  Below 240 hours the
    sum stays at least [2e-13] under 240, far more than one unit in the
    last place, and from 240 hours on it is at least 240; so the test is
    the comparison of the nanosecond counts. *)
Definition withinRotation (diff : Z) : bool :=
  diff <? RotationPeriod * 24 * nsPerHour.

(** [rand.Read(k)] fills the [n] bytes of [k] from the generator. *)
Definition rand_Read (src : nat -> byte) (n : nat) : list byte :=
  map src (seq 0 n).

(** [(kr *KeyRegistry) getDataKey()].  [nowNs] is the clock read by
    [time.Since], [nowUnix] the one read by [time.Now().Unix()], [genIV]
    the result of [y.GenereateIV()] and [src] the random generator. *)
Definition getDataKey (kr : KeyRegistry) (nowNs nowUnix : Z)
    (genIV : error + list byte) (src : nat -> byte)
  : outcome (option DataKey) * KeyRegistry :=
  if (length (storageKey kr) =? 0)%nat then (Returned None, kr)
  else
    let diff := time_Since nowNs (lastCreated kr) in
    if withinRotation diff then (Returned (dataKeys kr !! nextKeyID kr), kr)
    else
      let next := Wire.wrap64 (nextKeyID kr + 1) in
      let kr1 := mkKeyRegistry (dataKeys kr) (lastCreated kr) next
                   (storageKey kr) (fp kr) in
      let k := rand_Read src (length (storageKey kr)) in
      match genIV with
      | inl err => (Failed err, kr1)
      | inr iv =>
          let dk := mkDataKey next k iv nowUnix in
          match storeDataKey (fp kr) (storageKey kr) dk true with
          | (Some err, f', _) =>
              (Failed err,
               mkKeyRegistry (dataKeys kr) (lastCreated kr) next (storageKey kr) f')
          | (None, f', dk') =>
              let dk'' := set_Data dk' k in
              (Returned (Some dk''),
               mkKeyRegistry (<[next := dk'']> (dataKeys kr)) (CreatedAt dk'')
                 next (storageKey kr) f')
          end
      end.



(** A key as the registry file holds it: [c] is the material that is
    stored, which is the material of [k] passed through the cipher when
    there is a storage key, and [d] is the marshalled key.  The cipher
    undoes itself on [c], the codec reads [d] back, and the length and
    the checksum of [d] fit their four bytes. *)
Definition storedAs (sk : list byte) (k : DataKey) (c d : list byte) : Prop :=
  (if (0 <? length sk)%nat
   then XORBlock sk (IV k) (Data k) = inr c /\ XORBlock sk (IV k) c = inr (Data k)
   else c = Data k)
  /\ Marshal (set_Data k c) = inr d
  /\ Unmarshal d = inr (set_Data k c)
  /\ Z.of_nat (length d) < 2 ^ 32
  /\ 0 <= crc32_Checksum d < 2 ^ 32.

(** The sanity text as the registry file holds it under the IV [iv]. *)
Definition sanityAs (sk iv e : list byte) : Prop :=
  if (0 <? length sk)%nat
  then XORBlock sk iv sanityText = inr e /\ XORBlock sk iv e = inr sanityText
       /\ length e = length sanityText
  else e = sanityText.

(** The keys of a registry in the order in which [RewriteRegistry] visits
    them, each with its stored material and its marshalled form. *)
Definition item : Type := (DataKey * list byte * list byte)%type.
Definition itemKey (it : item) : DataKey := fst (fst it).
Definition itemId (it : item) : Z := KeyID (itemKey it).
Definition itemFrame (it : item) : list byte := lenCrcBuf (snd it) ++ snd it.
Definition itemOk (sk : list byte) (it : item) : Prop :=
  storedAs sk (itemKey it) (snd (fst it)) (snd it).
Definition insertKey (m : gmap Z DataKey) (it : item) : gmap Z DataKey :=
  <[itemId it := itemKey it]> m.

End Registry.

(** ** Measures of the replay loop *)

(** How many ids the two indices of [replay] can still advance over; both
    index into [walIDs]. *)
Definition idsLeft (lp : logReplayer) (st : replayVars) : nat :=
  ((length (walIDs lp) - currentWalIndex st)
   + (length (walIDs lp) - currentVlogIndex st))%nat.

(** The records ahead of the WAL iterator, counted twice, plus one while
    neither batch holds an error. *)
Definition batchesLeft (st : replayVars) : nat :=
  (2 * length (pending (walIterator st))
   + (if bool_decide (walErr st = None /\ vlogErr st = None) then 1 else 0))%nat.

(** The trace holds no call of the callback that the callback rejected. *)
Definition allAccepted (replayFn : logEntry) (tr : list event) : Prop :=
  forall (e : Entry) (vp : valuePointer),
    EvReplayFn e vp ∈ tr -> replayFn e vp = None.

(** What [bootstrap] leaves of a file. *)
Definition bootstrapped (f : diskFile) : diskFile :=
  mkDiskFile (Z.max (f_size f) vlogHeaderSize) vlogHeaderSize (f_stream f)
    (f_removable f).

(** What a state or a result says about the callback: every call so far
    was accepted, or the last event is the call that was rejected and
    the replay failed with its error. *)
Definition callbackOk (replayFn : logEntry) (tr : list event)
    (o : outcome unit) : Prop :=
  allAccepted replayFn tr
  \/ exists (tr0 : list event) (e : Entry) (vp : valuePointer) (err : error),
       tr = tr0 ++ [EvReplayFn e vp] /\ allAccepted replayFn tr0
       /\ replayFn e vp = Some err
       /\ o = Failed (Wrapf err "Error while inserting entry to lsm.").

(** ** What [write] owes each entry *)

(** The pointers that [write] appends for one entry ahead of the end
    markers: an empty one first when the entry is marked [skipVlog], then
    the pointer [p] of the entry itself. *)
Definition pointersOf (e : Entry) (p : valuePointer) : list valuePointer :=
  (if skipVlog e then [emptyPointer] else []) ++ [p].

(** How many entries of a list are marked [skipVlog]. *)
Definition skipCount (es : list Entry) : nat :=
  length (filter (fun e => skipVlog e = true) es).

(** What [write] promises about the pointer [p] of the entry [e] once the
    vlog buffer [vlogBuf] is complete: an entry that goes to the WAL has
    the empty pointer; an entry that goes to the vlog has a pointer into
    the active vlog file whose offset and length delimit, in the buffer
    that is appended at the file offset, the bytes that [encode]
    produced for the entry at that offset. *)
Definition pointsTo {ME : ManagerEnv} (m : logManager) (vlogBuf : list byte)
    (e : Entry) (p : valuePointer) : Prop :=
  if shouldWriteValueToLSM e then p = emptyPointer
  else
    Fid p = fid (vlog m)
    /\ fileOffset (vlog m) <= Offset p
    /\ exists bytes : list byte,
         encode (vlog m) e (Offset p) = inr bytes
         /\ Len p = Z.of_nat (length bytes)
         /\ take (length bytes)
              (drop (Z.to_nat (Offset p - fileOffset (vlog m))) vlogBuf)
            = bytes.

(** ** What opening a registry file does with the keys it reads *)

(** One turn of the loop of [buildKeyRegistry] on the key [k] it has read
    and decrypted: the largest id and the latest creation time are kept
    up to date and the key is stored under the largest id. *)
Definition absorb (kr : KeyRegistry) (k : DataKey) : KeyRegistry :=
  let next := if KeyID k >? nextKeyID kr then KeyID k else nextKeyID kr in
  let last := if CreatedAt k >? lastCreated kr then CreatedAt k
              else lastCreated kr in
  mkKeyRegistry (<[next := k]> (dataKeys kr)) last next (storageKey kr) (fp kr).

Definition set_fp (kr : KeyRegistry) (f : option regFd) : KeyRegistry :=
  mkKeyRegistry (dataKeys kr) (lastCreated kr) (nextKeyID kr) (storageKey kr) f.

(** ** A small world to run the model in

    One instance of each class and a few files, used by the worked
    examples that accompany the general statements.  The codecs here are
    stand-ins chosen to be simple: nothing is proved about the real ones
    through them. *)

Module Sample.

(** Keys end in their commit timestamp, eight bytes big-endian. *)
Definition sampleParseTs (key : list byte) : Z :=
  if (length key <=? 8)%nat then 0
  else Wire.Uint64 (drop (length key - 8) key).

Definition recordEnv : RecordEnv :=
  {| bitTxn := 64; bitFinTxn := 128; ParseTs := sampleParseTs |}.

Definition bytesOf (s : string) : list byte := list_byte_of_string s.

Definition tsKey (name : string) (ts : Z) : list byte :=
  bytesOf name ++ Wire.PutUint64 ts.

(** An entry of the transaction [ts], before the reader stamps it. *)
Definition txnEntry (name : string) (value : string) (ts : Z) : Entry :=
  mkEntry (tsKey name ts) (bytesOf value) 0 0 64 0 false 3.

(** The end marker of a transaction with a one digit timestamp. *)
Definition finEntry (ts : Z) : Entry :=
  mkEntry (tsKey "fin" ts) [Wire.byte_of_Z (48 + ts)] 0 0 128 0 false 3.

(** An entry that is neither part of a transaction nor an end marker. *)
Definition plainEntry (name : string) (value : string) : Entry :=
  mkEntry (tsKey name 9) (bytesOf value) 0 0 0 0 false 3.

Definition batch (name : string) (value : string) (ts : Z) : list Entry :=
  [txnEntry name value ts; finEntry ts].

Fixpoint recordsFrom (pos : Z) (o : Z) (rs : list Entry) : list Entry :=
  match rs with
  | [] => []
  | r :: rest =>
      if pos <? o then recordsFrom (pos + entryLen r) o rest else rs
  end.

Definition sizeOf (rs : list Entry) : Z :=
  fold_left (fun acc r => acc + entryLen r) rs vlogHeaderSize.

(** A well formed file that holds the records [rs] after its header. *)
Definition fileOf (rs : list Entry) : diskFile :=
  mkDiskFile (sizeOf rs) (sizeOf rs)
    (fun o => (recordsFrom vlogHeaderSize o rs, io_EOF)) true.

Definition options : Options := mkOptions false false FileIO.

Definition acceptAll : logEntry := fun _ _ => None.

(** The directory of the first example: WAL files 1, 2 and 3 and one
    vlog file. *)
Definition threeWals : disk :=
  {[ walFilePath 1 := fileOf (batch "a" "1" 1);
     walFilePath 2 := fileOf (batch "b" "2" 2);
     walFilePath 3 := fileOf (batch "c" "3" 3);
     vlogFilePath 1 := fileOf (batch "a" "large1" 1) ]}.

(** One WAL file and one vlog file that carry the same three
    transactions. *)
Definition lockstep : disk :=
  {[ walFilePath 1 :=
       fileOf (batch "a" "1" 1 ++ batch "b" "2" 2 ++ batch "c" "3" 3);
     vlogFilePath 1 :=
       fileOf (batch "a" "large1" 1 ++ batch "b" "large2" 2
               ++ batch "c" "large3" 3) ]}.

Definition lockstepReplayer : logReplayer :=
  mkReplayer [1] [1] (mkVP 0 0 0) options.

(** WAL files 5 and 6, vlog files 1 and 2; the first vlog file ends
    cleanly after its only transaction. *)
Definition twoFamilies : disk :=
  {[ walFilePath 5 := fileOf (batch "a" "1" 1 ++ batch "b" "2" 2);
     walFilePath 6 := fileOf (batch "c" "3" 3);
     vlogFilePath 1 := fileOf (batch "a" "large1" 1);
     vlogFilePath 2 := fileOf (batch "b" "large2" 2) ]}.

Definition twoFamiliesReplayer : logReplayer :=
  mkReplayer [5; 6] [1; 2] (mkVP 0 0 0) options.

(** A WAL and a vlog that hold the same single transaction and nothing
    else. *)
Definition matched : disk :=
  {[ walFilePath 1 := fileOf (batch "a" "1" 1);
     vlogFilePath 1 := fileOf (batch "a" "large1" 1) ]}.

(** A WAL and a vlog whose first transactions differ. *)
Definition diverged : disk :=
  {[ walFilePath 1 := fileOf (batch "a" "1" 1);
     vlogFilePath 1 := fileOf (batch "a" "large1" 2) ]}.

(** The value threshold of the sample database is four bytes. *)
Definition managerEnv : ManagerEnv :=
  {| shouldWriteValueToLSM := fun e => (length (Value e) <? 4)%nat;
     encode := fun _ e _ => inr (Key e ++ Value e ++ Wire.PutUint32 0);
     writeLog := fun lf buf =>
       inr (mkLogFile (fid lf) (path lf)
              (Wire.wrap32 (lf_offset lf + Z.of_nat (length buf))) (fd_open lf));
     lf_read := fun _ _ => inl io_EOF;
     header_Decode := fun _ => (mkHeader 0 0, 0);
     encryptionEnabled := fun _ => false;
     decryptKV := fun _ kv _ => inr kv |}.

Definition manager : logManager :=
  mkManager options
    (mkLogFile 1 (walFilePath 1) 20 true)
    (mkLogFile 1 (vlogFilePath 1) 100 true)
    0 1 1 {[ 1 := mkLogFile 1 (vlogFilePath 1) 100 true ]} ∅.

(** An entry marked [skipVlog] whose value is above the threshold. *)
Definition skipped : Entry :=
  mkEntry (tsKey "s" 7) (bytesOf "large") 0 0 64 0 true 3.

Definition skipRequest : request :=
  mkRequest [skipped; finEntry 7; finEntry 7] [].

End Sample.

(** A stand-in for the cipher, the protobuf codec and the checksum, and a
    few keys, for the worked examples of the registry. *)
Module SampleKeys.

Definition xorByte (a b : byte) : byte :=
  Wire.byte_of_Z (Z.lxor (Wire.Z_of_byte a) (Wire.Z_of_byte b)).

(** A key stream that repeats the key xor-ed with the IV; like AES it
    accepts keys of 16, 24 and 32 bytes only. *)
Definition sampleXORBlock (key iv data : list byte) : error + list byte :=
  if (length key =? 16)%nat || (length key =? 24)%nat || (length key =? 32)%nat
  then
    inr (imap (fun j b =>
                 xorByte b (xorByte (nth (j mod length key) key x00)
                              (nth (j mod 16) iv x00))) data)
  else inl (errFault 1).

Definition sampleBytes (k : DataKey) : list byte :=
  Wire.PutUint64 (KeyID k) ++ Wire.PutUint64 (CreatedAt k)
  ++ Wire.PutUint32 (Z.of_nat (length (Data k))) ++ Data k ++ IV k.

Definition sampleMarshal (k : DataKey) : error + list byte :=
  inr (sampleBytes k).

Definition sampleUnmarshal (b : list byte) : error + DataKey :=
  if (length b <? 20)%nat then inl (errFault 2)
  else
    let n := Z.to_nat (Wire.Uint32 (drop 16 b)) in
    inr (mkDataKey (Wire.Uint64 b) (take n (drop 20 b)) (drop (20 + n) b)
           (Wire.Uint64 (drop 8 b))).

Definition sampleChecksum (data : list byte) : Z :=
  fold_left (fun acc b => Wire.wrap32 (acc * 31 + Wire.Z_of_byte b)) data 7.

Definition registryEnv : RegistryEnv :=
  {| XORBlock := sampleXORBlock;
     Marshal := sampleMarshal;
     Unmarshal := sampleUnmarshal;
     crc32_Checksum := sampleChecksum |}.

Definition bytesOf (s : string) : list byte := list_byte_of_string s.

Definition sk16 : list byte := bytesOf "0123456789abcdef".
Definition iv16 : list byte := bytesOf "fedcba9876543210".
Definition iv16' : list byte := bytesOf "0f1e2d3c4b5a6978".

Definition key1 : DataKey := mkDataKey 1 (bytesOf "material-of-key1") iv16 1000.
Definition key2 : DataKey := mkDataKey 2 (bytesOf "material-of-key2") iv16' 2000.

(** An in-memory registry with two data keys. *)
Definition twoKeys (sk : list byte) : KeyRegistry :=
  mkKeyRegistry {[ 1 := key1; 2 := key2 ]} 2000 2 sk None.

Definition emptyDir : regDir := mkRegDir None None.


Definition hundredDaysNs : Z := 100 * 24 * 3600 * 10 ^ 9.
Definition hundredDaysUnix : Z := 100 * 24 * 3600.

Definition randomSource : nat -> byte := fun i => Wire.byte_of_Z (97 + Z.of_nat i).

(** A registry whose newest key, of id 2, was created at second 2000,
    and a clock one day later. *)
Definition opened (sk : list byte) : KeyRegistry :=
  mkKeyRegistry {[ 1 := key1; 2 := key2 ]} 2000 2 sk
    (Some (mkRegFd (mkRegFile [] []) false)).


(** A key with what the sample cipher and codec store for it. *)
Definition storedItem (sk : list byte) (k : DataKey) : item :=
  let c := match sampleXORBlock sk (IV k) (Data k) with
           | inr c => c
           | inl _ => Data k
           end in
  (k, c, sampleBytes (set_Data k c)).

Definition storedSanity (sk iv : list byte) : list byte :=
  match sampleXORBlock sk iv sanityText with
  | inr e => e
  | inl _ => sanityText
  end.

End SampleKeys.

(** ** More of the small world

    Three iterators, a vlog whose records can be read back, a registry that was opened
    from its file, and a WAL file that cannot be removed. *)

Module SampleMore.

(** An iterator in front of two transactions, and one in front of a
    transaction whose second entry carries another timestamp. *)
Definition twoBatches : logIterator :=
  mkIter (walFilePath 1) 20 0
    (Sample.batch "a" "1" 1 ++ Sample.batch "b" "2" 2) io_EOF.

Definition mixed : logIterator :=
  mkIter (walFilePath 1) 20 0
    [Sample.txnEntry "a" "1" 1; Sample.txnEntry "b" "2" 2] io_EOF.

(** An iterator in front of a transaction that has an entry without
    marks between its two entries, and of a second transaction. *)
Definition noisy : logIterator :=
  mkIter (walFilePath 1) 20 0
    ([Sample.txnEntry "a" "1" 1]
     ++ Sample.plainEntry "p" "v"
     :: [Sample.txnEntry "b" "2" 1]
     ++ Sample.finEntry 1 :: Sample.batch "c" "3" 2) io_EOF.

(** A record of the sample vlog: a header of two bytes, the length of
    the key and the length of the value, then the key, the value and a
    checksum. *)
Definition record : list byte :=
  [x03; x05] ++ Sample.bytesOf "key" ++ Sample.bytesOf "value"
  ++ Wire.PutUint32 0.

Definition readEnv : ManagerEnv :=
  {| shouldWriteValueToLSM := @shouldWriteValueToLSM Sample.managerEnv;
     encode := @encode Sample.managerEnv;
     writeLog := @writeLog Sample.managerEnv;
     lf_read := fun _ _ => inr record;
     header_Decode := fun buf =>
       (mkHeader (Wire.Z_of_byte (nth 0 buf x00))
          (Wire.Z_of_byte (nth 1 buf x00)), 2);
     encryptionEnabled := fun _ => false;
     decryptKV := fun _ kv _ => inr kv |}.

(** The sample manager with its vlog memory mapped. *)
Definition mapped : logManager :=
  mkManager (mkOptions false false MemoryMap)
    (wal Sample.manager) (vlog Sample.manager) 0 1 1
    (vlogFileMap Sample.manager) ∅.

(** A request of one large entry, one small entry and the end markers,
    and a request that lacks an end marker. *)
Definition twoEntries : request :=
  mkRequest [Sample.txnEntry "a" "large" 7; Sample.txnEntry "b" "1" 7;
             Sample.finEntry 7; Sample.finEntry 7] [].

Definition shortRequest : request := mkRequest [Sample.finEntry 7] [].

Definition readOnlyOptions : Options := mkOptions true false FileIO.

(** A directory whose WAL file 3 cannot be removed. *)
Definition lockedWal : disk :=
  {[ walFilePath 1 := Sample.fileOf (Sample.batch "a" "1" 1);
     walFilePath 3 :=
       mkDiskFile 20 20 (fun _ => ([], io_EOF)) false ]}.

(** The two sample keys as a registry file holds them under the storage
    key of 16 bytes, the larger id first. *)
Definition sanity16 : list byte :=
  SampleKeys.storedSanity SampleKeys.sk16 SampleKeys.iv16.

Definition items21 : list item :=
  [SampleKeys.storedItem SampleKeys.sk16 SampleKeys.key2;
   SampleKeys.storedItem SampleKeys.sk16 SampleKeys.key1].

Definition registryBytes : list byte :=
  SampleKeys.iv16 ++ sanity16
  ++ concat (@itemFrame SampleKeys.registryEnv <$> items21).

(** Another storage key, and what the sanity text of the file turns into
    under it. *)
Definition otherKey : list byte := SampleKeys.bytesOf "another-key-0123".

Definition garbled : list byte :=
  match SampleKeys.sampleXORBlock otherKey SampleKeys.iv16 sanity16 with
  | inr t => t
  | inl _ => []
  end.

(** The registry that was opened from that file. *)
Definition onDisk : KeyRegistry :=
  mkKeyRegistry {[ 1 := SampleKeys.key1; 2 := SampleKeys.key2 ]} 2000 2
    SampleKeys.sk16
    (Some (mkRegFd (mkRegFile registryBytes registryBytes) false)).

(** The key that a rotation makes one hundred days after the epoch. *)
Definition rotated : DataKey :=
  mkDataKey 3 (rand_Read SampleKeys.randomSource 16) SampleKeys.iv16
    SampleKeys.hundredDaysUnix.

End SampleMore.

(** * Properties *)

(** ** The iterator *)

Section IteratorFacts.
Context {RE : RecordEnv}.

Lemma entryLen_set_offset (e : Entry) (o : Z) :
  entryLen (set_offset e o) = entryLen e.
Proof. reflexivity. Qed.

(** Only entries that carry the transaction bit reach a batch. *)
Lemma iterateEntries_loop_batch_txn (ahead : list Entry) :
  forall (it : logIterator) (commitTs : Z) (entries : list Entry),
    Forall (fun e => (0 <? Z.land (meta e) bitTxn) = true) entries ->
    Forall (fun e => (0 <? Z.land (meta e) bitTxn) = true)
      (fst (fst (fst (iterateEntries_loop ahead it commitTs entries)))).
Proof.
  induction ahead as [|raw rest IH]; intros it commitTs entries Hacc.
  - simpl. constructor.
  - cbn [iterateEntries_loop].
    destruct (0 <? Z.land (meta (set_offset raw (recordOffset it))) bitTxn) eqn:Htxn.
    + destruct (negb _); [simpl; constructor|].
      apply IH. apply Forall_app. split; [exact Hacc|].
      constructor; [exact Htxn|constructor].
    + destruct (0 <? Z.land (meta (set_offset raw (recordOffset it))) bitFinTxn).
      * destruct (Wire.ParseUint _) as [txnTs|]; [|simpl; constructor].
        destruct (commitTs =? txnTs); simpl; [exact Hacc|constructor].
      * apply IH. exact Hacc.
Qed.

Lemma offsetPast_app (xs ys : list Entry) :
  forall o : Z, offsetPast o (xs ++ ys) = offsetPast (offsetPast o xs) ys.
Proof.
  induction xs as [|x xs IH]; intros o; [reflexivity|].
  cbn [app offsetPast]. apply IH.
Qed.

Lemma stampedTxn_app (xs ys : list Entry) :
  forall o : Z,
    stampedTxn o (xs ++ ys) = stampedTxn o xs ++ stampedTxn (offsetPast o xs) ys.
Proof.
  induction xs as [|x xs IH]; intros o; [reflexivity|].
  cbn [app stampedTxn offsetPast]. rewrite IH, <- app_assoc. reflexivity.
Qed.

(** The loop of [iterateEntries] over the records of one transaction:
    entries that carry the transaction bit and the timestamp [ts], with
    entries that carry neither mark anywhere between them, and then the
    end marker of [ts].  The batch is made of the marked entries, each
    with the offset it sits at; the commit timestamp is [ts]; and the
    record offset and the valid offset end up behind the marker, every
    record counted. *)
Lemma iterateEntries_loop_transaction (ts : Z) (finE : Entry)
    (tail body : list Entry) :
  forall (it : logIterator) (commitTs : Z) (entries : list Entry),
    Forall (fun e =>
              (0 <? Z.land (meta e) bitTxn) = true /\ ParseTs (Key e) = ts
              \/ (0 <? Z.land (meta e) bitTxn) = false
                 /\ (0 <? Z.land (meta e) bitFinTxn) = false) body ->
    ts <> 0 ->
    (commitTs = ts
     \/ commitTs = 0
        /\ Exists (fun e => (0 <? Z.land (meta e) bitTxn) = true) body) ->
    (0 <? Z.land (meta finE) bitTxn) = false ->
    (0 <? Z.land (meta finE) bitFinTxn) = true ->
    Wire.ParseUint (Value finE) = Some ts ->
    iterateEntries_loop (body ++ finE :: tail) it commitTs entries
    = ((entries ++ stampedTxn (recordOffset it) body, ts, None),
       mkIter (itPath it) (offsetPast (recordOffset it) (body ++ [finE]))
         (offsetPast (recordOffset it) (body ++ [finE])) tail (final it)).
Proof.
  induction body as [|e body IH];
    intros it commitTs entries Hbody Hts Hseed Hf1 Hf2 Hf3.
  - destruct Hseed as [->|[_ Hex]]; [|inversion Hex].
    cbn [app iterateEntries_loop stampedTxn offsetPast].
    change (meta (set_offset finE (recordOffset it))) with (meta finE).
    change (Value (set_offset finE (recordOffset it))) with (Value finE).
    rewrite Hf1, Hf2, Hf3, Z.eqb_refl, app_nil_r. reflexivity.
  - apply Forall_cons in Hbody as [He Hbody].
    cbn [app iterateEntries_loop stampedTxn offsetPast].
    change (meta (set_offset e (recordOffset it))) with (meta e).
    change (Key (set_offset e (recordOffset it))) with (Key e).
    destruct He as [[Htxn Hkey]|[Htxn Hfin]].
    + rewrite Htxn, Hkey.
      assert (Hc : (if commitTs =? 0 then ts else commitTs) = ts).
      { destruct Hseed as [->|[-> _]].
        - destruct (Z.eqb_spec ts 0); [contradiction|reflexivity].
        - reflexivity. }
      rewrite Hc, Z.eqb_refl. cbn [negb].
      rewrite (IH _ ts _ Hbody Hts (or_introl eq_refl) Hf1 Hf2 Hf3).
      cbn [recordOffset itPath final]. rewrite <- app_assoc. reflexivity.
    + rewrite Htxn, Hfin.
      rewrite (IH _ commitTs entries Hbody Hts).
      * cbn [recordOffset itPath final]. reflexivity.
      * destruct Hseed as [->|[-> Hex]]; [left; reflexivity|].
        right. split; [reflexivity|].
        apply Exists_cons in Hex as [Hhere|Hex]; [congruence|exact Hex].
      * exact Hf1.
      * exact Hf2.
      * exact Hf3.
Qed.

(** C9. An entry that [iterateEntries] decodes and whose [meta] has
    neither the transaction bit nor the end-of-transaction bit is
    dropped.  For a transaction of timestamp [ts] that has the entry in
    the middle of its marked entries, the call returns the marked
    entries alone, each with the offset it sits at, and the commit
    timestamp [ts], whatever timestamp the key of the dropped entry
    carries; the offsets of the entries behind it, the record offset
    and the valid offset count the length of the dropped entry.  The
    same records without the entry give the same batch up to these
    offsets, and the same commit timestamp.  In general the loop goes
    on behind such an entry with the batch and the commit timestamp it
    had, the record offset moved past the entry; and the entry,
    whatever offset it was stamped with, is in no batch that
    [iterateEntries] returns. *)
Theorem iterateEntries_drops_unmarked_entry
    (raw : Entry) (before after : list Entry) (finE : Entry)
    (tail : list Entry) (ts : Z) (it : logIterator) :
  (0 <? Z.land (meta raw) bitTxn) = false ->
  (0 <? Z.land (meta raw) bitFinTxn) = false ->
  Forall (fun e => (0 <? Z.land (meta e) bitTxn) = true /\ ParseTs (Key e) = ts)
    (before ++ after) ->
  before ++ after <> [] ->
  ts <> 0 ->
  (0 <? Z.land (meta finE) bitTxn) = false ->
  (0 <? Z.land (meta finE) bitFinTxn) = true ->
  Wire.ParseUint (Value finE) = Some ts ->
  pending it = before ++ raw :: after ++ finE :: tail ->
  let o := recordOffset it in
  let behind := Wire.wrap32 (offsetPast o before + entryLen raw) in
  let stop := Wire.wrap32 (offsetPast behind after + entryLen finE) in
  let stop' := Wire.wrap32 (offsetPast (offsetPast o before) after
                            + entryLen finE) in
  iterateEntries it
  = ((stampedTxn o before ++ stampedTxn behind after, ts, None),
     mkIter (itPath it) stop stop tail (final it))
  /\ iterateEntries
       (mkIter (itPath it) o (validOffset it)
          (before ++ after ++ finE :: tail) (final it))
     = ((stampedTxn o before ++ stampedTxn (offsetPast o before) after, ts, None),
        mkIter (itPath it) stop' stop' tail (final it))
  /\ (forall (rest : list Entry) (it0 : logIterator) (commitTs : Z)
             (entries : list Entry),
        iterateEntries_loop (raw :: rest) it0 commitTs entries
        = iterateEntries_loop rest
            (mkIter (itPath it0) (Wire.wrap32 (recordOffset it0 + entryLen raw))
               (validOffset it0) rest (final it0))
            commitTs entries)
  /\ forall (it0 : logIterator) (o0 : Z),
       set_offset raw o0 ∉ fst (fst (fst (iterateEntries it0))).
Proof.
  intros Htxn Hfin Hall Hne Hts Hf1 Hf2 Hf3 Hpending o behind stop stop'.
  assert (Hex : Exists (fun e => (0 <? Z.land (meta e) bitTxn) = true)
                  (before ++ after)).
  { destruct (before ++ after) as [|e l]; [contradiction|].
    apply Exists_cons_hd. apply Forall_cons in Hall as [[He _] _]. exact He. }
  apply Forall_app in Hall as [Hbefore Hafter].
  assert (Hmixed : forall l,
             Forall (fun e => (0 <? Z.land (meta e) bitTxn) = true
                              /\ ParseTs (Key e) = ts) l ->
             Forall (fun e =>
                       (0 <? Z.land (meta e) bitTxn) = true /\ ParseTs (Key e) = ts
                       \/ (0 <? Z.land (meta e) bitTxn) = false
                          /\ (0 <? Z.land (meta e) bitFinTxn) = false) l).
  { intros l Hl. eapply Forall_impl; [exact Hl|]. intros e He. left. exact He. }
  split; [|split; [|split]].
  - unfold iterateEntries. rewrite Hpending.
    replace (before ++ raw :: after ++ finE :: tail)
      with ((before ++ raw :: after) ++ finE :: tail)
      by (rewrite <- app_assoc; reflexivity).
    rewrite (iterateEntries_loop_transaction ts finE tail (before ++ raw :: after)
               it 0 []).
    + fold o. rewrite stampedTxn_app. cbn [stampedTxn]. rewrite Htxn.
      rewrite !offsetPast_app. cbn [offsetPast app]. reflexivity.
    + apply Forall_app. split; [apply Hmixed; exact Hbefore|].
      apply Forall_cons. split; [right; split; assumption|].
      apply Hmixed. exact Hafter.
    + exact Hts.
    + right. split; [reflexivity|].
      apply Exists_app in Hex as [Hex|Hex]; apply Exists_app;
        [left; exact Hex|right; apply Exists_cons_tl; exact Hex].
    + exact Hf1.
    + exact Hf2.
    + exact Hf3.
  - unfold iterateEntries. cbn [pending].
    replace (before ++ after ++ finE :: tail)
      with ((before ++ after) ++ finE :: tail)
      by (rewrite <- app_assoc; reflexivity).
    rewrite (iterateEntries_loop_transaction ts finE tail (before ++ after)
               _ 0 []).
    + cbn [recordOffset itPath final]. rewrite stampedTxn_app.
      rewrite !offsetPast_app. cbn [offsetPast app]. reflexivity.
    + apply Hmixed. apply Forall_app. split; assumption.
    + exact Hts.
    + right. split; [reflexivity|exact Hex].
    + exact Hf1.
    + exact Hf2.
    + exact Hf3.
  - intros rest it0 commitTs entries. cbn [iterateEntries_loop].
    change (meta (set_offset raw (recordOffset it0))) with (meta raw).
    rewrite Htxn, Hfin. reflexivity.
  - intros it0 o0 Hin.
    pose proof (iterateEntries_loop_batch_txn (pending it0) it0 0 []
                  (Forall_nil_2 _)) as Hbatch.
    rewrite Forall_forall in Hbatch.
    specialize (Hbatch _ Hin). simpl in Hbatch. congruence.
Qed.

End IteratorFacts.

Lemma iterateEntries_drops_unmarked_entry_witness :
  (0 <? Z.land (meta (Sample.plainEntry "p" "v")) 64) = false
  /\ (0 <? Z.land (meta (Sample.plainEntry "p" "v")) 128) = false
  /\ Forall (fun e => (0 <? Z.land (meta e) 64) = true
                      /\ Sample.sampleParseTs (Key e) = 1)
       ([Sample.txnEntry "a" "1" 1] ++ [Sample.txnEntry "b" "2" 1])
  /\ [Sample.txnEntry "a" "1" 1] ++ [Sample.txnEntry "b" "2" 1] <> []
  /\ 1 <> 0
  /\ (0 <? Z.land (meta (Sample.finEntry 1)) 64) = false
  /\ (0 <? Z.land (meta (Sample.finEntry 1)) 128) = true
  /\ Wire.ParseUint (Value (Sample.finEntry 1)) = Some 1
  /\ pending SampleMore.noisy
     = [Sample.txnEntry "a" "1" 1]
       ++ Sample.plainEntry "p" "v"
       :: [Sample.txnEntry "b" "2" 1]
       ++ Sample.finEntry 1 :: Sample.batch "c" "3" 2
  /\ @iterateEntries Sample.recordEnv SampleMore.noisy
     = (([set_offset (Sample.txnEntry "a" "1" 1) 20;
          set_offset (Sample.txnEntry "b" "2" 1) 54], 1, None),
        mkIter (walFilePath 1) 90 90 (Sample.batch "c" "3" 2) io_EOF)
  /\ @iterateEntries Sample.recordEnv
       (mkIter (walFilePath 1) 20 0
          ([Sample.txnEntry "a" "1" 1] ++ [Sample.txnEntry "b" "2" 1]
           ++ Sample.finEntry 1 :: Sample.batch "c" "3" 2) io_EOF)
     = (([set_offset (Sample.txnEntry "a" "1" 1) 20;
          set_offset (Sample.txnEntry "b" "2" 1) 37], 1, None),
        mkIter (walFilePath 1) 73 73 (Sample.batch "c" "3" 2) io_EOF)
  /\ forall (it0 : logIterator) (o0 : Z),
       set_offset (Sample.plainEntry "p" "v") o0
       ∉ fst (fst (fst (@iterateEntries Sample.recordEnv it0))).
Proof.
  assert (H3 : Forall (fun e => (0 <? Z.land (meta e) 64) = true
                                /\ Sample.sampleParseTs (Key e) = 1)
                 ([Sample.txnEntry "a" "1" 1] ++ [Sample.txnEntry "b" "2" 1]))
    by (repeat constructor).
  assert (H4 : [Sample.txnEntry "a" "1" 1] ++ [Sample.txnEntry "b" "2" 1] <> [])
    by discriminate.
  assert (H5 : 1 <> 0) by discriminate.
  pose proof (@iterateEntries_drops_unmarked_entry Sample.recordEnv
                (Sample.plainEntry "p" "v") [Sample.txnEntry "a" "1" 1]
                [Sample.txnEntry "b" "2" 1] (Sample.finEntry 1)
                (Sample.batch "c" "3" 2) 1 SampleMore.noisy
                eq_refl eq_refl H3 H4 H5 eq_refl eq_refl eq_refl eq_refl)
    as (Hrun & Hwithout & _ & Hnever).
  split; [reflexivity|]. split; [reflexivity|]. split; [exact H3|].
  split; [exact H4|]. split; [exact H5|]. split; [reflexivity|].
  split; [reflexivity|]. split; [reflexivity|]. split; [reflexivity|].
  split; [exact Hrun|]. split; [exact Hwithout|exact Hnever].
Defined.

(** ** The replayer *)

Section ReplayFacts.
Context {RE : RecordEnv}.

(** C10. With an empty list of WAL ids [replay] returns success at once:
    whatever the list of vlog ids, the fuel and the directory, nothing
    is opened, read or replayed and the directory is left as it was. *)
Theorem replay_without_wal_returns_at_once
    (vlogs : list Z) (vhd : valuePointer) (o : Options) (replayFn : logEntry)
    (fuel : nat) (d : disk) :
  replay (mkReplayer [] vlogs vhd o) replayFn fuel d
  = mkResult (Returned tt) d [].
Proof. reflexivity. Qed.

(** Leaving the loop with [truncateNeeded] set ends in the panic of
    line 444. *)
Lemma afterLoop_truncate_panics (st : replayVars) :
  truncateNeeded st = true ->
  resOutcome (afterLoop st) = Panicked "Sup implement this guy.".
Proof. intros H. unfold afterLoop. rewrite H. reflexivity. Qed.

Lemma replay_loop_break_truncate_panics
    (lp : logReplayer) (replayFn : logEntry) (st st' : replayVars) (fuel : nat) :
  replay_step lp replayFn st = Break st' ->
  truncateNeeded st' = true ->
  resOutcome (replay_loop lp replayFn (S fuel) st)
  = Panicked "Sup implement this guy.".
Proof.
  intros Hstep Htr. cbn [replay_loop]. rewrite Hstep.
  apply afterLoop_truncate_panics. exact Htr.
Qed.

(** A truncation error of either stream, and a mismatch of the commit
    timestamps, both leave the loop with [truncateNeeded] set. *)
Lemma replay_step_errTruncate (lp : logReplayer) (replayFn : logEntry)
    (st : replayVars) :
  walErr st = Some errTruncate \/ vlogErr st = Some errTruncate ->
  replay_step lp replayFn st = Break (set_truncateNeeded true st).
Proof.
  intros H. unfold replay_step. destruct (decide _) as [_|Hn]; [reflexivity|].
  contradiction.
Qed.

Lemma replay_step_ts_mismatch (lp : logReplayer) (replayFn : logEntry)
    (st : replayVars) :
  walErr st = None -> vlogErr st = None ->
  vlogCommitTs st <> walCommitTs st ->
  replay_step lp replayFn st = Break (set_truncateNeeded true st).
Proof.
  intros Hw Hv Hts. unfold replay_step. rewrite Hw, Hv.
  destruct (decide _) as [[?|?]|_]; [congruence..|].
  destruct (decide _) as [?|_]; [congruence|].
  destruct (decide _) as [[?|?]|_]; [congruence..|].
  destruct (Z.eqb_spec (vlogCommitTs st) (walCommitTs st)); [contradiction|].
  reflexivity.
Qed.

(** After a batch was replayed both batch variables are filled from the
    WAL iterator: the vlog iterator is left where it was, and the vlog
    batch is the second batch ahead in the WAL. *)
Lemma replayBatch_reads_wal_twice (lp : logReplayer) (replayFn : logEntry)
    (st st' : replayVars) :
  replayBatch replayFn st = Continue st' ->
  vlogIterator st' = vlogIterator st
  /\ (walEntries st', walCommitTs st', walErr st')
     = fst (iterateEntries (walIterator st))
  /\ (vlogEntries st', vlogCommitTs st', vlogErr st')
     = fst (iterateEntries (snd (iterateEntries (walIterator st))))
  /\ walIterator st'
     = snd (iterateEntries (snd (iterateEntries (walIterator st)))).
Proof.
  unfold replayBatch.
  destruct (replayAll replayFn _ (walEntries st) (rTrace st)) as [[e1|] tr1];
    [discriminate|].
  destruct (replayAll replayFn _ (vlogEntries st) tr1) as [[e2|] tr2];
    [discriminate|].
  intros H. injection H as <-.
  unfold vlogIterator, walIterator, walEntries, walCommitTs, walErr,
    vlogEntries, vlogCommitTs, vlogErr. cbn.
  destruct (iterateEntries (cIterator (rWal st))) as [[[es1 ts1] er1] it1]. cbn.
  destruct (iterateEntries it1) as [[[es2 ts2] er2] it2]. cbn.
  repeat split.
Qed.

(** When the vlog stream is exhausted and needs no truncation, the file
    opened next is the vlog file named by the entry of [walIDs] at the
    advanced index. *)
Lemma advanceVlog_opens_wal_id (lp : logReplayer) (st st' : replayVars) :
  advanceVlog lp st = Continue st' ->
  exists id : Z,
    walIDs lp !! S (currentVlogIndex st) = Some id
    /\ currentVlogIndex st' = S (currentVlogIndex st)
    /\ path (vlogFile st') = vlogFilePath id
    /\ fid (vlogFile st') = id
    /\ (vlogEntries st', vlogCommitTs st', vlogErr st')
       = fst (iterateEntries (walIterator st)).
Proof.
  unfold advanceVlog.
  destruct (isTruncateNeeded _ _ _) as [[|] [err|]]; try discriminate.
  destruct (fd_Close _) as [err|closed]; [discriminate|].
  match goal with |- context [if ?b then _ else _] => destruct b end;
    [discriminate|].
  cbn -[logFile_open newLogIterator iterateEntries].
  destruct (walIDs lp !! S (cIndex (rVlog st))) as [id|] eqn:Hid;
    [|discriminate].
  cbn -[logFile_open newLogIterator iterateEntries].
  destruct (logFile_open _ _ _) as [err|opened] eqn:Hopen; [discriminate|].
  assert (Hp : path opened = vlogFilePath id /\ fid opened = id).
  { unfold logFile_open in Hopen.
    destruct (rDisk st !! vlogFilePath id); [|discriminate].
    injection Hopen as <-. split; reflexivity. }
  destruct Hp as [Hp Hf].
  destruct (fileOffset opened <? vlogHeaderSize); [discriminate|].
  cbn -[newLogIterator iterateEntries].
  destruct (newLogIterator _ _ _) as [err|it];
    intros H; injection H as <-; exists id;
    unfold currentVlogIndex, vlogFile, vlogEntries, vlogCommitTs, vlogErr,
      walIterator; cbn;
    destruct (iterateEntries (cIterator (rWal st))) as [[[es ts] er] it'];
    cbn; repeat split; assumption.
Qed.

End ReplayFacts.

(** C4. A WAL and a vlog whose first transactions carry different commit
    timestamps make the loop stop with [truncateNeeded] set; [replay] then
    does not return to its caller but panics, with any fuel that lets the
    loop take its first turn.  A WAL and a vlog that hold one and the same
    transaction do not fare better: once the transaction is replayed the
    WAL is at its end, the guard [len(lp.walIDs) < currentWalIndex] lets
    the index run past the only id, and [replay] panics on
    [lp.walIDs[1]]. *)
Theorem replay_truncate_needed_panics (fuel : nat) :
  resOutcome (@replay Sample.recordEnv Sample.lockstepReplayer Sample.acceptAll
                (S fuel) Sample.diverged)
  = Panicked "Sup implement this guy."
  /\ resOutcome (@replay Sample.recordEnv Sample.lockstepReplayer Sample.acceptAll
                   (S (S fuel)) Sample.matched)
     = Panicked "index out of range".
Proof.
  split; [|vm_compute; reflexivity].
  unfold replay.
  destruct (@replay_init Sample.recordEnv Sample.lockstepReplayer Sample.diverged)
    as [r|st] eqn:Hinit; [vm_compute in Hinit; discriminate|].
  assert (Hts : walErr st = None /\ vlogErr st = None
                /\ vlogCommitTs st <> walCommitTs st).
  { vm_compute in Hinit. injection Hinit as <-. vm_compute.
    repeat split; discriminate. }
  destruct Hts as (Hw & Hv & Hts).
  eapply replay_loop_break_truncate_panics.
  - apply replay_step_ts_mismatch; assumption.
  - reflexivity.
Qed.

(** C2. A WAL file and a vlog file hold the same three transactions.  The
    first batches are read from the two iterators, as lines 305-306 do.
    After the first turn of the loop the vlog iterator has not moved, and
    the batch held as the vlog batch is the third transaction of the WAL,
    read by a second call on the WAL iterator (line 440); the commit
    timestamps 2 and 3 then differ and the replay of two consistent logs
    ends in the panic of line 444. *)
Theorem replay_reads_vlog_batch_from_wal_iterator :
  match @replay_init Sample.recordEnv Sample.lockstepReplayer Sample.lockstep with
  | inr st0 =>
      match @replay_step Sample.recordEnv Sample.lockstepReplayer
              Sample.acceptAll st0 with
      | Continue st1 =>
          itPath (vlogIterator st0) = vlogFilePath 1
          /\ vlogIterator st1 = vlogIterator st0
          /\ map Value (pending (vlogIterator st1))
             = map Value (Sample.batch "b" "large2" 2 ++ Sample.batch "c" "large3" 3)
          /\ map Value (walEntries st1) = [Sample.bytesOf "2"]
          /\ map Value (vlogEntries st1) = [Sample.bytesOf "3"]
          /\ walCommitTs st1 = 2
          /\ vlogCommitTs st1 = 3
          /\ pending (walIterator st1) = []
          /\ iteratedPaths (rTrace st1)
             = [walFilePath 1; vlogFilePath 1; walFilePath 1; walFilePath 1]
      | _ => False
      end
  | inl _ => False
  end
  /\ forall fuel : nat,
       resOutcome (@replay Sample.recordEnv Sample.lockstepReplayer
                     Sample.acceptAll (S (S fuel)) Sample.lockstep)
       = Panicked "Sup implement this guy.".
Proof.
  split.
  - vm_compute. repeat split.
  - intros fuel. vm_compute. reflexivity.
Qed.

(** C3. WAL ids 5 and 6, vlog ids 1 and 2.  The vlog stream reports
    [io.EOF] while the size of vlog file 1 equals its valid offset: the
    file is checked and closed, and the file opened next is the vlog file
    of id 6, taken from the WAL ids, not vlog file 2.  That file does not
    exist, so [replay] fails. *)
Theorem replay_advances_vlog_through_wal_ids (fuel : nat) :
  let r := @replay Sample.recordEnv Sample.twoFamiliesReplayer Sample.acceptAll
             (S (S fuel)) Sample.twoFamilies in
  resOutcome r
  = Failed (Wrapf os_ErrNotExist "Error while opening WAL file %d in logReplayer")
  /\ openedPaths (resTrace r) = [vlogFilePath 1; walFilePath 5; vlogFilePath 6]
  /\ drop 10 (resTrace r)
     = [EvStat (vlogFilePath 1); EvClose (vlogFilePath 1);
        EvOpen (vlogFilePath 6) flagsZero].
Proof. vm_compute. repeat split. Qed.

(** ** Opening the log manager *)

Section FilterFacts.

Lemma os_Remove_lookup (d d' : disk) (p q : filePath) :
  os_Remove d p = inr d' ->
  d' !! q = if decide (p = q) then None else d !! q.
Proof.
  unfold os_Remove. destruct (d !! p) as [f|]; [|discriminate].
  destruct (f_removable f); [|discriminate].
  intros H. injection H as <-. apply lookup_delete.
Qed.

(** The WAL filter keeps the ids up to [walhead], in whatever order the
    ids are visited, and asks to remove the files above it. *)
Lemma filterWAL_kept (walhead : Z) (readOnly : bool) (fids : list Z) :
  forall (d : disk) (tr : list event) (m : Z) (acc : list Z)
         (d' : disk) (tr' : list event) (m' : Z) (out : list Z),
    filterWAL walhead readOnly fids d tr m acc = inr (d', tr', m', out) ->
    out = acc ++ filter (fun fid => fid <= walhead) fids
    /\ tr' = tr ++ (if readOnly then []
                    else (fun fid => EvRemove (walFilePath fid))
                           <$> filter (fun fid => walhead < fid) fids).
Proof.
  induction fids as [|fid rest IH]; intros d tr m acc d' tr' m' out H.
  - simpl in H. injection H as <- <- <- <-.
    rewrite !app_nil_r. destruct readOnly; simpl; rewrite ?app_nil_r; done.
  - cbn [filterWAL] in H.
    destruct (Z.gtb_spec fid walhead) as [Hgt|Hle].
    + rewrite (filter_cons_False (fun fid => fid <= walhead)) by lia.
      rewrite (filter_cons_True (fun fid => walhead < fid)) by lia.
      destruct readOnly; cbn [negb] in H.
      * apply IH in H as (Hout & Htr). done.
      * destruct (os_Remove d (walFilePath fid)) as [err|d1] eqn:Hrem;
          [discriminate|].
        apply IH in H as (Hout & Htr). split; [done|].
        rewrite Htr, <- app_assoc. reflexivity.
    + rewrite (filter_cons_True (fun fid => fid <= walhead)) by lia.
      rewrite (filter_cons_False (fun fid => walhead < fid)) by lia.
      apply IH in H as (Hout & Htr). split; [|done].
      rewrite Hout, <- app_assoc. reflexivity.
Qed.

Lemma filterWAL_gone_stays_gone (walhead : Z) (readOnly : bool) (fids : list Z) :
  forall (d : disk) (tr : list event) (m : Z) (acc : list Z)
         (d' : disk) (tr' : list event) (m' : Z) (out : list Z) (p : filePath),
    filterWAL walhead readOnly fids d tr m acc = inr (d', tr', m', out) ->
    d !! p = None -> d' !! p = None.
Proof.
  induction fids as [|fid rest IH]; intros d tr m acc d' tr' m' out p H Hp.
  - simpl in H. injection H as <- <- <- <-. exact Hp.
  - cbn [filterWAL] in H.
    destruct (fid >? walhead); [|eapply IH; eassumption].
    destruct readOnly; cbn [negb] in H; [eapply IH; eassumption|].
    destruct (os_Remove d (walFilePath fid)) as [err|d1] eqn:Hrem;
      [discriminate|].
    eapply IH; [eassumption|].
    rewrite (os_Remove_lookup _ _ _ p Hrem). destruct (decide _); done.
Qed.

(** The files whose id is above [walhead] are the ones deleted, the
    files up to [walhead] stay. *)
Lemma filterWAL_deleted (walhead : Z) (fids : list Z) :
  forall (d : disk) (tr : list event) (m : Z) (acc : list Z)
         (d' : disk) (tr' : list event) (m' : Z) (out : list Z),
    filterWAL walhead false fids d tr m acc = inr (d', tr', m', out) ->
    (forall fid, fid ∈ fids -> walhead < fid -> d' !! walFilePath fid = None)
    /\ (forall fid, fid <= walhead ->
          d' !! walFilePath fid = d !! walFilePath fid).
Proof.
  induction fids as [|fid rest IH]; intros d tr m acc d' tr' m' out H.
  - simpl in H. injection H as <- <- <- <-. split; [|done].
    intros fid Hin. exfalso. eapply not_elem_of_nil. exact Hin.
  - pose proof H as Hwhole. cbn [filterWAL] in H.
    destruct (Z.gtb_spec fid walhead) as [Hgt|Hle]; cbn [negb] in H.
    + destruct (os_Remove d (walFilePath fid)) as [err|d1] eqn:Hrem;
        [discriminate|].
      pose proof (IH _ _ _ _ _ _ _ _ H) as (Hrm & Hkeep). split.
      * intros f Hin Hf. apply elem_of_cons in Hin as [->|Hin]; [|by apply Hrm].
        eapply filterWAL_gone_stays_gone; [exact H|].
        rewrite (os_Remove_lookup _ _ _ (walFilePath fid) Hrem).
        destruct (decide _); done.
      * intros f Hf. rewrite (Hkeep f Hf).
        rewrite (os_Remove_lookup _ _ _ (walFilePath f) Hrem).
        destruct (decide _) as [Heq|]; [|reflexivity].
        injection Heq as ->. lia.
    + pose proof (IH _ _ _ _ _ _ _ _ H) as (Hrm & Hkeep). split; [|done].
      intros f Hin Hf. apply elem_of_cons in Hin as [->|Hin]; [lia|by apply Hrm].
Qed.

End FilterFacts.

(** C1. WAL files 1, 2 and 3 are on disk, [walhead] is 2 and the store is
    not read-only.  [openLogManager] hands the replayer the ids 1 and 2,
    those up to [walhead], and deletes file 3, the only one above it:
    files 1 and 2 are still on disk afterwards. *)
Theorem openLogManager_keeps_ids_up_to_walhead :
  match openLogManager_filter Sample.options (mkVP 1 0 20) 2 [3; 1; 2] [1]
          Sample.threeWals with
  | inr pre =>
      walIDs (opReplayer pre) = [1; 2]
      /\ opTrace pre = [EvRemove (walFilePath 3)]
      /\ opDisk pre !! walFilePath 3 = None
      /\ opDisk pre !! walFilePath 1 <> None
      /\ opDisk pre !! walFilePath 2 <> None
  | inl _ => False
  end.
Proof. vm_compute. repeat split; discriminate. Qed.

(** ** The write path *)

Section WriteFacts.
Context {ME : ManagerEnv}.

(** An entry marked [skipVlog] gets its empty pointer and is then routed
    like any other entry: it is encoded into the WAL or the vlog buffer
    and a second pointer is appended for it. *)
Lemma writeEntries_skipVlog (m : logManager) (e : Entry) (rest : list Entry)
    (walBuf vlogBuf : list byte) (ptrs : list valuePointer) (written : Z) :
  skipVlog e = true ->
  writeEntries m (e :: rest) walBuf vlogBuf ptrs written
  = if shouldWriteValueToLSM e then
      match encode (wal m) e
              (Wire.wrap32 (fileOffset (wal m)
                            + Wire.wrap32 (Z.of_nat (length walBuf)))) with
      | inl err =>
          inl (Wrapf err "Error while encoding entry for WAL %d",
               ptrs ++ [emptyPointer])
      | inr bytes =>
          writeEntries m rest (walBuf ++ bytes) vlogBuf
            (ptrs ++ [emptyPointer; emptyPointer]) (written + 1)
      end
    else
      let entryOffset :=
        Wire.wrap32 (fileOffset (vlog m)
                     + Wire.wrap32 (Z.of_nat (length vlogBuf))) in
      match encode (vlog m) e entryOffset with
      | inl err =>
          inl (Wrapf err "Error while encoding entry for vlog %d",
               ptrs ++ [emptyPointer])
      | inr bytes =>
          writeEntries m rest walBuf (vlogBuf ++ bytes)
            (ptrs ++ [emptyPointer;
                      mkVP (fid (vlog m)) (Wire.wrap32 (Z.of_nat (length bytes)))
                        entryOffset])
            (written + 1)
      end.
Proof.
  intros Hskip. cbn [writeEntries]. rewrite Hskip.
  destruct (shouldWriteValueToLSM e).
  - destruct (encode _ _ _); [reflexivity|].
    rewrite <- app_assoc. reflexivity.
  - cbv zeta. destruct (encode _ _ _); [reflexivity|].
    rewrite <- app_assoc. reflexivity.
Qed.

End WriteFacts.

(** C5. A request of one entry marked [skipVlog], whose value is above the
    threshold, and the two end markers.  [write] succeeds; the request
    ends with four pointers for its three entries, two of them for the
    marked entry (the empty one and a pointer into the vlog), and the
    bytes of the marked entry are in the vlog buffer that is flushed. *)
Theorem write_encodes_skipVlog_entry :
  let r := @write Sample.managerEnv Sample.manager [Sample.skipRequest] in
  wrOutcome r = Returned tt
  /\ map Ptrs (wrReqs r)
     = [[emptyPointer; mkVP 1 18 100; emptyPointer; emptyPointer]]
  /\ take 18 (wVlogBuf (wrVars r))
     = Key Sample.skipped ++ Value Sample.skipped ++ Wire.PutUint32 0
  /\ wEntriesWritten (wrVars r) = 3.
Proof. vm_compute. repeat split. Qed.

(** ** Reading a value pointer *)

Section ReadFacts.
Context {ME : ManagerEnv}.

(** C8. A pointer into the vlog file of the highest id whose offset is
    at or past the file offset of the active vlog is rejected with the
    invalid pointer error: no file is looked up, no lock is taken.  The
    pointer that sits exactly at the file offset is one of them. *)
Theorem Read_rejects_pointer_at_or_past_file_offset
    (lm : logManager) (vp : valuePointer) :
  Fid vp = maxVlogID lm ->
  fileOffset (vlog lm) <= Offset vp ->
  Read lm vp
  = (Failed (InvalidPointer (Offset vp) (fileOffset (vlog lm))), None, lm).
Proof.
  intros Hfid Hoff. unfold Read.
  rewrite Hfid, Z.eqb_refl.
  destruct (Z.geb_spec (Offset vp) (fileOffset (vlog lm))) as [_|Hlt]; [|lia].
  reflexivity.
Qed.

End ReadFacts.

Lemma Read_rejects_pointer_at_or_past_file_offset_witness :
  (Fid (mkVP 1 18 100) = maxVlogID Sample.manager
   /\ fileOffset (vlog Sample.manager) <= Offset (mkVP 1 18 100))
  /\ @Read Sample.managerEnv Sample.manager (mkVP 1 18 100)
     = (Failed (InvalidPointer 100 100), None, Sample.manager).
Proof.
  split; [split; [reflexivity|discriminate]|].
  apply (@Read_rejects_pointer_at_or_past_file_offset Sample.managerEnv
           Sample.manager (mkVP 1 18 100)); [reflexivity|discriminate].
Defined.

(** ** Byte order *)

Section WireFacts.

Lemma Z_of_byte_of_Z (z : Z) : Wire.Z_of_byte (Wire.byte_of_Z z) = z mod 256.
Proof.
  unfold Wire.Z_of_byte, Wire.byte_of_Z.
  assert (Hr : 0 <= z mod 256 < 256) by (apply Z.mod_pos_bound; lia).
  destruct (Byte.of_N (Z.to_N (z mod 256))) as [b|] eqn:E.
  - apply Byte.to_of_N in E. rewrite E. apply Z2N.id. lia.
  - apply Byte.of_N_None_iff in E. lia.
Qed.

Lemma byte_lane_bit (v k n : Z) :
  0 <= k -> 0 <= n ->
  Z.testbit (Z.shiftl (Z.shiftr v k mod 2 ^ 8) k) n
  = (k <=? n) && (n <? k + 8) && Z.testbit v n.
Proof.
  intros Hk Hn. rewrite Z.shiftl_spec by lia.
  destruct (Z.leb_spec k n) as [Hle|Hlt].
  - rewrite Z.testbit_mod_pow2 by lia.
    rewrite Z.shiftr_spec by lia.
    replace (n - k + k) with n by lia.
    replace (n - k <? 8) with (n <? k + 8) by lia. reflexivity.
  - rewrite Z.testbit_neg_r by lia. reflexivity.
Qed.

Lemma Uint32_bytes (v : Z) :
  0 <= v < 2 ^ 32 ->
  Z.lor (Z.shiftl (Z.shiftr v 24 mod 2 ^ 8) 24)
    (Z.lor (Z.shiftl (Z.shiftr v 16 mod 2 ^ 8) 16)
       (Z.lor (Z.shiftl (Z.shiftr v 8 mod 2 ^ 8) 8) (v mod 2 ^ 8))) = v.
Proof.
  intros Hv. apply Z.bits_inj'. intros n Hn.
  rewrite !Z.lor_spec, !byte_lane_bit by lia.
  rewrite Z.testbit_mod_pow2 by lia.
  assert (Hhigh : forall l, 32 <= l -> Z.testbit v l = false).
  { apply (Z.bounded_iff_bits_nonneg' 32 v); lia. }
  destruct (Z_lt_dec n 32) as [H32|H32].
  - destruct (Z.testbit v n); rewrite ?andb_false_r, ?andb_true_r;
      [|reflexivity].
    destruct (Z.leb_spec 24 n), (Z.ltb_spec n (24 + 8)),
      (Z.leb_spec 16 n), (Z.ltb_spec n (16 + 8)),
      (Z.leb_spec 8 n), (Z.ltb_spec n (8 + 8)), (Z.ltb_spec n 8);
      cbn; try reflexivity; lia.
  - rewrite Hhigh by lia. rewrite !andb_false_r. reflexivity.
Qed.

(** A big-endian word is read back from the four bytes it was put in,
    whatever follows them. *)
Lemma Uint32_PutUint32 (v : Z) (rest : list byte) :
  0 <= v < 2 ^ 32 -> Wire.Uint32 (Wire.PutUint32 v ++ rest) = v.
Proof.
  intros Hv. unfold Wire.PutUint32, Wire.Uint32. cbn [app].
  rewrite !Z_of_byte_of_Z. change 256 with (2 ^ 8).
  apply Uint32_bytes. exact Hv.
Qed.

Lemma length_PutUint32 (v : Z) : length (Wire.PutUint32 v) = 4%nat.
Proof. reflexivity. Qed.

(** [ReadAt] returns the slice that sits at its offset. *)
Lemma ReadAt_middle (pre x post : list byte) :
  ReadAt (pre ++ x ++ post) (Z.of_nat (length pre)) (Z.of_nat (length x))
  = inr x.
Proof.
  unfold ReadAt. rewrite !length_app.
  destruct (Z.ltb_spec (Z.of_nat (length pre + (length x + length post)))
              (Z.of_nat (length pre) + Z.of_nat (length x))) as [H|_]; [lia|].
  rewrite !Nat2Z.id, drop_app_length, take_app_length. reflexivity.
Qed.

Lemma ReadAt_middle' (pre x post : list byte) (pos n : Z) :
  pos = Z.of_nat (length pre) -> n = Z.of_nat (length x) ->
  ReadAt (pre ++ x ++ post) pos n = inr x.
Proof. intros -> ->. apply ReadAt_middle. Qed.

End WireFacts.

(** ** The key registry *)

Section RegistryFacts.
Context {GE : RegistryEnv}.

Lemma length_lenCrcBuf (data : list byte) : length (lenCrcBuf data) = 8%nat.
Proof. reflexivity. Qed.

(** Without a storage key [storeDataKey] appends the length, the
    checksum and the marshalled key, and leaves the key as it was. *)
Lemma storeDataKey_plain (f : regFile) (k : DataKey) (data : list byte) :
  Marshal k = inr data ->
  storeDataKey (Some (mkRegFd f false)) [] k false
  = (None,
     Some (mkRegFd (mkRegFile (rf_bytes f ++ lenCrcBuf data ++ data)
                      (rf_synced f)) false),
     k).
Proof.
  intros HM. unfold storeDataKey. cbn [length Nat.ltb Nat.leb].
  rewrite HM. cbn [fp_Write fd_file fd_readOnly rf_bytes rf_synced].
  rewrite <- app_assoc. reflexivity.
Qed.

(** One turn of the loop of [buildKeyRegistry] over a well formed record,
    without a storage key: the key is stored under [nextKeyID], which is
    the largest id seen so far, not under its own id. *)
Lemma buildLoop_record (fuel : nat) (pre post data : list byte)
    (k : DataKey) (kr : KeyRegistry) :
  Unmarshal data = inr k ->
  Z.of_nat (length data) < 2 ^ 32 ->
  0 <= crc32_Checksum data < 2 ^ 32 ->
  buildLoop (S fuel) (pre ++ (lenCrcBuf data ++ data) ++ post) []
    (Z.of_nat (length pre)) kr
  = let next := if KeyID k >? nextKeyID kr then KeyID k else nextKeyID kr in
    let last := if CreatedAt k >? lastCreated kr then CreatedAt k
                else lastCreated kr in
    buildLoop fuel (pre ++ (lenCrcBuf data ++ data) ++ post) []
      (Z.of_nat (length (pre ++ lenCrcBuf data ++ data)))
      (mkKeyRegistry (<[next := k]> (dataKeys kr)) last next
         (storageKey kr) (fp kr)).
Proof.
  intros HU Hlen Hcrc. cbn [buildLoop].
  destruct (Z.eqb_spec (Z.of_nat (length pre))
              (Z.of_nat (length (pre ++ (lenCrcBuf data ++ data) ++ post))))
    as [Heq|_].
  { rewrite !length_app, length_lenCrcBuf in Heq. lia. }
  rewrite <- (app_assoc (lenCrcBuf data) data post).
  rewrite (ReadAt_middle' pre (lenCrcBuf data) (data ++ post)) by reflexivity.
  assert (Hl : Wire.Uint32 (take 4 (lenCrcBuf data)) = Z.of_nat (length data)).
  { unfold lenCrcBuf. rewrite take_app_length' by reflexivity.
    rewrite <- (app_nil_r (Wire.PutUint32 _)).
    rewrite Uint32_PutUint32; unfold Wire.wrap32; rewrite Z.mod_small; lia. }
  assert (Hc : Wire.Uint32 (drop 4 (lenCrcBuf data)) = crc32_Checksum data).
  { unfold lenCrcBuf. rewrite drop_app_length' by reflexivity.
    rewrite <- (app_nil_r (Wire.PutUint32 _)).
    apply Uint32_PutUint32. exact Hcrc. }
  rewrite Hl, Hc.
  rewrite (app_assoc pre (lenCrcBuf data) (data ++ post)).
  rewrite (ReadAt_middle' (pre ++ lenCrcBuf data) data post)
    by (rewrite ?length_app, ?length_lenCrcBuf; lia).
  rewrite Z.eqb_refl. cbn [negb]. rewrite HU. cbn [length Nat.ltb Nat.leb].
  cbv zeta. f_equal.
  rewrite !length_app, length_lenCrcBuf. lia.
Qed.

Lemma buildLoop_done (fuel : nat) (bytes sk : list byte) (kr : KeyRegistry) :
  buildLoop (S fuel) bytes sk (Z.of_nat (length bytes)) kr = Returned kr.
Proof. cbn [buildLoop]. rewrite Z.eqb_refl. reflexivity. Qed.

(** The head of [buildKeyRegistry] on a file written without a storage
    key: the IV and the sanity text are accepted and the loop starts
    behind them. *)
Lemma buildKeyRegistry_plain (iv rest synced : list byte) (ro : bool) :
  length iv = 16%nat ->
  buildKeyRegistry (mkRegFd (mkRegFile (iv ++ sanityText ++ rest) synced) ro) []
  = match buildLoop (S (length (iv ++ sanityText ++ rest)))
            (iv ++ sanityText ++ rest) []
            (Z.of_nat (length (iv ++ sanityText))) (newKeyRegistry []) with
    | Returned kr =>
        Returned (mkKeyRegistry (dataKeys kr) (lastCreated kr) (nextKeyID kr)
                    (storageKey kr)
                    (Some (mkRegFd (mkRegFile (iv ++ sanityText ++ rest) synced)
                             ro)))
    | bad => bad
    end.
Proof.
  intros Hiv. unfold buildKeyRegistry. cbn [rf_bytes fd_file].
  rewrite (ReadAt_middle' [] iv (sanityText ++ rest))
    by (rewrite ?Hiv; reflexivity).
  rewrite (ReadAt_middle' iv sanityText rest) by (rewrite ?Hiv; reflexivity).
  cbn [length Nat.ltb Nat.leb].
  rewrite bool_decide_eq_true_2 by reflexivity. cbn [negb].
  replace (aes_BlockSize + Z.of_nat (length sanityText))
    with (Z.of_nat (length (iv ++ sanityText)))
    by (rewrite length_app, Hiv; reflexivity).
  reflexivity.
Qed.

(** C6. A registry holds two data keys; [RewriteRegistry] runs without a
    storage key and its [range] loop happens to visit the key with the
    larger id first.  The rewrite succeeds, and opening the file it
    wrote yields a registry with a single entry: the id of the second
    key maps to the first key, whose own id is no longer present. *)
Theorem rewrite_then_open_stores_key_under_largest_id
    (dir : regDir) (reg : KeyRegistry) (k1 k2 : DataKey)
    (d1 d2 iv : list byte) :
  KeyID k1 < KeyID k2 -> 0 < KeyID k2 ->
  dataKeys reg = {[ KeyID k1 := k1; KeyID k2 := k2 ]} ->
  length iv = 16%nat ->
  Marshal k1 = inr d1 -> Unmarshal d1 = inr k1 ->
  Z.of_nat (length d1) < 2 ^ 32 -> 0 <= crc32_Checksum d1 < 2 ^ 32 ->
  Marshal k2 = inr d2 -> Unmarshal d2 = inr k2 ->
  Z.of_nat (length d2) < 2 ^ 32 -> 0 <= crc32_Checksum d2 < 2 ^ 32 ->
  exists (dir' : regDir) (reg' : KeyRegistry) (kr : KeyRegistry),
    RewriteRegistry dir reg [] (inr iv) [KeyID k2; KeyID k1] = (None, dir', reg')
    /\ OpenKeyRegistry dir' false [] (inr iv) = (Returned kr, dir')
    /\ dataKeys kr = {[ KeyID k2 := k1 ]}
    /\ dataKeys kr !! KeyID k1 = None.
Proof.
  intros Hlt Hpos Hmap Hiv HM1 HU1 Hl1 Hc1 HM2 HU2 Hl2 Hc2.
  assert (Hk2 : dataKeys reg !! KeyID k2 = Some k2).
  { rewrite Hmap, lookup_insert_ne by lia. apply lookup_singleton_eq. }
  assert (Hk1 : dataKeys reg !! KeyID k1 = Some k1).
  { rewrite Hmap. apply lookup_insert_eq. }
  unfold RewriteRegistry. cbn [length Nat.ltb Nat.leb].
  cbn [storeAll]. rewrite Hk2.
  rewrite (storeDataKey_plain _ k2 d2 HM2). cbn [rf_bytes rf_synced].
  rewrite (insert_id _ _ _ Hk2), Hk1.
  rewrite (storeDataKey_plain _ k1 d1 HM1). cbn [rf_bytes rf_synced].
  rewrite (insert_id _ _ _ Hk1).
  eexists _, _, _. split; [reflexivity|].
  unfold OpenKeyRegistry, FileSync. cbn [dKeyRegistry rf_bytes fd_file].
  rewrite <- !app_assoc.
  rewrite (buildKeyRegistry_plain iv _ _ false Hiv).
  set (bytes := iv ++ sanityText ++ lenCrcBuf d2 ++ d2 ++ lenCrcBuf d1 ++ d1).
  assert (Hfuel : exists n, length bytes = S (S n)).
  { subst bytes. rewrite !length_app, Hiv. eexists. reflexivity. }
  destruct Hfuel as [n ->].
  assert (Hb2 : bytes = (iv ++ sanityText) ++ (lenCrcBuf d2 ++ d2)
                        ++ (lenCrcBuf d1 ++ d1)).
  { subst bytes. rewrite <- !app_assoc. reflexivity. }
  rewrite Hb2 at 1.
  rewrite (buildLoop_record _ (iv ++ sanityText) _ d2 k2 _ HU2 Hl2 Hc2).
  cbv zeta. cbn [newKeyRegistry nextKeyID lastCreated dataKeys storageKey fp].
  assert ((KeyID k2 >? 0) = true) as -> by lia.
  assert (Hb1 : (iv ++ sanityText) ++ (lenCrcBuf d2 ++ d2) ++ lenCrcBuf d1 ++ d1
                = ((iv ++ sanityText) ++ lenCrcBuf d2 ++ d2)
                    ++ (lenCrcBuf d1 ++ d1) ++ []).
  { rewrite app_nil_r, <- !app_assoc. reflexivity. }
  rewrite Hb1.
  rewrite (buildLoop_record _ _ [] d1 k1 _ HU1 Hl1 Hc1).
  cbv zeta. cbn [nextKeyID lastCreated dataKeys storageKey fp].
  assert ((KeyID k1 >? KeyID k2) = false) as -> by lia.
  replace (Z.of_nat (length (((iv ++ sanityText) ++ lenCrcBuf d2 ++ d2)
                               ++ lenCrcBuf d1 ++ d1)))
    with (Z.of_nat (length (((iv ++ sanityText) ++ lenCrcBuf d2 ++ d2)
                              ++ (lenCrcBuf d1 ++ d1) ++ [])))
    by (rewrite app_nil_r; reflexivity).
  rewrite buildLoop_done. cbn [dataKeys].
  split; [reflexivity|]. split.
  - rewrite insert_insert_eq. rewrite insert_empty. reflexivity.
  - rewrite insert_insert_eq, insert_empty.
    apply lookup_singleton_ne. lia.
Qed.

End RegistryFacts.

Lemma rewrite_then_open_stores_key_under_largest_id_witness :
  (KeyID SampleKeys.key1 < KeyID SampleKeys.key2
   /\ 0 < KeyID SampleKeys.key2
   /\ dataKeys (SampleKeys.twoKeys [])
      = {[ KeyID SampleKeys.key1 := SampleKeys.key1;
           KeyID SampleKeys.key2 := SampleKeys.key2 ]}
   /\ length SampleKeys.iv16 = 16%nat
   /\ SampleKeys.sampleMarshal SampleKeys.key1
      = inr (SampleKeys.sampleBytes SampleKeys.key1)
   /\ SampleKeys.sampleUnmarshal (SampleKeys.sampleBytes SampleKeys.key1)
      = inr SampleKeys.key1
   /\ SampleKeys.sampleMarshal SampleKeys.key2
      = inr (SampleKeys.sampleBytes SampleKeys.key2)
   /\ SampleKeys.sampleUnmarshal (SampleKeys.sampleBytes SampleKeys.key2)
      = inr SampleKeys.key2)
  /\ exists (dir' : regDir) (reg' kr : KeyRegistry),
       @RewriteRegistry SampleKeys.registryEnv SampleKeys.emptyDir
         (SampleKeys.twoKeys []) [] (inr SampleKeys.iv16) [2; 1]
       = (None, dir', reg')
       /\ @OpenKeyRegistry SampleKeys.registryEnv dir' false []
            (inr SampleKeys.iv16) = (Returned kr, dir')
       /\ dataKeys kr = {[ 2 := SampleKeys.key1 ]}
       /\ dataKeys kr !! 1 = None.
Proof.
  split.
  - repeat split; reflexivity.
  - apply (@rewrite_then_open_stores_key_under_largest_id SampleKeys.registryEnv
             SampleKeys.emptyDir (SampleKeys.twoKeys [])
             SampleKeys.key1 SampleKeys.key2
             (SampleKeys.sampleBytes SampleKeys.key1)
             (SampleKeys.sampleBytes SampleKeys.key2) SampleKeys.iv16);
      try reflexivity; vm_compute; split; congruence.
Defined.

Section RotationFacts.
Context {GE : RegistryEnv}.

(** The test of [getDataKey], [diff.Hours()/24 < RotationPeriod], is the
    comparison of the time since the last creation with ten days, as
    long as [time.Unix(lastCreated, 0)] does not wrap. *)
Lemma withinRotation_ten_days (nowNs last : Z) :
  - 2 ^ 63 <= last + unixToInternal < 2 ^ 63 ->
  withinRotation (time_Since nowNs last)
  = (nowNs - last * 10 ^ 9 <? 10 * 24 * 3600 * 10 ^ 9).
Proof.
  intros Hrange.
  unfold withinRotation, time_Since, time_Unix, RotationPeriod, nsPerHour,
    Wire.minInt64, Wire.maxInt64.
  rewrite Z.mod_small by lia.
  replace (last + unixToInternal + 2 ^ 63 - 2 ^ 63 - unixToInternal) with last
    by lia.
  change (2 ^ 63) with 9223372036854775808.
  change (10 ^ 9) with 1000000000.
  destruct (Z.ltb_spec (nowNs - last * 1000000000)
              (10 * 24 * 3600 * 1000000000));
    destruct (Z.ltb_spec
                (Z.max (- 9223372036854775808)
                   (Z.min (9223372036854775808 - 1)
                      (nowNs - last * 1000000000)))
                (10 * 24 * (3600 * 1000000000))); lia.
Qed.




End RotationFacts.



(** ** Rewriting and reopening the registry in ascending order *)

Section RoundTrip.
Context {GE : RegistryEnv}.
Variable sk : list byte.

Lemma storeDataKey_stored (f : regFile) (k : DataKey) (c d : list byte) :
  storedAs sk k c d ->
  storeDataKey (Some (mkRegFd f false)) sk k false
  = (None,
     Some (mkRegFd (mkRegFile (rf_bytes f ++ lenCrcBuf d ++ d) (rf_synced f))
             false),
     set_Data k c).
Proof.
  intros (Hx & HM & _). unfold storeDataKey.
  destruct (0 <? length sk)%nat.
  - destruct Hx as [Hx _]. rewrite Hx, HM.
    cbn [fp_Write fd_file fd_readOnly rf_bytes rf_synced].
    rewrite <- app_assoc. reflexivity.
  - subst c. assert (Hk : set_Data k (Data k) = k) by (destruct k; reflexivity).
    rewrite Hk in HM |- *. rewrite HM.
    cbn [fp_Write fd_file fd_readOnly rf_bytes rf_synced].
    rewrite <- app_assoc. reflexivity.
Qed.

Lemma storeAll_items (items : list item) :
  forall (f : regFile) (keys : gmap Z DataKey),
    Forall (itemOk sk) items ->
    NoDup (itemId <$> items) ->
    Forall (fun it => keys !! itemId it = Some (itemKey it)) items ->
    exists keys' : gmap Z DataKey,
      storeAll (itemId <$> items) (Some (mkRegFd f false)) sk keys
      = (None,
         Some (mkRegFd (mkRegFile (rf_bytes f ++ concat (itemFrame <$> items))
                          (rf_synced f)) false),
         keys').
Proof.
  induction items as [|it rest IH]; intros f keys Hok Hnd Hin.
  - eexists. cbn. rewrite app_nil_r. destruct f; reflexivity.
  - rewrite fmap_cons in Hnd |- *. apply NoDup_cons in Hnd as [Hfresh Hnd].
    apply Forall_cons in Hok as [Hit Hok]. apply Forall_cons in Hin as [Hk Hin].
    cbn [storeAll]. rewrite Hk.
    rewrite (storeDataKey_stored f _ _ _ Hit).
    edestruct (IH (mkRegFile (rf_bytes f ++ lenCrcBuf (snd it) ++ snd it) (rf_synced f))
                 (<[itemId it := set_Data (itemKey it) (snd (fst it))]> keys)
                 Hok Hnd) as [keys' Hrest].
    { rewrite Forall_forall in Hin |- *. intros it' Hit'.
      rewrite lookup_insert_ne; [apply Hin; exact Hit'|].
      intros Heq. apply Hfresh. rewrite Heq.
      apply list_elem_of_fmap. exists it'. split; [reflexivity|exact Hit']. }
    exists keys'. rewrite Hrest. cbn [rf_bytes rf_synced].
    rewrite fmap_cons, concat_cons. unfold itemFrame at 2.
    rewrite <- !app_assoc. reflexivity.
Qed.

(** One turn of the loop of [buildKeyRegistry] over a stored key. *)
Lemma buildLoop_stored (fuel : nat) (pre post : list byte)
    (k : DataKey) (c d : list byte) (kr : KeyRegistry) :
  storedAs sk k c d ->
  buildLoop (S fuel) (pre ++ (lenCrcBuf d ++ d) ++ post) sk
    (Z.of_nat (length pre)) kr
  = let next := if KeyID k >? nextKeyID kr then KeyID k else nextKeyID kr in
    let last := if CreatedAt k >? lastCreated kr then CreatedAt k
                else lastCreated kr in
    buildLoop fuel (pre ++ (lenCrcBuf d ++ d) ++ post) sk
      (Z.of_nat (length (pre ++ lenCrcBuf d ++ d)))
      (mkKeyRegistry (<[next := k]> (dataKeys kr)) last next
         (storageKey kr) (fp kr)).
Proof.
  intros (Hx & _ & HU & Hlen & Hcrc). cbn [buildLoop].
  destruct (Z.eqb_spec (Z.of_nat (length pre))
              (Z.of_nat (length (pre ++ (lenCrcBuf d ++ d) ++ post))))
    as [Heq|_].
  { rewrite !length_app, length_lenCrcBuf in Heq. lia. }
  rewrite <- (app_assoc (lenCrcBuf d) d post).
  rewrite (ReadAt_middle' pre (lenCrcBuf d) (d ++ post)) by reflexivity.
  assert (Hl : Wire.Uint32 (take 4 (lenCrcBuf d)) = Z.of_nat (length d)).
  { unfold lenCrcBuf. rewrite take_app_length' by reflexivity.
    rewrite <- (app_nil_r (Wire.PutUint32 _)).
    rewrite Uint32_PutUint32; unfold Wire.wrap32; rewrite Z.mod_small; lia. }
  assert (Hc : Wire.Uint32 (drop 4 (lenCrcBuf d)) = crc32_Checksum d).
  { unfold lenCrcBuf. rewrite drop_app_length' by reflexivity.
    rewrite <- (app_nil_r (Wire.PutUint32 _)).
    apply Uint32_PutUint32. exact Hcrc. }
  rewrite Hl, Hc.
  rewrite (app_assoc pre (lenCrcBuf d) (d ++ post)).
  rewrite (ReadAt_middle' (pre ++ lenCrcBuf d) d post)
    by (rewrite ?length_app, ?length_lenCrcBuf; lia).
  rewrite Z.eqb_refl. cbn [negb]. rewrite HU.
  assert (Hdec : (if (0 <? length sk)%nat
                  then match XORBlock sk (IV (set_Data k c)) (Data (set_Data k c)) with
                       | inl err => inl err
                       | inr d0 => inr (set_Data (set_Data k c) d0)
                       end
                  else inr (set_Data k c)) = (inr k : error + DataKey)).
  { destruct (0 <? length sk)%nat.
    - destruct Hx as [_ Hx]. cbn [IV Data set_Data]. rewrite Hx.
      destruct k; reflexivity.
    - subst c. destruct k; reflexivity. }
  rewrite Hdec. cbv zeta. f_equal.
  rewrite !length_app, length_lenCrcBuf. lia.
Qed.

(** The loop over the records of keys whose ids ascend above
    [nextKeyID]: every key lands under its own id. *)
Lemma buildLoop_items (items : list item) :
  forall (fuel : nat) (pre : list byte) (kr : KeyRegistry),
    Forall (itemOk sk) items ->
    StronglySorted Z.lt (nextKeyID kr :: (itemId <$> items)) ->
    (length items < fuel)%nat ->
    exists (last next : Z),
      buildLoop fuel (pre ++ concat (itemFrame <$> items)) sk
        (Z.of_nat (length pre)) kr
      = Returned (mkKeyRegistry (fold_left insertKey items (dataKeys kr))
                    last next (storageKey kr) (fp kr)).
Proof.
  induction items as [|it rest IH]; intros fuel pre kr Hok Hsorted Hfuel.
  - destruct fuel as [|fuel]; [cbn in Hfuel; lia|].
    cbn [fmap list_fmap concat]. rewrite app_nil_r, buildLoop_done.
    exists (lastCreated kr), (nextKeyID kr). destruct kr; reflexivity.
  - destruct fuel as [|fuel]; [cbn in Hfuel; lia|].
    apply Forall_cons in Hok as [Hit Hok].
    rewrite fmap_cons in Hsorted. rewrite fmap_cons, concat_cons.
    unfold itemFrame at 1.
    rewrite (buildLoop_stored fuel pre _ _ _ _ kr Hit). cbv zeta.
    apply StronglySorted_inv in Hsorted as [Hsorted Hhead].
    assert (Hgt : (KeyID (itemKey it) >? nextKeyID kr) = true).
    { apply Forall_cons in Hhead as [Hlt _]. unfold itemId in Hlt. lia. }
    rewrite Hgt.
    rewrite (app_assoc pre).
    edestruct (IH fuel (pre ++ lenCrcBuf (snd it) ++ snd it)
                 (mkKeyRegistry (<[KeyID (itemKey it) := itemKey it]> (dataKeys kr))
                    (if CreatedAt (itemKey it) >? lastCreated kr
                     then CreatedAt (itemKey it) else lastCreated kr)
                    (KeyID (itemKey it)) (storageKey kr) (fp kr)) Hok)
      as (last & next & Hrest).
    { exact Hsorted. }
    { cbn in Hfuel. lia. }
    exists last, next. rewrite Hrest. reflexivity.
Qed.

Lemma fold_insertKey (items : list item) :
  forall m : gmap Z DataKey,
    NoDup (itemId <$> items) ->
    fold_left insertKey items m
    = list_to_map ((fun it => (itemId it, itemKey it)) <$> items) ∪ m.
Proof.
  induction items as [|it rest IH]; intros m Hnd.
  - cbn. rewrite (left_id_L ∅ (∪)). reflexivity.
  - rewrite fmap_cons in Hnd. apply NoDup_cons in Hnd as [Hfresh Hnd].
    cbn [fold_left]. rewrite (IH _ Hnd). unfold insertKey at 1.
    rewrite fmap_cons. cbn [list_to_map foldr uncurry fst snd].
    rewrite <- insert_union_l. symmetry. apply insert_union_r.
    apply not_elem_of_list_to_map_1.
    rewrite <- list_fmap_compose. exact Hfresh.
Qed.

(** The law of the registry, where it holds: when [RewriteRegistry]
    visits the keys in ascending order of their ids, every key sits under
    its own positive id, and the cipher and the codec undo themselves on
    the keys at hand, rewriting the registry and opening the file again
    gives back the same map of keys, with a storage key or without. *)
Lemma rewrite_then_open_ascending
    (dir : regDir) (reg : KeyRegistry) (items : list item) (iv e : list byte)
    (readOnly : bool) (genIV : error + list byte) :
  dataKeys reg = list_to_map ((fun it => (itemId it, itemKey it)) <$> items) ->
  Forall (itemOk sk) items ->
  StronglySorted Z.lt (0 :: (itemId <$> items)) ->
  length iv = 16%nat ->
  sanityAs sk iv e ->
  exists (dir' : regDir) (reg' kr : KeyRegistry),
    RewriteRegistry dir reg sk (inr iv) (itemId <$> items) = (None, dir', reg')
    /\ OpenKeyRegistry dir' readOnly sk genIV = (Returned kr, dir')
    /\ dataKeys kr = dataKeys reg.
Proof.
  intros Hmap Hok Hsorted Hiv Hsan.
  assert (Hnd : NoDup (itemId <$> items)).
  { apply StronglySorted_inv in Hsorted as [Hs _].
    clear -Hs. induction Hs as [|x l Hs IH Hx]; constructor; [|exact IH].
    intros Hin. rewrite Forall_forall in Hx. specialize (Hx _ Hin). lia. }
  assert (Hlook : Forall (fun it => dataKeys reg !! itemId it = Some (itemKey it)) items).
  { rewrite Forall_forall. intros it Hit. rewrite Hmap.
    apply elem_of_list_to_map_1.
    - rewrite <- list_fmap_compose. exact Hnd.
    - apply list_elem_of_fmap. exists it. split; [reflexivity|exact Hit]. }
  assert (He : (if (0 <? length sk)%nat then XORBlock sk iv sanityText
                else inr sanityText) = (inr e : error + list byte)
               /\ (if (0 <? length sk)%nat then XORBlock sk iv e
                   else inr e) = (inr sanityText : error + list byte)
               /\ length e = length sanityText).
  { unfold sanityAs in Hsan. destruct (0 <? length sk)%nat.
    - destruct Hsan as (H1 & H2 & H3). rewrite H1, H2. done.
    - subst e. done. }
  destruct He as (Henc & Hdec & Hlen).
  destruct (buildLoop_items items
              (S (length ((iv ++ e) ++ concat (itemFrame <$> items))))
              (iv ++ e) (newKeyRegistry sk) Hok Hsorted)
    as (last & next & Hloop).
  { rewrite !length_app.
    assert (Hfr : (length items <= length (concat (itemFrame <$> items)))%nat).
    { clear. induction items as [|it rest IH]; [cbn; lia|].
      rewrite fmap_cons, concat_cons, length_app. unfold itemFrame at 1.
      rewrite length_app, length_lenCrcBuf. cbn [length]. lia. }
    lia. }
  unfold RewriteRegistry. rewrite Henc.
  destruct (storeAll_items items (mkRegFile (iv ++ e) []) (dataKeys reg)
              Hok Hnd Hlook) as [keys' Hstore].
  rewrite Hstore. cbn [rf_bytes rf_synced].
  eexists _, _, _. split; [reflexivity|].
  unfold OpenKeyRegistry, FileSync. cbn [dKeyRegistry rf_bytes fd_file].
  unfold buildKeyRegistry. cbn [rf_bytes fd_file].
  rewrite <- (app_assoc iv e).
  pose proof (ReadAt_middle' [] iv (e ++ concat (itemFrame <$> items))
                0 aes_BlockSize eq_refl) as Hhead.
  cbn [app] in Hhead. rewrite Hhead by (rewrite Hiv; reflexivity). clear Hhead.
  rewrite (ReadAt_middle' iv e (concat (itemFrame <$> items)))
    by (rewrite ?Hiv, ?Hlen; reflexivity).
  rewrite Hdec. rewrite bool_decide_eq_true_2 by reflexivity. cbn [negb].
  replace (aes_BlockSize + Z.of_nat (length sanityText))
    with (Z.of_nat (length (iv ++ e)))
    by (rewrite length_app, Hiv, Hlen; reflexivity).
  rewrite (app_assoc iv e).
  rewrite Hloop. split; [reflexivity|].
  cbn [dataKeys newKeyRegistry].
  rewrite (fold_insertKey items ∅ Hnd), (right_id_L ∅ (∪)), Hmap. reflexivity.
Qed.

End RoundTrip.

(** The two sample keys, a storage key of 16 bytes, ascending order: the
    registry that is opened after the rewrite has both keys under their
    ids, with their material in clear. *)
Example rewrite_then_open_ascending_example :
  exists (dir' : regDir) (reg' kr : KeyRegistry),
    @RewriteRegistry SampleKeys.registryEnv SampleKeys.emptyDir
      (SampleKeys.twoKeys SampleKeys.sk16) SampleKeys.sk16
      (inr SampleKeys.iv16) [1; 2] = (None, dir', reg')
    /\ @OpenKeyRegistry SampleKeys.registryEnv dir' false SampleKeys.sk16
         (inr SampleKeys.iv16) = (Returned kr, dir')
    /\ dataKeys kr = {[ 1 := SampleKeys.key1; 2 := SampleKeys.key2 ]}.
Proof.
  apply (@rewrite_then_open_ascending SampleKeys.registryEnv SampleKeys.sk16
           SampleKeys.emptyDir (SampleKeys.twoKeys SampleKeys.sk16)
           [SampleKeys.storedItem SampleKeys.sk16 SampleKeys.key1;
            SampleKeys.storedItem SampleKeys.sk16 SampleKeys.key2]
           SampleKeys.iv16 (SampleKeys.storedSanity SampleKeys.sk16 SampleKeys.iv16)
           false (inr SampleKeys.iv16)).
  - reflexivity.
  - repeat constructor; vm_compute; congruence.
  - repeat constructor.
  - reflexivity.
  - vm_compute. repeat split.
Qed.

(** * Further properties of the code *)

(** ** The iterator, continued *)

Section IteratorMore.
Context {RE : RecordEnv}.

(** What one call of [iterateEntries] yields when it reports an error:
    no entries, a zero timestamp, and [validOffset] where it was. *)
Lemma iterateEntries_loop_error (ahead : list Entry) :
  forall (it : logIterator) (commitTs : Z) (entries : list Entry) (err : error),
    snd (fst (iterateEntries_loop ahead it commitTs entries)) = Some err ->
    fst (fst (fst (iterateEntries_loop ahead it commitTs entries))) = []
    /\ snd (fst (fst (iterateEntries_loop ahead it commitTs entries))) = 0
    /\ validOffset (snd (iterateEntries_loop ahead it commitTs entries))
       = validOffset it.
Proof.
  induction ahead as [|raw rest IH]; intros it commitTs entries err.
  - cbn. intros _. repeat split.
  - cbn [iterateEntries_loop].
    destruct (0 <? Z.land (meta (set_offset raw (recordOffset it))) bitTxn).
    + destruct (negb _); [cbn; intros _; repeat split|].
      intros H. apply IH in H as (H1 & H2 & H3). repeat split; assumption.
    + destruct (0 <? Z.land (meta (set_offset raw (recordOffset it))) bitFinTxn).
      * destruct (Wire.ParseUint _) as [txnTs|]; [|cbn; intros _; repeat split].
        destruct (commitTs =? txnTs); cbn; [discriminate|intros _; repeat split].
      * intros H. apply IH in H as (H1 & H2 & H3). repeat split; assumption.
Qed.

(** X1. Whenever [iterateEntries] reports an error, be it the end of the
    file, a truncation or a mismatch inside a transaction, the batch it
    returns is empty, the commit timestamp is zero and the valid offset
    of the iterator has not moved. *)
Theorem iterateEntries_error_clears_batch (it : logIterator) (err : error) :
  snd (fst (iterateEntries it)) = Some err ->
  fst (fst (fst (iterateEntries it))) = []
  /\ snd (fst (fst (iterateEntries it))) = 0
  /\ validOffset (snd (iterateEntries it)) = validOffset it.
Proof. apply iterateEntries_loop_error. Qed.

Lemma iterateEntries_loop_batch_ts (ahead : list Entry) :
  forall (it : logIterator) (commitTs : Z) (entries : list Entry),
    Forall (fun e => ParseTs (Key e) = commitTs \/ ParseTs (Key e) = 0) entries ->
    (commitTs = 0 -> Forall (fun e => ParseTs (Key e) = 0) entries) ->
    snd (fst (iterateEntries_loop ahead it commitTs entries)) = None ->
    let r := fst (iterateEntries_loop ahead it commitTs entries) in
    Forall (fun e => ParseTs (Key e) = snd (fst r) \/ ParseTs (Key e) = 0)
      (fst (fst r)).
Proof.
  induction ahead as [|raw rest IH]; intros it commitTs entries Hall Hzero.
  - cbn. discriminate.
  - cbn [iterateEntries_loop].
    destruct (0 <? Z.land (meta (set_offset raw (recordOffset it))) bitTxn).
    + change (Key (set_offset raw (recordOffset it))) with (Key raw).
      destruct (Z.eqb_spec commitTs 0) as [H0|H0].
      * rewrite Z.eqb_refl. cbn [negb]. apply IH.
        -- apply Forall_app. split.
           ++ eapply Forall_impl; [exact (Hzero H0)|]. cbn. intros; right; assumption.
           ++ constructor; [left; reflexivity|constructor].
        -- intros Hts. apply Forall_app. split; [exact (Hzero H0)|].
           constructor; [exact Hts|constructor].
      * destruct (Z.eqb_spec commitTs (ParseTs (Key raw))) as [Heq|Hne];
          cbn [negb]; [|cbn; discriminate].
        apply IH.
        -- apply Forall_app. split; [exact Hall|].
           constructor; [left; symmetry; exact Heq|constructor].
        -- intros; contradiction.
    + destruct (0 <? Z.land (meta (set_offset raw (recordOffset it))) bitFinTxn).
      * destruct (Wire.ParseUint _) as [txnTs|]; [|cbn; discriminate].
        destruct (commitTs =? txnTs); cbn; [|discriminate].
        intros _. exact Hall.
      * apply IH; assumption.
Qed.

(** X2. In a batch that [iterateEntries] returns without error every
    entry carries the transaction bit, and the timestamp in its key is
    the commit timestamp of the batch or zero (a zero timestamp never
    seeds the commit timestamp, so entries with it pass the check). *)
Theorem iterateEntries_batch_one_transaction (it : logIterator) :
  snd (fst (iterateEntries it)) = None ->
  Forall (fun e =>
            (0 <? Z.land (meta e) bitTxn) = true
            /\ (ParseTs (Key e) = snd (fst (fst (iterateEntries it)))
                \/ ParseTs (Key e) = 0))
    (fst (fst (fst (iterateEntries it)))).
Proof.
  intros Hok. apply Forall_and. split.
  - apply iterateEntries_loop_batch_txn. constructor.
  - apply (iterateEntries_loop_batch_ts (pending it) it 0 []);
      [constructor|intros; constructor|exact Hok].
Qed.

End IteratorMore.

Lemma iterateEntries_error_clears_batch_witness :
  snd (fst (@iterateEntries Sample.recordEnv SampleMore.mixed)) = Some errTruncate
  /\ fst (fst (fst (@iterateEntries Sample.recordEnv SampleMore.mixed))) = []
  /\ snd (fst (fst (@iterateEntries Sample.recordEnv SampleMore.mixed))) = 0
  /\ validOffset (snd (@iterateEntries Sample.recordEnv SampleMore.mixed))
     = validOffset SampleMore.mixed.
Proof.
  split; [reflexivity|].
  exact (@iterateEntries_error_clears_batch Sample.recordEnv SampleMore.mixed
           errTruncate eq_refl).
Defined.

Lemma iterateEntries_batch_one_transaction_witness :
  snd (fst (@iterateEntries Sample.recordEnv SampleMore.twoBatches)) = None
  /\ Forall (fun e =>
               (0 <? Z.land (meta e) (@bitTxn Sample.recordEnv)) = true
               /\ (@ParseTs Sample.recordEnv (Key e)
                   = snd (fst (fst (@iterateEntries Sample.recordEnv
                                      SampleMore.twoBatches)))
                   \/ @ParseTs Sample.recordEnv (Key e) = 0))
       (fst (fst (fst (@iterateEntries Sample.recordEnv SampleMore.twoBatches)))).
Proof.
  split; [reflexivity|].
  exact (@iterateEntries_batch_one_transaction Sample.recordEnv
           SampleMore.twoBatches eq_refl).
Defined.

Section IteratorOffsets.
Context {RE : RecordEnv}.

Lemma wrap32_add_wrap32 (a b : Z) :
  Wire.wrap32 (Wire.wrap32 a + b) = Wire.wrap32 (a + b).
Proof. unfold Wire.wrap32. apply Zplus_mod_idemp_l. Qed.

Lemma iterateEntries_loop_consumes (ahead : list Entry) :
  forall (it : logIterator) (commitTs : Z) (entries : list Entry),
    0 <= recordOffset it < 2 ^ 32 ->
    let r := iterateEntries_loop ahead it commitTs entries in
    exists consumed : list Entry,
      ahead = consumed ++ pending (snd r)
      /\ recordOffset (snd r)
         = Wire.wrap32 (recordOffset it + foldr Z.add 0 (entryLen <$> consumed))
      /\ (snd (fst r) = None ->
          consumed <> [] /\ validOffset (snd r) = recordOffset (snd r)).
Proof.
  induction ahead as [|raw rest IH]; intros it commitTs entries Hrange.
  - exists []. cbn. rewrite Z.add_0_r. unfold Wire.wrap32.
    rewrite Z.mod_small by exact Hrange. repeat split; discriminate.
  - cbn [iterateEntries_loop].
    change (entryLen (set_offset raw (recordOffset it))) with (entryLen raw).
    set (it' := mkIter (itPath it) (Wire.wrap32 (recordOffset it + entryLen raw))
                  (validOffset it) rest (final it)).
    assert (Hrange' : 0 <= recordOffset it' < 2 ^ 32).
    { cbn. unfold Wire.wrap32. apply Z.mod_pos_bound. lia. }
    assert (Hstop : forall res : list Entry * Z * option error,
               snd res <> None ->
               exists consumed : list Entry,
                 raw :: rest = consumed ++ pending (snd (res, it'))
                 /\ recordOffset (snd (res, it'))
                    = Wire.wrap32 (recordOffset it
                                   + foldr Z.add 0 (entryLen <$> consumed))
                 /\ (snd (fst (res, it')) = None ->
                     consumed <> []
                     /\ validOffset (snd (res, it')) = recordOffset (snd (res, it')))).
    { intros res Hres. exists [raw]. cbn. rewrite Z.add_0_r.
      repeat split; intros; contradiction. }
    assert (Hgo : forall ts es,
               exists consumed : list Entry,
                 raw :: rest
                 = consumed ++ pending (snd (iterateEntries_loop rest it' ts es))
                 /\ recordOffset (snd (iterateEntries_loop rest it' ts es))
                    = Wire.wrap32 (recordOffset it
                                   + foldr Z.add 0 (entryLen <$> consumed))
                 /\ (snd (fst (iterateEntries_loop rest it' ts es)) = None ->
                     consumed <> []
                     /\ validOffset (snd (iterateEntries_loop rest it' ts es))
                        = recordOffset (snd (iterateEntries_loop rest it' ts es)))).
    { intros ts es. destruct (IH it' ts es Hrange') as (consumed & Heq & Hoff & Hok).
      exists (raw :: consumed). split; [cbn; f_equal; exact Heq|]. split.
      - rewrite Hoff. cbn [recordOffset it' fmap list_fmap foldr].
        rewrite wrap32_add_wrap32. f_equal. lia.
      - intros H. split; [discriminate|]. apply Hok. exact H. }
    destruct (0 <? Z.land (meta (set_offset raw (recordOffset it))) bitTxn).
    + destruct (negb _); [apply Hstop; discriminate|apply Hgo].
    + destruct (0 <? Z.land (meta (set_offset raw (recordOffset it))) bitFinTxn);
        [|apply Hgo].
      destruct (Wire.ParseUint _) as [txnTs|]; [|apply Hstop; discriminate].
      destruct (commitTs =? txnTs); [|apply Hstop; discriminate].
      exists [raw]. cbn. rewrite Z.add_0_r. repeat split. discriminate.
Qed.

(** X3. One call of [iterateEntries] consumes a prefix of the records
    ahead and moves the record offset by the sum of their lengths, modulo
    2^32.  When it returns a batch the prefix is not empty and the valid
    offset is the record offset reached, just behind the end marker. *)
Theorem iterateEntries_offsets (it : logIterator) :
  0 <= recordOffset it < 2 ^ 32 ->
  exists consumed : list Entry,
    pending it = consumed ++ pending (snd (iterateEntries it))
    /\ recordOffset (snd (iterateEntries it))
       = Wire.wrap32 (recordOffset it + foldr Z.add 0 (entryLen <$> consumed))
    /\ (snd (fst (iterateEntries it)) = None ->
        consumed <> []
        /\ validOffset (snd (iterateEntries it))
           = recordOffset (snd (iterateEntries it))).
Proof. apply iterateEntries_loop_consumes. Qed.

End IteratorOffsets.

Lemma iterateEntries_offsets_witness :
  0 <= recordOffset SampleMore.twoBatches < 2 ^ 32
  /\ exists consumed : list Entry,
       pending SampleMore.twoBatches
       = consumed
         ++ pending (snd (@iterateEntries Sample.recordEnv SampleMore.twoBatches))
       /\ recordOffset (snd (@iterateEntries Sample.recordEnv SampleMore.twoBatches))
          = Wire.wrap32 (recordOffset SampleMore.twoBatches
                         + foldr Z.add 0 (entryLen <$> consumed))
       /\ (snd (fst (@iterateEntries Sample.recordEnv SampleMore.twoBatches)) = None ->
           consumed <> []
           /\ validOffset (snd (@iterateEntries Sample.recordEnv
                                  SampleMore.twoBatches))
              = recordOffset (snd (@iterateEntries Sample.recordEnv
                                     SampleMore.twoBatches))).
Proof.
  assert (H : 0 <= recordOffset SampleMore.twoBatches < 2 ^ 32)
    by (simpl; lia).
  split; [exact H|].
  exact (@iterateEntries_offsets Sample.recordEnv SampleMore.twoBatches H).
Defined.

(** ** The replayer, continued *)

Section ReplayMore.
Context {RE : RecordEnv}.
Variable lp : logReplayer.
Variable replayFn : logEntry.

Lemma iterateEntries_loop_pending (ahead : list Entry) :
  forall (it : logIterator) (commitTs : Z) (entries : list Entry),
    let r := iterateEntries_loop ahead it commitTs entries in
    (length (pending (snd r)) <= length ahead)%nat
    /\ (snd (fst r) = None -> (length (pending (snd r)) < length ahead)%nat).
Proof.
  induction ahead as [|raw rest IH]; intros it commitTs entries.
  - cbn. split; [lia|discriminate].
  - cbn [iterateEntries_loop].
    set (it' := mkIter _ _ _ rest _).
    assert (Hgo : forall ts es,
               (length (pending (snd (iterateEntries_loop rest it' ts es)))
                <= length (raw :: rest))%nat
               /\ (snd (fst (iterateEntries_loop rest it' ts es)) = None ->
                   (length (pending (snd (iterateEntries_loop rest it' ts es)))
                    < length (raw :: rest))%nat)).
    { intros ts es. destruct (IH it' ts es) as [H1 H2]. cbn [length].
      split; [lia|]. intros _. lia. }
    destruct (0 <? Z.land _ bitTxn).
    + destruct (negb _); [cbn; split; [lia|discriminate]|apply Hgo].
    + destruct (0 <? Z.land _ bitFinTxn); [|apply Hgo].
      destruct (Wire.ParseUint _) as [txnTs|]; [|cbn; split; [lia|discriminate]].
      destruct (commitTs =? txnTs); cbn; split; try lia; discriminate.
Qed.

Lemma iterateEntries_pending (it : logIterator) :
  (length (pending (snd (iterateEntries it))) <= length (pending it))%nat
  /\ (snd (fst (iterateEntries it)) = None ->
      (length (pending (snd (iterateEntries it))) < length (pending it))%nat).
Proof. apply iterateEntries_loop_pending. Qed.

Lemma advanceWal_continue (st st' : replayVars) :
  advanceWal lp st = Continue st' ->
  (currentWalIndex st' = S (currentWalIndex st)
   /\ currentWalIndex st' < length (walIDs lp)
   /\ currentVlogIndex st' = currentVlogIndex st)%nat
  /\ rDisk st' = rDisk st.
Proof.
  unfold advanceWal.
  destruct (isTruncateNeeded _ _ _) as [[|] [err|]]; try discriminate.
  destruct (fd_Close _) as [err|closed]; [discriminate|].
  match goal with |- context [if ?b then _ else _] => destruct b end;
    [discriminate|].
  cbn -[logFile_open newLogIterator iterateEntries].
  destruct (walIDs lp !! S (cIndex (rWal st))) as [id|] eqn:Hid; [|discriminate].
  cbn -[logFile_open newLogIterator iterateEntries].
  destruct (logFile_open _ _ _) as [err|opened]; [discriminate|].
  destruct (fileOffset opened <? vlogHeaderSize); [discriminate|].
  cbn -[newLogIterator iterateEntries].
  destruct (newLogIterator _ _ _) as [err|it]; [discriminate|].
  intros H. injection H as <-.
  apply lookup_lt_Some in Hid.
  unfold currentWalIndex, currentVlogIndex. cbn. repeat split. exact Hid.
Qed.

Lemma advanceVlog_continue (st st' : replayVars) :
  advanceVlog lp st = Continue st' ->
  (currentVlogIndex st' = S (currentVlogIndex st)
   /\ currentVlogIndex st' < length (walIDs lp)
   /\ currentWalIndex st' = currentWalIndex st)%nat
  /\ rDisk st' = rDisk st.
Proof.
  unfold advanceVlog.
  destruct (isTruncateNeeded _ _ _) as [[|] [err|]]; try discriminate.
  destruct (fd_Close _) as [err|closed]; [discriminate|].
  match goal with |- context [if ?b then _ else _] => destruct b end;
    [discriminate|].
  cbn -[logFile_open newLogIterator iterateEntries].
  destruct (walIDs lp !! S (cIndex (rVlog st))) as [id|] eqn:Hid; [|discriminate].
  cbn -[logFile_open newLogIterator iterateEntries].
  destruct (logFile_open _ _ _) as [err|opened]; [discriminate|].
  destruct (fileOffset opened <? vlogHeaderSize); [discriminate|].
  cbn -[newLogIterator iterateEntries].
  apply lookup_lt_Some in Hid.
  destruct (newLogIterator _ _ _) as [err|it];
    intros H; injection H as <-;
    unfold currentWalIndex, currentVlogIndex; cbn; repeat split; exact Hid.
Qed.

Lemma replayBatch_continue (st st' : replayVars) :
  replayBatch replayFn st = Continue st' ->
  currentWalIndex st' = currentWalIndex st
  /\ currentVlogIndex st' = currentVlogIndex st
  /\ rDisk st' = rDisk st
  /\ (length (pending (walIterator st')) <= length (pending (walIterator st)))%nat
  /\ (walErr st' = None -> vlogErr st' = None ->
      (S (length (pending (walIterator st')))
       < length (pending (walIterator st)))%nat).
Proof.
  intros H.
  destruct (replayBatch_reads_wal_twice lp replayFn st st' H)
    as (_ & Hw & Hv & Hit).
  pose proof (iterateEntries_pending (walIterator st)) as [Hle1 Hlt1].
  pose proof (iterateEntries_pending (snd (iterateEntries (walIterator st))))
    as [Hle2 Hlt2].
  assert (Hwe : walErr st' = snd (fst (iterateEntries (walIterator st))))
    by (rewrite <- Hw; reflexivity).
  assert (Hve : vlogErr st'
                = snd (fst (iterateEntries (snd (iterateEntries (walIterator st))))))
    by (rewrite <- Hv; reflexivity).
  rewrite Hit.
  assert (Hidx : currentWalIndex st' = currentWalIndex st
                 /\ currentVlogIndex st' = currentVlogIndex st
                 /\ rDisk st' = rDisk st).
  { revert H. unfold replayBatch.
    destruct (replayAll replayFn _ (walEntries st) (rTrace st)) as [[e1|] tr1];
      [discriminate|].
    destruct (replayAll replayFn _ (vlogEntries st) tr1) as [[e2|] tr2];
      [discriminate|].
    intros H. injection H as <-. repeat split. }
  destruct Hidx as (H1 & H2 & H3). repeat split; try assumption; try lia.
  intros Hn1 Hn2. rewrite Hwe in Hn1. rewrite Hve in Hn2.
  specialize (Hlt1 Hn1). specialize (Hlt2 Hn2). lia.
Qed.

(** Every turn of the loop that goes on either advances an index or
    leaves less of the WAL to read. *)
Lemma replay_step_decreases (st st' : replayVars) :
  replay_step lp replayFn st = Continue st' ->
  (idsLeft lp st' < idsLeft lp st)%nat
  \/ (idsLeft lp st' = idsLeft lp st /\ batchesLeft st' < batchesLeft st)%nat.
Proof.
  unfold replay_step.
  destruct (decide _) as [_|Hnt]; [discriminate|].
  destruct (decide _) as [_|Hnw].
  { intros H. apply advanceWal_continue in H as [(H1 & H2 & H3) _].
    left. unfold idsLeft. lia. }
  destruct (decide _) as [_|Hnv].
  { intros H. apply advanceVlog_continue in H as [(H1 & H2 & H3) _].
    left. unfold idsLeft. lia. }
  destruct (decide _) as [_|Hok]; [discriminate|].
  destruct (negb _); [discriminate|].
  intros H. apply replayBatch_continue in H as (H1 & H2 & _ & Hle & Hlt).
  right. unfold idsLeft, batchesLeft. rewrite H1, H2. split; [reflexivity|].
  assert (Hfree : walErr st = None /\ vlogErr st = None).
  { split.
    - destruct (walErr st); [exfalso; apply Hok; left; discriminate|reflexivity].
    - destruct (vlogErr st); [exfalso; apply Hok; right; discriminate|reflexivity]. }
  rewrite (bool_decide_eq_true_2 _ Hfree).
  destruct (bool_decide _) eqn:Hb.
  - apply bool_decide_eq_true_1 in Hb as [Hb1 Hb2].
    specialize (Hlt Hb1 Hb2). lia.
  - lia.
Qed.

Lemma replay_loop_terminates_from (a : nat) :
  forall (b : nat) (st : replayVars),
    idsLeft lp st = a -> batchesLeft st = b ->
    exists fuel : nat,
      resOutcome (replay_loop lp replayFn fuel st) <> OutOfFuel.
Proof.
  induction (lt_wf a) as [a _ IHa].
  intros b. induction (lt_wf b) as [b _ IHb].
  intros st Ha Hb.
  destruct (replay_step lp replayFn st) as [st'|st'|r st'|msg st'] eqn:Hstep.
  - destruct (replay_step_decreases st st' Hstep) as [Hlt|[Heq Hlt]].
    + destruct (IHa (idsLeft lp st') ltac:(lia) (batchesLeft st') st' eq_refl eq_refl)
        as [fuel Hfuel].
      exists (S fuel). cbn [replay_loop]. rewrite Hstep. exact Hfuel.
    + destruct (IHb (batchesLeft st') ltac:(lia) st' ltac:(lia) eq_refl)
        as [fuel Hfuel].
      exists (S fuel). cbn [replay_loop]. rewrite Hstep. exact Hfuel.
  - exists 1%nat. cbn [replay_loop]. rewrite Hstep. unfold afterLoop.
    destruct (truncateNeeded st'); discriminate.
  - exists 1%nat. cbn [replay_loop]. rewrite Hstep. destruct r; discriminate.
  - exists 1%nat. cbn [replay_loop]. rewrite Hstep. discriminate.
Qed.

(** More fuel than a run needs does not change its result. *)
Lemma replay_loop_more_fuel (fuel : nat) :
  forall (st : replayVars) (k : nat),
    resOutcome (replay_loop lp replayFn fuel st) <> OutOfFuel ->
    replay_loop lp replayFn (fuel + k) st = replay_loop lp replayFn fuel st.
Proof.
  induction fuel as [|fuel IH]; intros st k Hres.
  - cbn in Hres. contradiction.
  - cbn [replay_loop Nat.add] in Hres |- *.
    destruct (replay_step lp replayFn st); try reflexivity.
    apply IH. exact Hres.
Qed.

(** X4. The loop of [replay], written [for { ... }] in the source, ends
    on every directory and with every callback: there is an amount of
    fuel with which the model returns, fails or panics, and any larger
    amount gives the same result. *)
Theorem replay_terminates (d : disk) :
  exists fuel : nat,
    resOutcome (replay lp replayFn fuel d) <> OutOfFuel
    /\ forall k : nat,
         replay lp replayFn (fuel + k) d = replay lp replayFn fuel d.
Proof.
  unfold replay. destruct (replay_init lp d) as [r|st] eqn:Hinit.
  - exists 0%nat. split; [|reflexivity].
    revert Hinit. unfold replay_init.
    repeat match goal with
           | |- context [match ?x with _ => _ end] => destruct x
           end; intros H; inversion H; discriminate.
  - destruct (replay_loop_terminates_from _ _ st eq_refl eq_refl) as [fuel Hfuel].
    exists fuel. split; [exact Hfuel|].
    intros k. apply replay_loop_more_fuel. exact Hfuel.
Qed.

End ReplayMore.

Section ReplayInvariants.
Context {RE : RecordEnv}.
Variable lp : logReplayer.
Variable replayFn : logEntry.

Ltac split_step :=
  repeat match goal with
         | |- context [match ?x with _ => _ end] =>
             lazymatch x with
             | context [match _ with _ => _ end] => fail
             | _ => destruct x
             end
         end.

(** No turn of the loop writes to the directory. *)
Lemma replay_step_disk (st : replayVars) :
  match replay_step lp replayFn st with
  | Continue st' | Break st' | Return _ st' | Panic _ st' => rDisk st' = rDisk st
  end.
Proof.
  unfold replay_step, advanceWal, advanceVlog, replayBatch.
  cbv zeta. split_step; reflexivity.
Qed.

Lemma replay_loop_disk (fuel : nat) :
  forall st : replayVars, resDisk (replay_loop lp replayFn fuel st) = rDisk st.
Proof.
  induction fuel as [|fuel IH]; intros st; [reflexivity|].
  cbn [replay_loop]. pose proof (replay_step_disk st) as H.
  destruct (replay_step lp replayFn st) as [st'|st'|[err|] st'|msg st'].
  - rewrite IH. exact H.
  - unfold afterLoop. destruct (truncateNeeded st'); exact H.
  - exact H.
  - exact H.
  - exact H.
Qed.

Lemma bootstrap_lookup (d d' : disk) (lf lf' : logFile) (p : filePath) :
  bootstrap d lf = inr (d', lf') ->
  d' !! p = d !! p
  \/ exists f : diskFile, d !! p = Some f /\ d' !! p = Some (bootstrapped f).
Proof.
  unfold bootstrap. destruct (fd_open lf); [|discriminate].
  destruct (d !! path lf) as [f|] eqn:Hf; [|discriminate].
  intros H. injection H as <- <-.
  destruct (decide (path lf = p)) as [<-|Hne].
  - right. exists f. split; [exact Hf|]. apply lookup_insert_eq.
  - left. apply lookup_insert_ne. exact Hne.
Qed.

Lemma openAndBootstrap_lookup (d d' : disk) (tr tr' : list event)
    (lf lf' : logFile) (m1 m2 : string) (p : filePath) :
  openAndBootstrap lp d tr lf m1 m2 = inr (d', tr', lf') ->
  d' !! p = d !! p
  \/ exists f : diskFile,
       d !! p = Some f /\ f_offset f < vlogHeaderSize /\ p = path lf
       /\ d' !! p = Some (bootstrapped f).
Proof.
  unfold openAndBootstrap, logFile_open.
  destruct (d !! path lf) as [f|] eqn:Hf; [|discriminate].
  unfold fileOffset. cbn [lf_offset].
  destruct (Z.ltb_spec (f_offset f) vlogHeaderSize) as [Hlt|Hge].
  - unfold bootstrap. cbn [fd_open path]. rewrite Hf.
    intros H. injection H as <- <- <-.
    destruct (decide (path lf = p)) as [<-|Hne].
    + right. exists f. repeat split; try assumption. apply lookup_insert_eq.
    + left. apply lookup_insert_ne. exact Hne.
  - intros H. injection H as <- <- <-. left. reflexivity.
Qed.

Lemma replay_init_disk (d : disk) (p : filePath) :
  let d' := match replay_init lp d with
            | inl r => resDisk r
            | inr st => rDisk st
            end in
  d' !! p = d !! p
  \/ exists (f : diskFile) (id : Z),
       d !! p = Some f /\ f_offset f < vlogHeaderSize
       /\ (p = vlogFilePath id /\ vlogIDs lp !! 0%nat = Some id
           \/ p = walFilePath id /\ walIDs lp !! 0%nat = Some id)
       /\ d' !! p = Some (bootstrapped f).
Proof.
  unfold replay_init.
  destruct (length (walIDs lp) =? 0)%nat; [left; reflexivity|].
  destruct (vlogIDs lp !! 0%nat) as [vid|] eqn:Hvid; [|left; reflexivity].
  destruct (openAndBootstrap lp d [] _ _ _) as [[err tr]|[[d1 tr1] vlogF]] eqn:Hv;
    [left; reflexivity|].
  pose proof (openAndBootstrap_lookup _ _ _ _ _ _ _ _ p Hv) as Hd1.
  assert (Hres1 : d1 !! p = d !! p
                  \/ exists (f : diskFile) (id : Z),
                       d !! p = Some f /\ f_offset f < vlogHeaderSize
                       /\ (p = vlogFilePath id /\ Some vid = Some id
                           \/ p = walFilePath id /\ walIDs lp !! 0%nat = Some id)
                       /\ d1 !! p = Some (bootstrapped f)).
  { destruct Hd1 as [Hd1|(f & Hf & Hlt & Hp & Hb)]; [left; exact Hd1|].
    right. exists f, vid. repeat split; try assumption. left. split; [exact Hp|reflexivity]. }
  destruct (newLogIterator d1 vlogF _) as [err|vlogIt]; [exact Hres1|].
  destruct (walIDs lp !! 0%nat) as [wid|] eqn:Hwid; [|exact Hres1].
  destruct (openAndBootstrap lp d1 _ _ _ _) as [[err tr]|[[d2 tr2] walF]] eqn:Hw;
    [exact Hres1|].
  pose proof (openAndBootstrap_lookup _ _ _ _ _ _ _ _ p Hw) as Hd2.
  assert (Hres2 : d2 !! p = d !! p
                  \/ exists (f : diskFile) (id : Z),
                       d !! p = Some f /\ f_offset f < vlogHeaderSize
                       /\ (p = vlogFilePath id /\ Some vid = Some id
                           \/ p = walFilePath id /\ Some wid = Some id)
                       /\ d2 !! p = Some (bootstrapped f)).
  { destruct Hd2 as [Hd2|(f & Hf & Hlt & Hp & Hb)].
    - rewrite Hd2. exact Hres1.
    - cbn [path] in Hp.
      destruct Hd1 as [Hd1|(f1 & _ & _ & Hp1 & _)].
      + right. exists f, wid. rewrite <- Hd1. repeat split; try assumption.
        right. split; [exact Hp|reflexivity].
      + cbn [path] in Hp1. rewrite Hp in Hp1. discriminate. }
  destruct (newLogIterator d2 walF _) as [err|walIt]; exact Hres2.
Qed.

(** X5. [replay] never removes, creates or truncates a file.  The only
    change it makes to the directory is the bootstrap of the first vlog
    file and of the first WAL file, and of each only when the append
    cursor that [open] reports is below the header size; every other file
    is found afterwards exactly as it was, whatever the outcome. *)
Theorem replay_only_bootstraps (fuel : nat) (d : disk) (p : filePath) :
  resDisk (replay lp replayFn fuel d) !! p = d !! p
  \/ exists (f : diskFile) (id : Z),
       d !! p = Some f /\ f_offset f < vlogHeaderSize
       /\ (p = vlogFilePath id /\ vlogIDs lp !! 0%nat = Some id
           \/ p = walFilePath id /\ walIDs lp !! 0%nat = Some id)
       /\ resDisk (replay lp replayFn fuel d) !! p = Some (bootstrapped f).
Proof.
  pose proof (replay_init_disk d p) as H. cbv zeta in H.
  unfold replay. destruct (replay_init lp d) as [r|st]; [exact H|].
  rewrite replay_loop_disk. exact H.
Qed.

(** Both indices stay inside [walIDs], the list they are read from. *)
Lemma replay_step_indices (st st' : replayVars) :
  replay_step lp replayFn st = Continue st' ->
  (currentWalIndex st < length (walIDs lp))%nat ->
  (currentVlogIndex st < length (walIDs lp))%nat ->
  (currentWalIndex st' < length (walIDs lp))%nat
  /\ (currentVlogIndex st' < length (walIDs lp))%nat.
Proof.
  unfold replay_step.
  destruct (decide _) as [_|_]; [discriminate|].
  destruct (decide _) as [_|_].
  { intros H Hw Hv. apply advanceWal_continue in H as [(H1 & H2 & H3) _]. lia. }
  destruct (decide _) as [_|_].
  { intros H Hw Hv. apply advanceVlog_continue in H as [(H1 & H2 & H3) _]. lia. }
  destruct (decide _) as [_|_]; [discriminate|].
  destruct (negb _); [discriminate|].
  intros H Hw Hv. apply (replayBatch_continue lp) in H as (H1 & H2 & _). lia.
Qed.

(** The loop is only left with [truncateNeeded] set, as long as the vlog
    index cannot run past the vlog ids. *)
Lemma replay_step_break (st st' : replayVars) :
  replay_step lp replayFn st = Break st' ->
  (length (walIDs lp) <= S (length (vlogIDs lp)))%nat ->
  (currentWalIndex st < length (walIDs lp))%nat ->
  (currentVlogIndex st < length (walIDs lp))%nat ->
  truncateNeeded st' = true.
Proof.
  intros Hstep Hlen Hw Hv. revert Hstep. unfold replay_step.
  destruct (decide _) as [_|_]; [intros H; injection H as <-; reflexivity|].
  destruct (decide _) as [_|_].
  { unfold advanceWal.
    destruct (isTruncateNeeded _ _ _) as [[|] [err|]]; try discriminate;
      [intros H; injection H as <-; reflexivity|].
    destruct (fd_Close _) as [err|closed]; [discriminate|].
    cbn -[logFile_open newLogIterator iterateEntries Nat.ltb].
    destruct (Nat.ltb_spec (length (walIDs lp)) (cIndex (rWal st))) as [Hlt|_].
    { unfold currentWalIndex in Hw. lia. }
    destruct (walIDs lp !! S (cIndex (rWal st))) as [id|]; [|discriminate].
    cbn -[logFile_open newLogIterator iterateEntries].
    destruct (logFile_open _ _ _) as [err|opened]; [discriminate|].
    destruct (fileOffset opened <? vlogHeaderSize);
      [intros H; injection H as <-; reflexivity|].
    cbn -[newLogIterator iterateEntries].
    destruct (newLogIterator _ _ _); discriminate. }
  destruct (decide _) as [_|_].
  { unfold advanceVlog.
    destruct (isTruncateNeeded _ _ _) as [[|] [err|]]; try discriminate;
      [intros H; injection H as <-; reflexivity|].
    destruct (fd_Close _) as [err|closed]; [discriminate|].
    cbn -[logFile_open newLogIterator iterateEntries Nat.ltb].
    destruct (Nat.ltb_spec (length (vlogIDs lp)) (cIndex (rVlog st))) as [Hlt|_].
    { unfold currentVlogIndex in Hv. lia. }
    destruct (walIDs lp !! S (cIndex (rVlog st))) as [id|]; [|discriminate].
    cbn -[logFile_open newLogIterator iterateEntries].
    destruct (logFile_open _ _ _) as [err|opened]; [discriminate|].
    destruct (fileOffset opened <? vlogHeaderSize);
      [intros H; injection H as <-; reflexivity|].
    cbn -[newLogIterator iterateEntries].
    destruct (newLogIterator _ _ _); discriminate. }
  destruct (decide _) as [_|_]; [discriminate|].
  destruct (negb _); [intros H; injection H as <-; reflexivity|].
  unfold replayBatch.
  destruct (replayAll replayFn _ (walEntries st) (rTrace st)) as [[e1|] tr1];
    [discriminate|].
  destruct (replayAll replayFn _ (vlogEntries st) tr1) as [[e2|] tr2];
    discriminate.
Qed.

(** Whenever a turn of the loop returns, it returns an error. *)
Lemma replay_step_return (st st' : replayVars) (r : option error) :
  replay_step lp replayFn st = Return r st' -> r <> None.
Proof.
  unfold replay_step, advanceWal, advanceVlog, replayBatch. cbv zeta.
  split_step; intros H; inversion H; discriminate.
Qed.

Lemma replay_loop_never_succeeds (fuel : nat) :
  forall st : replayVars,
    (length (walIDs lp) <= S (length (vlogIDs lp)))%nat ->
    (currentWalIndex st < length (walIDs lp))%nat ->
    (currentVlogIndex st < length (walIDs lp))%nat ->
    resOutcome (replay_loop lp replayFn fuel st) <> Returned tt.
Proof.
  induction fuel as [|fuel IH]; intros st Hlen Hw Hv; [discriminate|].
  cbn [replay_loop].
  destruct (replay_step lp replayFn st) as [st'|st'|r st'|msg st'] eqn:Hstep.
  - destruct (replay_step_indices st st' Hstep Hw Hv) as [Hw' Hv'].
    apply IH; assumption.
  - unfold afterLoop.
    rewrite (replay_step_break st st' Hstep Hlen Hw Hv). discriminate.
  - pose proof (replay_step_return st st' r Hstep) as Hr.
    destruct r; [discriminate|contradiction].
  - discriminate.
Qed.

(** X6. With at least one WAL file to replay, and no more WAL ids than
    vlog ids plus one, [replay] never returns success: for every
    directory and every callback it fails, panics, or, in the model, is
    still running when the fuel is used up.  (The loop has no exit for a
    finished replay: the guards on the indices never hold, and every
    other way out sets [truncateNeeded] or returns an error.) *)
Theorem replay_with_wal_never_succeeds (fuel : nat) (d : disk) :
  walIDs lp <> [] ->
  (length (walIDs lp) <= S (length (vlogIDs lp)))%nat ->
  resOutcome (replay lp replayFn fuel d) <> Returned tt.
Proof.
  intros Hne Hlen. unfold replay.
  destruct (replay_init lp d) as [r|st] eqn:Hinit.
  - revert Hinit. unfold replay_init, openAndBootstrap.
    destruct (walIDs lp) as [|w ws]; [contradiction|]. cbn [length Nat.eqb].
    cbv zeta. split_step; intros H; inversion H; discriminate.
  - assert (Hidx : currentWalIndex st = 0%nat /\ currentVlogIndex st = 0%nat).
    { revert Hinit. unfold replay_init, openAndBootstrap. cbv zeta.
      split_step; intros H; inversion H; split; reflexivity. }
    destruct Hidx as [Hw Hv].
    assert (0 < length (walIDs lp))%nat
      by (destruct (walIDs lp); [contradiction|cbn; lia]).
    apply replay_loop_never_succeeds; [exact Hlen|lia|lia].
Qed.

End ReplayInvariants.

Lemma replay_with_wal_never_succeeds_witness :
  walIDs Sample.lockstepReplayer <> []
  /\ (length (walIDs Sample.lockstepReplayer)
      <= S (length (vlogIDs Sample.lockstepReplayer)))%nat
  /\ resOutcome (@replay Sample.recordEnv Sample.lockstepReplayer
                   Sample.acceptAll 10 Sample.lockstep) <> Returned tt.
Proof.
  assert (H1 : walIDs Sample.lockstepReplayer <> []) by discriminate.
  assert (H2 : (length (walIDs Sample.lockstepReplayer)
                <= S (length (vlogIDs Sample.lockstepReplayer)))%nat)
    by (simpl; lia).
  split; [exact H1|]. split; [exact H2|].
  exact (@replay_with_wal_never_succeeds Sample.recordEnv
           Sample.lockstepReplayer Sample.acceptAll 10 Sample.lockstep H1 H2).
Defined.

Section ReplayCallback.
Context {RE : RecordEnv}.
Variable lp : logReplayer.
Variable replayFn : logEntry.

Ltac split_step :=
  repeat match goal with
         | |- context [match ?x with _ => _ end] =>
             lazymatch x with
             | context [match _ with _ => _ end] => fail
             | _ => destruct x
             end
         end.

Lemma allAccepted_nil : allAccepted replayFn [].
Proof. intros e vp Hin. exfalso. eapply not_elem_of_nil. exact Hin. Qed.

Lemma allAccepted_snoc (tr : list event) (ev : event) :
  allAccepted replayFn tr ->
  match ev with EvReplayFn e vp => replayFn e vp = None | _ => True end ->
  allAccepted replayFn (tr ++ [ev]).
Proof.
  intros Htr Hev e vp Hin.
  apply elem_of_app in Hin as [Hin|Hin]; [apply Htr; exact Hin|].
  apply list_elem_of_singleton in Hin. subst ev. exact Hev.
Qed.

Lemma allAccepted_app (tr tr' : list event) :
  allAccepted replayFn tr -> allAccepted replayFn tr' ->
  allAccepted replayFn (tr ++ tr').
Proof.
  intros H1 H2 e vp Hin.
  apply elem_of_app in Hin as [Hin|Hin]; [apply H1|apply H2]; exact Hin.
Qed.

Lemma allAccepted_no_calls (tr : list event) :
  Forall (fun ev => match ev with EvReplayFn _ _ => False | _ => True end) tr ->
  allAccepted replayFn tr.
Proof.
  intros Hall e vp Hin. rewrite Forall_forall in Hall.
  exfalso. exact (Hall _ Hin).
Qed.

(** The calls of one [range] loop: all accepted, or all accepted but the
    last, whose error is returned. *)
Lemma replayAll_calls (vpOf : Entry -> valuePointer) (entries : list Entry) :
  forall tr : list event,
    allAccepted replayFn tr ->
    match replayAll replayFn vpOf entries tr with
    | (None, tr') => allAccepted replayFn tr'
    | (Some err, tr') =>
        exists (tr0 : list event) (e : Entry) (vp : valuePointer),
          tr' = tr0 ++ [EvReplayFn e vp] /\ allAccepted replayFn tr0
          /\ replayFn e vp = Some err
    end.
Proof.
  induction entries as [|e rest IH]; intros tr Htr; [exact Htr|].
  cbn [replayAll]. destruct (replayFn e (vpOf e)) as [err|] eqn:Hfn.
  - exists tr, e, (vpOf e). repeat split; assumption.
  - apply IH. apply allAccepted_snoc; assumption.
Qed.

Lemma advanceWal_callback (st : replayVars) :
  allAccepted replayFn (rTrace st) ->
  match advanceWal lp st with
  | Continue st' | Break st' | Return _ st' | Panic _ st' =>
      allAccepted replayFn (rTrace st')
  end.
Proof.
  intros Htr. unfold advanceWal. cbv zeta. split_step; cbn;
    repeat (apply allAccepted_snoc; [|exact I]); exact Htr.
Qed.

Lemma advanceVlog_callback (st : replayVars) :
  allAccepted replayFn (rTrace st) ->
  match advanceVlog lp st with
  | Continue st' | Break st' | Return _ st' | Panic _ st' =>
      allAccepted replayFn (rTrace st')
  end.
Proof.
  intros Htr. unfold advanceVlog. cbv zeta. split_step; cbn;
    repeat (apply allAccepted_snoc; [|exact I]); exact Htr.
Qed.

Lemma replayBatch_callback (st : replayVars) :
  allAccepted replayFn (rTrace st) ->
  match replayBatch replayFn st with
  | Continue st' | Break st' | Panic _ st' => allAccepted replayFn (rTrace st')
  | Return None st' => allAccepted replayFn (rTrace st')
  | Return (Some err) st' => callbackOk replayFn (rTrace st') (Failed err)
  end.
Proof.
  intros Htr. unfold replayBatch.
  pose proof (replayAll_calls (fun _ => emptyPointer) (walEntries st) _ Htr) as H1.
  destruct (replayAll replayFn _ (walEntries st) (rTrace st)) as [[e1|] tr1].
  { destruct H1 as (tr0 & e & vp & Heq & Hacc & Hfn).
    right. exists tr0, e, vp, e1. repeat split; assumption. }
  pose proof (replayAll_calls (vlogPointer (fid (vlogFile st))) (vlogEntries st)
                _ H1) as H2.
  destruct (replayAll replayFn _ (vlogEntries st) tr1) as [[e2|] tr2].
  { destruct H2 as (tr0 & e & vp & Heq & Hacc & Hfn).
    right. exists tr0, e, vp, e2. repeat split; assumption. }
  cbn. repeat (apply allAccepted_snoc; [|exact I]). exact H2.
Qed.

Lemma replay_loop_callback (fuel : nat) :
  forall st : replayVars,
    allAccepted replayFn (rTrace st) ->
    callbackOk replayFn (resTrace (replay_loop lp replayFn fuel st))
      (resOutcome (replay_loop lp replayFn fuel st)).
Proof.
  induction fuel as [|fuel IH]; intros st Htr; [left; exact Htr|].
  cbn [replay_loop]. unfold replay_step.
  destruct (decide _) as [_|_]; [left; unfold afterLoop; cbn; exact Htr|].
  destruct (decide _) as [_|_].
  { pose proof (advanceWal_callback st Htr) as H.
    destruct (advanceWal lp st) as [st'|st'|[err|] st'|msg st'];
      [apply IH; exact H|left; unfold afterLoop;
                          destruct (truncateNeeded st'); exact H
      |left; exact H..]. }
  destruct (decide _) as [_|_].
  { pose proof (advanceVlog_callback st Htr) as H.
    destruct (advanceVlog lp st) as [st'|st'|[err|] st'|msg st'];
      [apply IH; exact H|left; unfold afterLoop;
                          destruct (truncateNeeded st'); exact H
      |left; exact H..]. }
  destruct (decide _) as [_|_]; [left; exact Htr|].
  destruct (negb _); [left; unfold afterLoop; cbn; exact Htr|].
  pose proof (replayBatch_callback st Htr) as H.
  destruct (replayBatch replayFn st) as [st'|st'|[err|] st'|msg st'];
    [apply IH; exact H|left; unfold afterLoop;
                        destruct (truncateNeeded st'); exact H
    |exact H|left; exact H..].
Qed.

(** X7. [replay] stops at the first entry that its callback rejects.
    Either every entry handed to the callback was accepted, or the call
    that was rejected is the last thing [replay] did and [replay] fails
    with the error of the callback, wrapped. *)
Theorem replay_stops_at_rejected_entry (fuel : nat) (d : disk) :
  callbackOk replayFn (resTrace (replay lp replayFn fuel d))
    (resOutcome (replay lp replayFn fuel d)).
Proof.
  unfold replay. destruct (replay_init lp d) as [r|st] eqn:Hinit.
  - left. revert Hinit. unfold replay_init, openAndBootstrap. cbv zeta.
    split_step; intros H; inversion H; cbn;
      apply allAccepted_no_calls; repeat constructor.
  - apply replay_loop_callback.
    revert Hinit. unfold replay_init, openAndBootstrap. cbv zeta.
    split_step; intros H; inversion H; cbn;
      apply allAccepted_no_calls; repeat constructor.
Qed.

End ReplayCallback.

(** ** The write path, continued *)

Section WriteMore.
Context {ME : ManagerEnv}.
Variable m : logManager.

Lemma writeEntries_counts (es : list Entry) :
  forall (walBuf vlogBuf : list byte) (ptrs : list valuePointer) (written : Z)
         (walBuf' vlogBuf' : list byte) (ptrs' : list valuePointer) (written' : Z),
    writeEntries m es walBuf vlogBuf ptrs written
    = inr (walBuf', vlogBuf', ptrs', written') ->
    length ptrs' = (length ptrs + length es + skipCount es)%nat
    /\ written' = written + Z.of_nat (length es).
Proof.
  induction es as [|e rest IH];
    intros walBuf vlogBuf ptrs written walBuf' vlogBuf' ptrs' written' H.
  - cbn in H. injection H as <- <- <- <-. cbn. split; lia.
  - cbn [writeEntries] in H. unfold skipCount. cbn [length].
    assert (Hskip : length (filter (fun e => skipVlog e = true) (e :: rest))
                    = ((if skipVlog e then 1 else 0)
                       + length (filter (fun e => skipVlog e = true) rest))%nat).
    { destruct (skipVlog e) eqn:Hs.
      - rewrite filter_cons_True by exact Hs. reflexivity.
      - rewrite filter_cons_False by congruence. reflexivity. }
    rewrite Hskip.
    assert (Hlen : length (if skipVlog e then ptrs ++ [emptyPointer] else ptrs)
                   = (length ptrs + (if skipVlog e then 1 else 0))%nat).
    { destruct (skipVlog e); [rewrite length_app; reflexivity|lia]. }
    destruct (shouldWriteValueToLSM e).
    + destruct (encode (wal m) e _) as [err|bytes]; [discriminate|].
      apply IH in H as [Hp Hw]. rewrite Hp, length_app, Hlen. unfold skipCount.
      cbn [length]. split; lia.
    + destruct (encode (vlog m) e _) as [err|bytes]; [discriminate|].
      apply IH in H as [Hp Hw]. rewrite Hp, length_app, Hlen. unfold skipCount.
      cbn [length]. split; lia.
Qed.

Lemma writeRequest_counts (b b' : request) (w w' : writeVars) :
  writeRequest m b w = (Returned w', b') ->
  Entries b' = Entries b
  /\ (2 <= length (Entries b))%nat
  /\ length (Ptrs b')
     = (length (Ptrs b) + length (Entries b)
        + skipCount (take (length (Entries b) - 2) (Entries b)))%nat
  /\ wEntriesWritten w'
     = Wire.wrap32 (wEntriesWritten w + Z.of_nat (length (Entries b))).
Proof.
  unfold writeRequest.
  destruct (Nat.ltb_spec (length (Entries b)) 2) as [Hlt|Hge]; [discriminate|].
  destruct (writeEntries m _ _ _ _ _) as [[err ptrs]|[[[walBuf vlogBuf] ptrs] written]]
    eqn:Hes; [discriminate|].
  apply writeEntries_counts in Hes as [Hp Hw].
  destruct (Entries b !! (length (Entries b) - 2)%nat) as [endWal|];
    [|discriminate].
  destruct (Entries b !! (length (Entries b) - 1)%nat) as [endVlog|];
    [|discriminate].
  destruct (encode (wal m) endWal _) as [err|wbytes]; [discriminate|].
  destruct (encode (vlog m) endVlog _) as [err|vbytes]; [discriminate|].
  intros H. injection H as <- <-. cbn [Entries Ptrs wEntriesWritten].
  rewrite !length_app, Hp, length_take. cbn [length].
  repeat split; try lia.
  rewrite Hw, length_take. unfold Wire.wrap32.
  rewrite Zplus_mod_idemp_r. f_equal. lia.
Qed.

Lemma writeRequests_counts (reqs : list request) :
  forall (w w' : writeVars) (reqs' : list request),
    0 <= wEntriesWritten w < 2 ^ 32 ->
    writeRequests m reqs w = (Returned w', reqs') ->
    Forall2 (fun b b' =>
               Entries b' = Entries b
               /\ (2 <= length (Entries b))%nat
               /\ length (Ptrs b')
                  = (length (Ptrs b) + length (Entries b)
                     + skipCount (take (length (Entries b) - 2) (Entries b)))%nat)
      reqs reqs'
    /\ wEntriesWritten w'
       = Wire.wrap32 (wEntriesWritten w
                      + Z.of_nat (length (concat (Entries <$> reqs)))).
Proof.
  induction reqs as [|b rest IH]; intros w w' reqs' Hrange H.
  - cbn in H. injection H as <- <-. split; [constructor|].
    cbn. rewrite Z.add_0_r. unfold Wire.wrap32.
    rewrite Z.mod_small by exact Hrange. reflexivity.
  - cbn [writeRequests] in H.
    destruct (writeRequest m b w) as [[w1| | |] b1] eqn:Hb; try discriminate;
      try (injection H as H1 H2; discriminate).
    destruct (writeRequests m rest w1) as [o rest'] eqn:Hrest.
    cbn [fst snd] in H. injection H as -> <-.
    apply writeRequest_counts in Hb as (He & H2 & Hp & Hw).
    apply IH in Hrest as [Hall Hw'];
      [|rewrite Hw; unfold Wire.wrap32; apply Z.mod_pos_bound; lia].
    split; [constructor; [repeat split; assumption|exact Hall]|].
    rewrite Hw', Hw, fmap_cons, concat_cons, length_app.
    unfold Wire.wrap32. rewrite Zplus_mod_idemp_l. f_equal. lia.
Qed.

(** X8. When [write] succeeds, every request has got one pointer for
    each of its entries, end markers included, and one more for each
    entry ahead of the end markers that is marked [skipVlog]; and
    [entriesWritten] has grown by the number of entries of all requests,
    modulo 2^32. *)
Theorem write_success_counts (reqs : list request) :
  0 <= entriesWritten m < 2 ^ 32 ->
  wrOutcome (write m reqs) = Returned tt ->
  Forall2 (fun b b' =>
             Entries b' = Entries b
             /\ (2 <= length (Entries b))%nat
             /\ length (Ptrs b')
                = (length (Ptrs b) + length (Entries b)
                   + skipCount (take (length (Entries b) - 2) (Entries b)))%nat)
    reqs (wrReqs (write m reqs))
  /\ entriesWritten (wrManager (write m reqs))
     = Wire.wrap32 (entriesWritten m
                    + Z.of_nat (length (concat (Entries <$> reqs)))).
Proof.
  intros Hrange. unfold write.
  destruct (writeRequests m reqs _) as [[w| | |] reqs'] eqn:Hreqs;
    cbn [wrOutcome]; try discriminate.
  apply writeRequests_counts in Hreqs as [Hall Hw]; [|exact Hrange].
  destruct (writeLog (wal m) (wWalBuf w)) as [err|wal']; [discriminate|].
  destruct (writeLog (vlog m) (wVlogBuf w)) as [err|vlog']; [discriminate|].
  intros _. cbn [wrReqs wrManager set_files entriesWritten].
  split; [exact Hall|exact Hw].
Qed.

(** A request with at least two entries never makes [writeRequest]
    panic. *)
Lemma writeRequest_no_panic (b : request) (w : writeVars) (msg : string) :
  (2 <= length (Entries b))%nat ->
  fst (writeRequest m b w) <> Panicked msg.
Proof.
  intros Hlen. unfold writeRequest.
  destruct (Nat.ltb_spec (length (Entries b)) 2) as [Hlt|_]; [lia|].
  destruct (writeEntries m _ _ _ _ _) as [[err ptrs]|[[[walBuf vlogBuf] ptrs] written]];
    [discriminate|].
  destruct (Entries b !! (length (Entries b) - 2)%nat) as [endWal|] eqn:H2.
  2: { apply lookup_ge_None in H2. lia. }
  destruct (Entries b !! (length (Entries b) - 1)%nat) as [endVlog|] eqn:H1.
  2: { apply lookup_ge_None in H1. lia. }
  destruct (encode (wal m) endWal _); [discriminate|].
  destruct (encode (vlog m) endVlog _); discriminate.
Qed.

Lemma writeRequests_panic (reqs : list request) :
  forall (w : writeVars) (msg : string),
    fst (writeRequests m reqs w) = Panicked msg ->
    exists b : request, b ∈ reqs /\ (length (Entries b) < 2)%nat.
Proof.
  induction reqs as [|b rest IH]; intros w msg H; [discriminate|].
  cbn [writeRequests] in H.
  destruct (Nat.lt_ge_cases (length (Entries b)) 2) as [Hlt|Hge].
  { exists b. split; [apply list_elem_of_here|exact Hlt]. }
  pose proof (writeRequest_no_panic b w) as Hnp.
  destruct (writeRequest m b w) as [[w1|err|msg1|] b1]; cbn [fst] in *.
  - destruct (IH w1 msg) as (b0 & Hin & Hlt); [exact H|].
    exists b0. split; [apply list_elem_of_further; exact Hin|exact Hlt].
  - discriminate.
  - exfalso. exact (Hnp msg1 Hge eq_refl).
  - discriminate.
Qed.

(** [writeRequest] returns, fails or panics: it has no loop that the
    model could cut short. *)
Lemma writeRequest_outcome (b : request) (w : writeVars) :
  (exists (w' : writeVars), fst (writeRequest m b w) = Returned w')
  \/ (exists msg : string, fst (writeRequest m b w) = Panicked msg)
  \/ (exists err : error, fst (writeRequest m b w) = Failed err).
Proof.
  unfold writeRequest.
  destruct (length (Entries b) <? 2)%nat; [right; left; eexists; reflexivity|].
  destruct (writeEntries m _ _ _ _ _) as [[err ptrs]|[[[walBuf vlogBuf] ptrs] written]];
    [right; right; eexists; reflexivity|].
  destruct (Entries b !! (length (Entries b) - 2)%nat) as [endWal|];
    [|right; left; eexists; reflexivity].
  destruct (Entries b !! (length (Entries b) - 1)%nat) as [endVlog|];
    [|right; left; eexists; reflexivity].
  destruct (encode (wal m) endWal _) as [err|wbytes];
    [right; right; eexists; reflexivity|].
  destruct (encode (vlog m) endVlog _) as [err|vbytes];
    [right; right; eexists; reflexivity|].
  left. eexists. reflexivity.
Qed.

Lemma writeRequest_short (b : request) (w : writeVars) :
  (length (Entries b) < 2)%nat ->
  writeRequest m b w = (Panicked "slice bounds out of range", b).
Proof.
  intros Hlt. unfold writeRequest.
  destruct (Nat.ltb_spec (length (Entries b)) 2) as [_|Hge]; [reflexivity|lia].
Qed.

(** The loop over the requests does not get past a request that lacks
    an end marker. *)
Lemma writeRequests_short (reqs : list request) (b : request) :
  b ∈ reqs ->
  (length (Entries b) < 2)%nat ->
  forall w : writeVars,
    (exists msg : string, fst (writeRequests m reqs w) = Panicked msg)
    \/ (exists err : error, fst (writeRequests m reqs w) = Failed err).
Proof.
  induction reqs as [|r rest IH]; intros Hin Hlt w.
  - inversion Hin.
  - cbn [writeRequests].
    destruct (writeRequest_outcome r w) as [[w' Hr]|[[msg Hr]|[err Hr]]];
      destruct (writeRequest m r w) as [o r'] eqn:Hrun; cbn [fst] in Hr; subst o.
    + apply elem_of_cons in Hin as [->|Hin].
      * rewrite (writeRequest_short r w Hlt) in Hrun. discriminate Hrun.
      * cbn [fst]. apply IH; assumption.
    + left. exists msg. reflexivity.
    + right. exists err. reflexivity.
Qed.

(** X9. A request that has fewer than the two entries reserved for the
    end markers stops the whole [write]: the call panics, or fails on
    an encoder before it gets to the request, and nothing is flushed,
    neither to the WAL nor to the vlog file, for any request of the
    call.  When the request is the first one the call panics on the
    slice expression of line 526 and [entriesWritten] is what it
    was. *)
Theorem write_short_request_flushes_nothing
    (reqs : list request) (b : request) :
  b ∈ reqs ->
  (length (Entries b) < 2)%nat ->
  ((exists msg : string, wrOutcome (write m reqs) = Panicked msg)
   \/ (exists err : error, wrOutcome (write m reqs) = Failed err))
  /\ wal (wrManager (write m reqs)) = wal m
  /\ vlog (wrManager (write m reqs)) = vlog m
  /\ (forall rest : list request,
        reqs = b :: rest ->
        wrOutcome (write m reqs) = Panicked "slice bounds out of range"
        /\ entriesWritten (wrManager (write m reqs)) = entriesWritten m).
Proof.
  intros Hin Hlt.
  pose proof (writeRequests_short reqs b Hin Hlt
                (mkWriteVars [] [] (entriesWritten m))) as Hstop.
  split; [|split; [|split]].
  - unfold write.
    destruct (writeRequests m reqs _) as [[w|err|msg|] reqs'];
      cbn [fst] in Hstop; cbn [wrOutcome].
    + destruct Hstop as [[msg H]|[err H]]; discriminate H.
    + right. exists err. reflexivity.
    + left. exists msg. reflexivity.
    + destruct Hstop as [[msg H]|[err H]]; discriminate H.
  - unfold write.
    destruct (writeRequests m reqs _) as [[w|err|msg|] reqs'];
      cbn [fst] in Hstop; try reflexivity.
    destruct Hstop as [[msg H]|[err H]]; discriminate H.
  - unfold write.
    destruct (writeRequests m reqs _) as [[w|err|msg|] reqs'];
      cbn [fst] in Hstop; try reflexivity.
    destruct Hstop as [[msg H]|[err H]]; discriminate H.
  - intros rest ->. unfold write. cbn [writeRequests entriesWrittenAt].
    rewrite (writeRequest_short b _ Hlt). split; reflexivity.
Qed.

End WriteMore.

Lemma write_success_counts_witness :
  0 <= entriesWritten Sample.manager < 2 ^ 32
  /\ wrOutcome (@write Sample.managerEnv Sample.manager
                  [SampleMore.twoEntries; Sample.skipRequest]) = Returned tt
  /\ Forall2 (fun b b' =>
                Entries b' = Entries b
                /\ (2 <= length (Entries b))%nat
                /\ length (Ptrs b')
                   = (length (Ptrs b) + length (Entries b)
                      + skipCount (take (length (Entries b) - 2) (Entries b)))%nat)
       [SampleMore.twoEntries; Sample.skipRequest]
       (wrReqs (@write Sample.managerEnv Sample.manager
                  [SampleMore.twoEntries; Sample.skipRequest]))
  /\ entriesWritten
       (wrManager (@write Sample.managerEnv Sample.manager
                     [SampleMore.twoEntries; Sample.skipRequest]))
     = Wire.wrap32
         (entriesWritten Sample.manager
          + Z.of_nat (length (concat (Entries <$> [SampleMore.twoEntries;
                                                    Sample.skipRequest])))).
Proof.
  assert (H1 : 0 <= entriesWritten Sample.manager < 2 ^ 32) by (simpl; lia).
  split; [exact H1|]. split; [reflexivity|].
  exact (@write_success_counts Sample.managerEnv Sample.manager
           [SampleMore.twoEntries; Sample.skipRequest] H1 eq_refl).
Defined.

Lemma write_short_request_flushes_nothing_witness :
  SampleMore.shortRequest ∈ [SampleMore.twoEntries; SampleMore.shortRequest]
  /\ (length (Entries SampleMore.shortRequest) < 2)%nat
  /\ ((exists msg : string,
         wrOutcome (@write Sample.managerEnv Sample.manager
                      [SampleMore.twoEntries; SampleMore.shortRequest])
         = Panicked msg)
      \/ (exists err : error,
            wrOutcome (@write Sample.managerEnv Sample.manager
                         [SampleMore.twoEntries; SampleMore.shortRequest])
            = Failed err))
  /\ wal (wrManager (@write Sample.managerEnv Sample.manager
                       [SampleMore.twoEntries; SampleMore.shortRequest]))
     = wal Sample.manager
  /\ vlog (wrManager (@write Sample.managerEnv Sample.manager
                        [SampleMore.twoEntries; SampleMore.shortRequest]))
     = vlog Sample.manager
  /\ entriesWritten
       (wrManager (@write Sample.managerEnv Sample.manager
                     [SampleMore.twoEntries; SampleMore.shortRequest]))
     = 4.
Proof.
  assert (H1 : SampleMore.shortRequest
               ∈ [SampleMore.twoEntries; SampleMore.shortRequest])
    by (right; left).
  assert (H2 : (length (Entries SampleMore.shortRequest) < 2)%nat)
    by (simpl; lia).
  destruct (@write_short_request_flushes_nothing Sample.managerEnv
              Sample.manager [SampleMore.twoEntries; SampleMore.shortRequest]
              SampleMore.shortRequest H1 H2) as (Hout & Hwal & Hvlog & _).
  split; [exact H1|]. split; [exact H2|]. split; [exact Hout|].
  split; [exact Hwal|]. split; [exact Hvlog|reflexivity].
Defined.

Section WritePointers.
Context {ME : ManagerEnv}.
Variable m : logManager.

Lemma writeEntries_pointers (es : list Entry) :
  forall (walBuf vlogBuf : list byte) (ptrs : list valuePointer) (written : Z)
         (walBuf' vlogBuf' : list byte) (ptrs' : list valuePointer) (written' : Z),
    writeEntries m es walBuf vlogBuf ptrs written
    = inr (walBuf', vlogBuf', ptrs', written') ->
    0 <= fileOffset (vlog m) ->
    fileOffset (vlog m) + Z.of_nat (length vlogBuf') < 2 ^ 32 ->
    (exists suffix : list byte, vlogBuf' = vlogBuf ++ suffix)
    /\ exists ps : list valuePointer,
         ptrs' = ptrs ++ concat (zip_with pointersOf es ps)
         /\ Forall2 (fun e p =>
                       pointsTo m vlogBuf' e p
                       /\ (shouldWriteValueToLSM e = false ->
                           fileOffset (vlog m) + Z.of_nat (length vlogBuf)
                           <= Offset p))
              es ps.
Proof.
  induction es as [|e rest IH];
    intros walBuf vlogBuf ptrs written walBuf' vlogBuf' ptrs' written' H H0 Hmax.
  - cbn in H. injection H as <- <- <- <-. split.
    + exists []. rewrite app_nil_r. reflexivity.
    + exists []. split; [cbn; rewrite app_nil_r; reflexivity|constructor].
  - cbn [writeEntries] in H.
    assert (Hptrs : forall p, (if skipVlog e then ptrs ++ [emptyPointer] else ptrs) ++ [p]
                              = ptrs ++ pointersOf e p).
    { intros p. unfold pointersOf. destruct (skipVlog e);
        [rewrite <- app_assoc|]; reflexivity. }
    destruct (shouldWriteValueToLSM e) eqn:Hroute.
    + destruct (encode (wal m) e _) as [err|bytes]; [discriminate|].
      rewrite Hptrs in H.
      destruct (IH _ _ _ _ _ _ _ _ H H0 Hmax) as [[suffix Hsuf] (ps & Hps & Hall)].
      split; [exists suffix; exact Hsuf|].
      exists (emptyPointer :: ps). split.
      * rewrite Hps. cbn [zip_with concat]. rewrite <- app_assoc. reflexivity.
      * constructor; [|exact Hall]. split.
        -- unfold pointsTo. rewrite Hroute. reflexivity.
        -- intros Hn. congruence.
    + destruct (encode (vlog m) e _) as [err|bytes] eqn:Henc; [discriminate|].
      rewrite Hptrs in H.
      destruct (IH _ _ _ _ _ _ _ _ H H0 Hmax) as [[suffix Hsuf] (ps & Hps & Hall)].
      assert (Hlen : Z.of_nat (length vlogBuf) + Z.of_nat (length bytes)
                     <= Z.of_nat (length vlogBuf')).
      { rewrite Hsuf, !length_app. lia. }
      assert (Hoff : Wire.wrap32 (fileOffset (vlog m)
                                  + Wire.wrap32 (Z.of_nat (length vlogBuf)))
                     = fileOffset (vlog m) + Z.of_nat (length vlogBuf)).
      { unfold Wire.wrap32. rewrite (Z.mod_small (Z.of_nat (length vlogBuf))) by lia.
        apply Z.mod_small. lia. }
      rewrite Hoff in Henc, Hps.
      split; [exists (bytes ++ suffix); rewrite Hsuf, <- app_assoc; reflexivity|].
      eexists (_ :: ps). split.
      * rewrite Hps. cbn [zip_with concat]. rewrite <- app_assoc. reflexivity.
      * constructor.
        -- split; [|intros _; cbn [Offset]; lia].
           unfold pointsTo. rewrite Hroute. cbn [Fid Offset Len].
           split; [reflexivity|]. split; [lia|].
           exists bytes. split; [exact Henc|]. split.
           ++ unfold Wire.wrap32. apply Z.mod_small. lia.
           ++ replace (fileOffset (vlog m) + Z.of_nat (length vlogBuf)
                       - fileOffset (vlog m)) with (Z.of_nat (length vlogBuf)) by lia.
              rewrite Nat2Z.id, Hsuf, <- app_assoc, drop_app_length, take_app_length.
              reflexivity.
        -- eapply Forall2_impl; [exact Hall|]. cbn. intros e' p' [Hpt Hge].
           split; [exact Hpt|]. intros Hr. specialize (Hge Hr).
           rewrite length_app in Hge. lia.
Qed.

(** X10. The pointers that the loop over the entries of a request appends
    are, entry by entry, an empty pointer for an entry that is marked
    [skipVlog] followed by the pointer of the entry; the pointer of a WAL
    entry is empty, and the pointer of a vlog entry names the active vlog
    file and the place, in the buffer that is about to be appended to it,
    of the bytes that were encoded for the entry, as long as the buffer
    ends below 2^32. *)
Theorem writeEntries_pointers_address_entries
    (es : list Entry) (walBuf vlogBuf : list byte) (ptrs : list valuePointer)
    (written : Z) (walBuf' vlogBuf' : list byte) (ptrs' : list valuePointer)
    (written' : Z) :
  writeEntries m es walBuf vlogBuf ptrs written
  = inr (walBuf', vlogBuf', ptrs', written') ->
  0 <= fileOffset (vlog m) ->
  fileOffset (vlog m) + Z.of_nat (length vlogBuf') < 2 ^ 32 ->
  exists ps : list valuePointer,
    ptrs' = ptrs ++ concat (zip_with pointersOf es ps)
    /\ Forall2 (pointsTo m vlogBuf') es ps.
Proof.
  intros H H0 Hmax.
  destruct (writeEntries_pointers es _ _ _ _ _ _ _ _ H H0 Hmax)
    as [_ (ps & Hps & Hall)].
  exists ps. split; [exact Hps|].
  eapply Forall2_impl; [exact Hall|]. cbn. intros e p [Hpt _]. exact Hpt.
Qed.

End WritePointers.

Lemma writeEntries_pointers_address_entries_witness :
  exists (walBuf' vlogBuf' : list byte) (ptrs' : list valuePointer)
         (written' : Z),
    @writeEntries Sample.managerEnv Sample.manager
      [Sample.skipped; Sample.txnEntry "b" "1" 7] [] [] [] 0
    = inr (walBuf', vlogBuf', ptrs', written')
    /\ 0 <= fileOffset (vlog Sample.manager)
    /\ fileOffset (vlog Sample.manager) + Z.of_nat (length vlogBuf') < 2 ^ 32
    /\ exists ps : list valuePointer,
         ptrs' = [] ++ concat (zip_with pointersOf
                                 [Sample.skipped; Sample.txnEntry "b" "1" 7] ps)
         /\ Forall2 (@pointsTo Sample.managerEnv Sample.manager vlogBuf')
              [Sample.skipped; Sample.txnEntry "b" "1" 7] ps.
Proof.
  eexists _, _, _, _.
  assert (H : @writeEntries Sample.managerEnv Sample.manager
                [Sample.skipped; Sample.txnEntry "b" "1" 7] [] [] [] 0
              = inr (_, _, _, _)) by (vm_compute; reflexivity).
  assert (H1 : 0 <= fileOffset (vlog Sample.manager)) by (simpl; lia).
  split; [exact H|]. split; [exact H1|].
  assert (H2 : fileOffset (vlog Sample.manager)
               + Z.of_nat (length (Sample.tsKey "s" 7 ++ Sample.bytesOf "large"
                                     ++ Wire.PutUint32 0)) < 2 ^ 32)
    by (vm_compute; reflexivity).
  split; [exact H2|].
  exact (@writeEntries_pointers_address_entries Sample.managerEnv
           Sample.manager _ _ _ _ _ _ _ _ _ H H1 H2).
Defined.

(** ** Reading a value pointer, continued *)

Section ReadMore.
Context {ME : ManagerEnv}.

Lemma lockCount_set_rlocks (lm : logManager) (f g : Z) (n : nat) :
  lockCount (set_rlocks lm (<[f := n]> (rlocks lm))) g
  = if decide (f = g) then n else lockCount lm g.
Proof.
  unfold lockCount, set_rlocks. cbn [rlocks].
  destruct (decide (f = g)) as [->|Hne].
  - rewrite lookup_insert_eq. reflexivity.
  - rewrite lookup_insert_ne by exact Hne. reflexivity.
Qed.

(** X11. [Read] and the read lock of the vlog file, where the file of the
    map under an id carries that id.  When [Read] hands back no callback
    every lock count is what it was before the call, whether the read
    succeeded or not; when it hands back a callback the log is memory
    mapped, the callback is that of the file the pointer names, and that
    file is read-locked once more than before, for the caller to
    release. *)
Theorem Read_lock_balance (lm : logManager) (vp : valuePointer) :
  (forall lf : logFile, vlogFileMap lm !! Fid vp = Some lf -> fid lf = Fid vp) ->
  match Read lm vp with
  | (_, None, lm') => forall g : Z, lockCount lm' g = lockCount lm g
  | (_, Some f, lm') =>
      ValueLogLoadingMode (mOpt lm) = MemoryMap
      /\ f = Fid vp
      /\ lockCount lm' f = S (lockCount lm f)
      /\ forall g : Z, g <> f -> lockCount lm' g = lockCount lm g
  end.
Proof.
  intros Hkey. unfold Read.
  destruct ((Fid vp =? maxVlogID lm) && (Offset vp >=? fileOffset (vlog lm)));
    [reflexivity|].
  unfold readValueBytes, getFileRLocked.
  destruct (vlogFileMap lm !! Fid vp) as [lf|] eqn:Hlf.
  2: { cbn. reflexivity. }
  specialize (Hkey lf eq_refl).
  set (lm1 := set_rlocks lm (<[Fid vp := S (lockCount lm (Fid vp))]> (rlocks lm))).
  assert (Hcb : match getUnlockCallback lm1 (Some lf) with
                | (None, lm') => forall g : Z, lockCount lm' g = lockCount lm g
                | (Some f, lm') =>
                    ValueLogLoadingMode (mOpt lm) = MemoryMap
                    /\ f = Fid vp
                    /\ lockCount lm' f = S (lockCount lm f)
                    /\ forall g : Z, g <> f -> lockCount lm' g = lockCount lm g
                end).
  { unfold getUnlockCallback. change (mOpt lm1) with (mOpt lm).
    destruct (ValueLogLoadingMode (mOpt lm)) eqn:Hmode.
    - intros g. rewrite Hkey. rewrite (lockCount_set_rlocks lm1).
      unfold lm1. rewrite !lockCount_set_rlocks.
      destruct (decide (Fid vp = Fid vp)) as [_|Hn]; [|contradiction].
      destruct (decide (Fid vp = g)) as [->|Hne]; reflexivity.
    - rewrite Hkey. split; [reflexivity|]. split; [reflexivity|].
      unfold lm1. split.
      + rewrite lockCount_set_rlocks. destruct (decide _); [reflexivity|contradiction].
      + intros g Hne. rewrite lockCount_set_rlocks.
        destruct (decide _); [congruence|reflexivity]. }
  destruct (lf_read lf vp) as [err|buf]; cbn [fst snd].
  - destruct (getUnlockCallback lm1 (Some lf)) as [[f|] lm2]; exact Hcb.
  - destruct (getUnlockCallback lm1 (Some lf)) as [cb lm2].
    destruct (header_Decode buf) as [h headerLen].
    destruct ((headerLen <? 0) || (Z.of_nat (length buf) <? headerLen));
      [destruct cb; exact Hcb|].
    destruct (if encryptionEnabled lf then _ else _) as [err|kv];
      [destruct cb; exact Hcb|].
    destruct ((klen h <? 0) || (vlen h <? 0) || _); destruct cb; exact Hcb.
Qed.

(** X12. A pointer that passes the offset check but names a vlog file
    that is not in the map of the manager is answered with [ErrRetry]:
    no lock is taken, no callback is handed out, the manager is left as
    it was. *)
Theorem Read_missing_file_retries (lm : logManager) (vp : valuePointer) :
  (Fid vp <> maxVlogID lm \/ Offset vp < fileOffset (vlog lm)) ->
  vlogFileMap lm !! Fid vp = None ->
  Read lm vp = (Failed ErrRetry, None, lm).
Proof.
  intros Hguard Hnone. unfold Read.
  assert (Hg : (Fid vp =? maxVlogID lm) && (Offset vp >=? fileOffset (vlog lm))
               = false).
  { destruct Hguard as [Hne|Hlt].
    - apply andb_false_intro1. lia.
    - apply andb_false_intro2. lia. }
  rewrite Hg. unfold readValueBytes, getFileRLocked. rewrite Hnone. reflexivity.
Qed.

(** X13. A pointer that passes the offset check and names a file of the
    map: when the record read for it is laid out as header, key, value
    and trailer, and the header decodes to the lengths of the key and of
    the value and to its own length, [Read] of an unencrypted file
    returns exactly the value. *)
Theorem Read_returns_value (lm : logManager) (vp : valuePointer) (lf : logFile)
    (hdr key value trailer : list byte) :
  (Fid vp <> maxVlogID lm \/ Offset vp < fileOffset (vlog lm)) ->
  vlogFileMap lm !! Fid vp = Some lf ->
  lf_read lf vp = inr (hdr ++ key ++ value ++ trailer) ->
  header_Decode (hdr ++ key ++ value ++ trailer)
  = (mkHeader (Z.of_nat (length key)) (Z.of_nat (length value)),
     Z.of_nat (length hdr)) ->
  encryptionEnabled lf = false ->
  fst (fst (Read lm vp)) = Returned value.
Proof.
  intros Hguard Hlf Hread Hdec Henc. unfold Read.
  assert (Hg : (Fid vp =? maxVlogID lm) && (Offset vp >=? fileOffset (vlog lm))
               = false).
  { destruct Hguard as [Hne|Hlt].
    - apply andb_false_intro1. lia.
    - apply andb_false_intro2. lia. }
  rewrite Hg. unfold readValueBytes, getFileRLocked. rewrite Hlf, Hread.
  destruct (getUnlockCallback _ (Some lf)) as [cb lm2].
  rewrite Hdec, Henc.
  destruct (Z.ltb_spec (Z.of_nat (length hdr)) 0) as [Hneg|_]; [lia|].
  destruct (Z.ltb_spec (Z.of_nat (length (hdr ++ key ++ value ++ trailer)))
              (Z.of_nat (length hdr))) as [Hshort|_].
  { rewrite !length_app in Hshort. lia. }
  cbn [orb klen vlen]. rewrite Nat2Z.id, drop_app_length.
  destruct (Z.ltb_spec (Z.of_nat (length key)) 0) as [Hneg|_]; [lia|].
  destruct (Z.ltb_spec (Z.of_nat (length value)) 0) as [Hneg|_]; [lia|].
  destruct (Z.ltb_spec (Z.of_nat (length (key ++ value ++ trailer)))
              (Z.of_nat (length key) + Z.of_nat (length value))) as [Hshort|_].
  { rewrite !length_app in Hshort. lia. }
  cbn [orb fst]. rewrite !Nat2Z.id, drop_app_length, take_app_length.
  reflexivity.
Qed.

End ReadMore.

Lemma Read_lock_balance_witness :
  (forall lf : logFile,
     vlogFileMap SampleMore.mapped !! Fid (mkVP 1 18 50) = Some lf ->
     fid lf = Fid (mkVP 1 18 50))
  /\ match @Read SampleMore.readEnv SampleMore.mapped (mkVP 1 18 50) with
     | (_, None, lm') =>
         forall g : Z, lockCount lm' g = lockCount SampleMore.mapped g
     | (_, Some f, lm') =>
         ValueLogLoadingMode (mOpt SampleMore.mapped) = MemoryMap
         /\ f = Fid (mkVP 1 18 50)
         /\ lockCount lm' f = S (lockCount SampleMore.mapped f)
         /\ forall g : Z, g <> f -> lockCount lm' g = lockCount SampleMore.mapped g
     end.
Proof.
  assert (H : forall lf : logFile,
             vlogFileMap SampleMore.mapped !! Fid (mkVP 1 18 50) = Some lf ->
             fid lf = Fid (mkVP 1 18 50)).
  { intros lf Hlf. vm_compute in Hlf. injection Hlf as <-. reflexivity. }
  split; [exact H|].
  exact (@Read_lock_balance SampleMore.readEnv SampleMore.mapped
           (mkVP 1 18 50) H).
Defined.

Lemma Read_missing_file_retries_witness :
  (Fid (mkVP 7 18 50) <> maxVlogID Sample.manager
   \/ Offset (mkVP 7 18 50) < fileOffset (vlog Sample.manager))
  /\ vlogFileMap Sample.manager !! Fid (mkVP 7 18 50) = None
  /\ @Read Sample.managerEnv Sample.manager (mkVP 7 18 50)
     = (Failed ErrRetry, None, Sample.manager).
Proof.
  assert (H1 : Fid (mkVP 7 18 50) <> maxVlogID Sample.manager
               \/ Offset (mkVP 7 18 50) < fileOffset (vlog Sample.manager))
    by (left; discriminate).
  split; [exact H1|]. split; [reflexivity|].
  exact (@Read_missing_file_retries Sample.managerEnv Sample.manager
           (mkVP 7 18 50) H1 eq_refl).
Defined.

Lemma Read_returns_value_witness :
  (Fid (mkVP 1 18 50) <> maxVlogID SampleMore.mapped
   \/ Offset (mkVP 1 18 50) < fileOffset (vlog SampleMore.mapped))
  /\ vlogFileMap SampleMore.mapped !! Fid (mkVP 1 18 50)
     = Some (mkLogFile 1 (vlogFilePath 1) 100 true)
  /\ @lf_read SampleMore.readEnv (mkLogFile 1 (vlogFilePath 1) 100 true)
       (mkVP 1 18 50)
     = inr ([x03; x05] ++ Sample.bytesOf "key" ++ Sample.bytesOf "value"
            ++ Wire.PutUint32 0)
  /\ @header_Decode SampleMore.readEnv
       ([x03; x05] ++ Sample.bytesOf "key" ++ Sample.bytesOf "value"
        ++ Wire.PutUint32 0)
     = (mkHeader (Z.of_nat (length (Sample.bytesOf "key")))
          (Z.of_nat (length (Sample.bytesOf "value"))),
        Z.of_nat (length [x03; x05]))
  /\ @encryptionEnabled SampleMore.readEnv
       (mkLogFile 1 (vlogFilePath 1) 100 true) = false
  /\ fst (fst (@Read SampleMore.readEnv SampleMore.mapped (mkVP 1 18 50)))
     = Returned (Sample.bytesOf "value").
Proof.
  assert (H1 : Fid (mkVP 1 18 50) <> maxVlogID SampleMore.mapped
               \/ Offset (mkVP 1 18 50) < fileOffset (vlog SampleMore.mapped))
    by (right; simpl; lia).
  split; [exact H1|]. repeat (split; [reflexivity|]).
  exact (@Read_returns_value SampleMore.readEnv SampleMore.mapped
           (mkVP 1 18 50) (mkLogFile 1 (vlogFilePath 1) 100 true)
           [x03; x05] (Sample.bytesOf "key") (Sample.bytesOf "value")
           (Wire.PutUint32 0) H1 eq_refl eq_refl eq_refl eq_refl).
Defined.

(** ** The key registry, continued *)

Section RegistryMore.
Context {GE : RegistryEnv}.
Variable sk : list byte.
Variable ro : bool.

Lemma length_itemFrames (items : list item) :
  (8 * length items <= length (concat (itemFrame <$> items)))%nat.
Proof.
  induction items as [|it rest IH]; [cbn; lia|].
  rewrite fmap_cons, concat_cons, length_app. unfold itemFrame at 1.
  rewrite length_app, length_lenCrcBuf. cbn [length]. lia.
Qed.

(** The loop of [buildKeyRegistry] over well formed records, in whatever
    order their ids come. *)
Lemma buildLoop_prefix (items : list item) :
  forall (fuel : nat) (pre post : list byte) (kr : KeyRegistry),
    Forall (itemOk sk) items ->
    buildLoop (length items + fuel) (pre ++ concat (itemFrame <$> items) ++ post)
      sk (Z.of_nat (length pre)) kr
    = buildLoop fuel (pre ++ concat (itemFrame <$> items) ++ post) sk
        (Z.of_nat (length (pre ++ concat (itemFrame <$> items))))
        (fold_left absorb (itemKey <$> items) kr).
Proof.
  induction items as [|it rest IH]; intros fuel pre post kr Hok.
  - cbn [length Nat.add fmap list_fmap concat fold_left]. rewrite app_nil_r.
    reflexivity.
  - apply Forall_cons in Hok as [Hit Hok].
    rewrite !fmap_cons, concat_cons. cbn [length Nat.add fold_left].
    change (itemFrame it) with (lenCrcBuf (snd it) ++ snd it).
    set (d := snd it). set (frames := concat (itemFrame <$> rest)).
    assert (HB1 : pre ++ ((lenCrcBuf d ++ d) ++ frames) ++ post
                  = pre ++ (lenCrcBuf d ++ d) ++ (frames ++ post))
      by (rewrite <- !app_assoc; reflexivity).
    assert (HB2 : pre ++ (lenCrcBuf d ++ d) ++ (frames ++ post)
                  = (pre ++ lenCrcBuf d ++ d) ++ frames ++ post)
      by (rewrite <- !app_assoc; reflexivity).
    assert (HP : pre ++ (lenCrcBuf d ++ d) ++ frames
                 = (pre ++ lenCrcBuf d ++ d) ++ frames)
      by (rewrite <- !app_assoc; reflexivity).
    rewrite HB1, HP.
    rewrite (buildLoop_stored sk (length rest + fuel) pre _ _ _ _ kr Hit).
    cbv zeta. subst d frames. rewrite HB2.
    rewrite (IH fuel (pre ++ lenCrcBuf (snd it) ++ snd it) post _ Hok).
    reflexivity.
Qed.

Lemma fold_max_ge (l : list Z) : forall a : Z, a <= fold_left Z.max l a.
Proof.
  induction l as [|x l IH]; intros a; [cbn; lia|].
  cbn [fold_left]. specialize (IH (Z.max a x)). lia.
Qed.

Lemma fold_absorb_next (ks : list DataKey) :
  forall kr : KeyRegistry,
    nextKeyID (fold_left absorb ks kr)
    = fold_left Z.max (KeyID <$> ks) (nextKeyID kr)
    /\ lastCreated (fold_left absorb ks kr)
       = fold_left Z.max (CreatedAt <$> ks) (lastCreated kr)
    /\ storageKey (fold_left absorb ks kr) = storageKey kr
    /\ fp (fold_left absorb ks kr) = fp kr
    /\ (forall (id : Z) (k : DataKey),
          dataKeys (fold_left absorb ks kr) !! id = Some k ->
          dataKeys kr !! id = Some k
          \/ (k ∈ ks /\ id <= nextKeyID (fold_left absorb ks kr))).
Proof.
  induction ks as [|k rest IH]; intros kr.
  - cbn. repeat split. intros id k0 H. left. exact H.
  - cbn [fold_left fmap list_fmap].
    destruct (IH (absorb kr k)) as (H1 & H2 & H3 & H4 & H5).
    rewrite H1, H2, H3, H4. unfold absorb at 1 2 3 4.
    cbn [nextKeyID lastCreated storageKey fp].
    repeat split.
    + f_equal. destruct (Z.gtb_spec (KeyID k) (nextKeyID kr)); lia.
    + f_equal. destruct (Z.gtb_spec (CreatedAt k) (lastCreated kr)); lia.
    + intros id k0 Hk0. destruct (H5 id k0 Hk0) as [Hin|[Hin Hle]].
      * unfold absorb in Hin. cbn [dataKeys] in Hin.
        rewrite lookup_insert in Hin. destruct (decide _) as [Heq|_].
        -- injection Hin as <-. right. split; [apply list_elem_of_here|].
           rewrite <- Heq. rewrite <- H1.
           pose proof (fold_max_ge (KeyID <$> rest) (nextKeyID (absorb kr k))) as Hge.
           rewrite H1. exact Hge.
        -- left. exact Hin.
      * right. split; [apply list_elem_of_further; exact Hin|].
        rewrite <- H1. exact Hle.
Qed.

(** The head of [buildKeyRegistry] on a file that starts with an IV and
    the sanity text as the storage key stores it. *)
Lemma buildKeyRegistry_head (iv e rest synced : list byte) :
  length iv = 16%nat ->
  sanityAs sk iv e ->
  buildKeyRegistry (mkRegFd (mkRegFile (iv ++ e ++ rest) synced) ro) sk
  = match buildLoop (S (length (iv ++ e ++ rest))) (iv ++ e ++ rest) sk
            (Z.of_nat (length (iv ++ e))) (newKeyRegistry sk) with
    | Returned kr =>
        Returned (set_fp kr (Some (mkRegFd (mkRegFile (iv ++ e ++ rest) synced)
                                     ro)))
    | bad => bad
    end.
Proof.
  intros Hiv Hsan.
  assert (He : (if (0 <? length sk)%nat then XORBlock sk iv e else inr e)
               = (inr sanityText : error + list byte)
               /\ length e = length sanityText).
  { unfold sanityAs in Hsan. destruct (0 <? length sk)%nat.
    - destruct Hsan as (_ & H2 & H3). rewrite H2. done.
    - subst e. done. }
  destruct He as [Hdec Hlen].
  unfold buildKeyRegistry. cbn [rf_bytes fd_file].
  pose proof (ReadAt_middle' [] iv (e ++ rest) 0 aes_BlockSize eq_refl) as Hhead.
  cbn [app] in Hhead. rewrite Hhead by (rewrite Hiv; reflexivity). clear Hhead.
  rewrite (ReadAt_middle' iv e rest) by (rewrite ?Hiv, ?Hlen; reflexivity).
  rewrite Hdec. rewrite bool_decide_eq_true_2 by reflexivity. cbn [negb].
  replace (aes_BlockSize + Z.of_nat (length sanityText))
    with (Z.of_nat (length (iv ++ e)))
    by (rewrite length_app, Hiv, Hlen; reflexivity).
  reflexivity.
Qed.

(** The records of [items] are read, then the loop goes on behind them. *)
Lemma buildKeyRegistry_records (iv e post synced : list byte) (items : list item) :
  length iv = 16%nat ->
  sanityAs sk iv e ->
  Forall (itemOk sk) items ->
  let bytes := iv ++ e ++ concat (itemFrame <$> items) ++ post in
  buildKeyRegistry (mkRegFd (mkRegFile bytes synced) ro) sk
  = match buildLoop (S (length bytes) - length items) bytes sk
            (Z.of_nat (length ((iv ++ e) ++ concat (itemFrame <$> items))))
            (fold_left absorb (itemKey <$> items) (newKeyRegistry sk)) with
    | Returned kr =>
        Returned (set_fp kr (Some (mkRegFd (mkRegFile bytes synced) ro)))
    | bad => bad
    end.
Proof.
  intros Hiv Hsan Hok bytes. subst bytes.
  rewrite (buildKeyRegistry_head iv e _ synced Hiv Hsan).
  pose proof (length_itemFrames items) as Hfr.
  set (bytes := iv ++ e ++ concat (itemFrame <$> items) ++ post).
  assert (Hfuel : S (length bytes)
                  = (length items + (S (length bytes) - length items))%nat).
  { subst bytes. rewrite !length_app. lia. }
  rewrite Hfuel at 1. subst bytes.
  rewrite (app_assoc iv e).
  rewrite (buildLoop_prefix items _ (iv ++ e) post _ Hok).
  reflexivity.
Qed.

(** A file of well formed records opens into the registry that absorbed
    them one after the other. *)
Lemma buildKeyRegistry_items (iv e synced : list byte) (items : list item) :
  length iv = 16%nat ->
  sanityAs sk iv e ->
  Forall (itemOk sk) items ->
  let f := mkRegFd (mkRegFile (iv ++ e ++ concat (itemFrame <$> items)) synced)
             ro in
  buildKeyRegistry f sk
  = Returned (set_fp (fold_left absorb (itemKey <$> items) (newKeyRegistry sk))
                (Some f)).
Proof.
  intros Hiv Hsan Hok f. subst f.
  pose proof (buildKeyRegistry_records iv e [] synced items Hiv Hsan Hok) as H.
  cbv zeta in H. rewrite !app_nil_r in H. rewrite H. clear H.
  pose proof (length_itemFrames items) as Hfr.
  set (bytes := iv ++ e ++ concat (itemFrame <$> items)).
  assert (Hfuel : exists n, (S (length bytes) - length items)%nat = S n).
  { subst bytes. rewrite !length_app.
    exists (length iv + (length e + length (concat (itemFrame <$> items)))
            - length items)%nat. lia. }
  destruct Hfuel as [n ->].
  replace ((iv ++ e) ++ concat (itemFrame <$> items)) with bytes
    by (subst bytes; rewrite <- app_assoc; reflexivity).
  rewrite buildLoop_done. reflexivity.
Qed.

(** X14. Opening a registry file that holds well formed records, in any
    order of ids, succeeds, through a read-only descriptor as through a
    writable one.  The registry opened has as its next id the largest id
    of the file, or zero, and as its last creation time the latest one
    of the file, or zero; every key in its map is a key of the file,
    with its material in clear, and sits at an id that is at most the
    next id; and the registry keeps the descriptor to append to. *)
Theorem buildKeyRegistry_reads_all_records
    (iv e synced : list byte) (items : list item) :
  length iv = 16%nat ->
  sanityAs sk iv e ->
  Forall (itemOk sk) items ->
  let f := mkRegFd (mkRegFile (iv ++ e ++ concat (itemFrame <$> items)) synced)
             ro in
  exists kr : KeyRegistry,
    buildKeyRegistry f sk = Returned kr
    /\ nextKeyID kr = fold_left Z.max (itemId <$> items) 0
    /\ lastCreated kr
       = fold_left Z.max ((fun it => CreatedAt (itemKey it)) <$> items) 0
    /\ storageKey kr = sk
    /\ fp kr = Some f
    /\ forall (id : Z) (k : DataKey),
         dataKeys kr !! id = Some k ->
         id <= nextKeyID kr /\ exists it : item, it ∈ items /\ k = itemKey it.
Proof.
  intros Hiv Hsan Hok f. subst f.
  rewrite (buildKeyRegistry_items iv e synced items Hiv Hsan Hok).
  destruct (fold_absorb_next (itemKey <$> items) (newKeyRegistry sk))
    as (H1 & H2 & H3 & H4 & H5).
  eexists. split; [reflexivity|].
  cbn [set_fp nextKeyID lastCreated storageKey fp dataKeys].
  rewrite H1, H2, H3. cbn [newKeyRegistry nextKeyID lastCreated storageKey].
  rewrite <- !list_fmap_compose. repeat split.
  - destruct (H5 id k H) as [Hin|[_ Hle]].
    + cbn in Hin. rewrite lookup_empty in Hin. discriminate.
    + rewrite H1 in Hle. cbn [newKeyRegistry nextKeyID] in Hle.
      rewrite <- list_fmap_compose in Hle. exact Hle.
  - destruct (H5 id k H) as [Hin|[Hin _]].
    + cbn in Hin. rewrite lookup_empty in Hin. discriminate.
    + apply list_elem_of_fmap in Hin as (it & -> & Hit). exists it. done.
Qed.

End RegistryMore.

Lemma buildKeyRegistry_reads_all_records_witness :
  length SampleKeys.iv16 = 16%nat
  /\ @sanityAs SampleKeys.registryEnv SampleKeys.sk16 SampleKeys.iv16
       SampleMore.sanity16
  /\ Forall (@itemOk SampleKeys.registryEnv SampleKeys.sk16) SampleMore.items21
  /\ exists kr : KeyRegistry,
       @buildKeyRegistry SampleKeys.registryEnv
         (mkRegFd
            (mkRegFile
               (SampleKeys.iv16 ++ SampleMore.sanity16
                ++ concat (@itemFrame SampleKeys.registryEnv
                           <$> SampleMore.items21))
               [])
            true)
         SampleKeys.sk16 = Returned kr
       /\ nextKeyID kr = fold_left Z.max (itemId <$> SampleMore.items21) 0
       /\ lastCreated kr
          = fold_left Z.max
              ((fun it => CreatedAt (itemKey it)) <$> SampleMore.items21) 0
       /\ storageKey kr = SampleKeys.sk16
       /\ fp kr
          = Some (mkRegFd
                    (mkRegFile
                       (SampleKeys.iv16 ++ SampleMore.sanity16
                        ++ concat (@itemFrame SampleKeys.registryEnv
                                   <$> SampleMore.items21)) [])
                    true)
       /\ forall (id : Z) (k : DataKey),
            dataKeys kr !! id = Some k ->
            id <= nextKeyID kr
            /\ exists it : item, it ∈ SampleMore.items21 /\ k = itemKey it.
Proof.
  assert (H1 : length SampleKeys.iv16 = 16%nat) by reflexivity.
  assert (H2 : @sanityAs SampleKeys.registryEnv SampleKeys.sk16 SampleKeys.iv16
                 SampleMore.sanity16) by (vm_compute; repeat split).
  assert (H3 : Forall (@itemOk SampleKeys.registryEnv SampleKeys.sk16)
                 SampleMore.items21)
    by (repeat constructor; vm_compute; congruence).
  split; [exact H1|]. split; [exact H2|]. split; [exact H3|].
  exact (@buildKeyRegistry_reads_all_records SampleKeys.registryEnv
           SampleKeys.sk16 true SampleKeys.iv16 SampleMore.sanity16 []
           SampleMore.items21 H1 H2 H3).
Defined.

(** ** Registry files that do not open *)

Section RegistryErrors.
Context {GE : RegistryEnv}.
Variable sk : list byte.
Variable ro : bool.

Lemma Uint32_lenCrcBuf_len (d : list byte) :
  Z.of_nat (length d) < 2 ^ 32 ->
  Wire.Uint32 (take 4 (lenCrcBuf d)) = Z.of_nat (length d).
Proof.
  intros Hlen. unfold lenCrcBuf. rewrite take_app_length' by reflexivity.
  rewrite <- (app_nil_r (Wire.PutUint32 _)).
  rewrite Uint32_PutUint32; unfold Wire.wrap32; rewrite Z.mod_small; lia.
Qed.

(** A record that was written in part only: the loop fails on it with
    the error of a short read. *)
Lemma buildLoop_torn (fuel : nat) (pre d : list byte) (n : nat)
    (kr : KeyRegistry) :
  Z.of_nat (length d) < 2 ^ 32 ->
  (0 < n < length (lenCrcBuf d ++ d))%nat ->
  buildLoop (S fuel) (pre ++ take n (lenCrcBuf d ++ d)) sk
    (Z.of_nat (length pre)) kr
  = Failed io_EOF.
Proof.
  intros Hlen Hn. rewrite length_app, length_lenCrcBuf in Hn.
  cbn [buildLoop].
  assert (Htake : length (take n (lenCrcBuf d ++ d)) = n).
  { rewrite length_take, length_app, length_lenCrcBuf. lia. }
  destruct (Z.eqb_spec (Z.of_nat (length pre))
              (Z.of_nat (length (pre ++ take n (lenCrcBuf d ++ d))))) as [Heq|_].
  { rewrite length_app, Htake in Heq. lia. }
  destruct (Nat.lt_ge_cases n 8) as [Hshort|Hlong].
  - unfold ReadAt at 1. rewrite length_app, Htake.
    destruct (Z.ltb_spec (Z.of_nat (length pre + n)) (Z.of_nat (length pre) + 8))
      as [_|Hge]; [reflexivity|lia].
  - assert (Hsplit : take n (lenCrcBuf d ++ d) = lenCrcBuf d ++ take (n - 8) d).
    { rewrite take_app, length_lenCrcBuf.
      rewrite take_ge by (rewrite length_lenCrcBuf; lia). reflexivity. }
    rewrite Hsplit.
    rewrite (ReadAt_middle' pre (lenCrcBuf d) (take (n - 8) d))
      by (rewrite ?length_lenCrcBuf; reflexivity).
    cbv zeta. rewrite (Uint32_lenCrcBuf_len d Hlen).
    unfold ReadAt. rewrite !length_app, length_lenCrcBuf, length_take.
    destruct (Z.ltb_spec
                (Z.of_nat (length pre + (8 + (n - 8) `min` length d)))
                (Z.of_nat (length pre) + 8 + Z.of_nat (length d)))
      as [_|Hge]; [reflexivity|lia].
Qed.

(** A record whose checksum field does not fit its bytes. *)
Lemma buildLoop_bad_checksum (fuel : nat) (pre d post : list byte) (crc : Z)
    (kr : KeyRegistry) :
  Z.of_nat (length d) < 2 ^ 32 ->
  0 <= crc < 2 ^ 32 ->
  crc <> crc32_Checksum d ->
  buildLoop (S fuel)
    (pre ++ (Wire.PutUint32 (Z.of_nat (length d)) ++ Wire.PutUint32 crc)
         ++ d ++ post) sk (Z.of_nat (length pre)) kr
  = Failed errBadChecksum.
Proof.
  intros Hlen Hcrc Hne. cbn [buildLoop].
  set (h := Wire.PutUint32 (Z.of_nat (length d)) ++ Wire.PutUint32 crc).
  assert (Hh : length h = 8%nat) by reflexivity.
  destruct (Z.eqb_spec (Z.of_nat (length pre))
              (Z.of_nat (length (pre ++ h ++ d ++ post)))) as [Heq|_].
  { rewrite !length_app, Hh in Heq. lia. }
  rewrite (ReadAt_middle' pre h (d ++ post)) by (rewrite ?Hh; reflexivity).
  cbv zeta.
  assert (Hl : Wire.Uint32 (take 4 h) = Z.of_nat (length d)).
  { subst h. rewrite take_app_length' by reflexivity.
    rewrite <- (app_nil_r (Wire.PutUint32 _)).
    apply Uint32_PutUint32. lia. }
  assert (Hc : Wire.Uint32 (drop 4 h) = crc).
  { subst h. rewrite drop_app_length' by reflexivity.
    rewrite <- (app_nil_r (Wire.PutUint32 _)).
    apply Uint32_PutUint32. exact Hcrc. }
  rewrite Hl, Hc.
  rewrite (app_assoc pre h (d ++ post)).
  rewrite (ReadAt_middle' (pre ++ h) d post)
    by (rewrite ?length_app, ?Hh; lia).
  destruct (Z.eqb_spec (crc32_Checksum d) crc) as [Heq|_]; [congruence|].
  reflexivity.
Qed.

Lemma records_fuel (iv e post : list byte) (items : list item) :
  exists n : nat,
    (S (length (iv ++ e ++ concat (itemFrame <$> items) ++ post))
     - length items)%nat = S n.
Proof.
  pose proof (length_itemFrames items) as Hfr.
  exists (length (iv ++ e ++ concat (itemFrame <$> items) ++ post)
          - length items)%nat.
  rewrite !length_app. lia.
Qed.

(** X15. A registry file whose last record was written in part only,
    behind any number of well formed records, does not open, whatever
    the mode of the descriptor: the short read fails with [io.EOF], and
    none of the keys before the torn record is returned. *)
Theorem buildKeyRegistry_torn_record
    (iv e synced : list byte) (items : list item) (d : list byte) (n : nat) :
  length iv = 16%nat ->
  sanityAs sk iv e ->
  Forall (itemOk sk) items ->
  Z.of_nat (length d) < 2 ^ 32 ->
  (0 < n < length (lenCrcBuf d ++ d))%nat ->
  buildKeyRegistry
    (mkRegFd (mkRegFile (iv ++ e ++ concat (itemFrame <$> items)
                           ++ take n (lenCrcBuf d ++ d)) synced) ro) sk
  = Failed io_EOF.
Proof.
  intros Hiv Hsan Hok Hlen Hn.
  pose proof (buildKeyRegistry_records sk ro iv e (take n (lenCrcBuf d ++ d))
                synced items Hiv Hsan Hok) as H.
  cbv zeta in H. rewrite H. clear H.
  destruct (records_fuel iv e (take n (lenCrcBuf d ++ d)) items) as [m ->].
  replace (iv ++ e ++ concat (itemFrame <$> items) ++ take n (lenCrcBuf d ++ d))
    with (((iv ++ e) ++ concat (itemFrame <$> items))
            ++ take n (lenCrcBuf d ++ d))
    by (rewrite <- !app_assoc; reflexivity).
  rewrite (buildLoop_torn m _ d n _ Hlen Hn). reflexivity.
Qed.

(** X16. A registry file in which a record carries a checksum that is
    not the checksum of its bytes does not open, whatever comes before
    and behind the record and whatever the mode of the descriptor: the
    error is [errBadChecksum]. *)
Theorem buildKeyRegistry_bad_checksum
    (iv e synced : list byte) (items : list item) (d post : list byte)
    (crc : Z) :
  length iv = 16%nat ->
  sanityAs sk iv e ->
  Forall (itemOk sk) items ->
  Z.of_nat (length d) < 2 ^ 32 ->
  0 <= crc < 2 ^ 32 ->
  crc <> crc32_Checksum d ->
  buildKeyRegistry
    (mkRegFd (mkRegFile (iv ++ e ++ concat (itemFrame <$> items)
                           ++ (Wire.PutUint32 (Z.of_nat (length d))
                                 ++ Wire.PutUint32 crc) ++ d ++ post) synced)
       ro) sk
  = Failed errBadChecksum.
Proof.
  intros Hiv Hsan Hok Hlen Hcrc Hne.
  set (bad := (Wire.PutUint32 (Z.of_nat (length d)) ++ Wire.PutUint32 crc)
                ++ d ++ post).
  pose proof (buildKeyRegistry_records sk ro iv e bad synced items Hiv Hsan Hok)
    as H.
  cbv zeta in H. rewrite H. clear H.
  destruct (records_fuel iv e bad items) as [m ->].
  replace (iv ++ e ++ concat (itemFrame <$> items) ++ bad)
    with (((iv ++ e) ++ concat (itemFrame <$> items)) ++ bad)
    by (rewrite <- !app_assoc; reflexivity).
  subst bad.
  rewrite (buildLoop_bad_checksum m _ d post crc _ Hlen Hcrc Hne). reflexivity.
Qed.

(** X17. Opening a registry with a storage key under which the sanity
    text of the file does not come out fails with
    [ErrEncryptionKeyMismatch], in both modes; the records of the file
    are not looked at and the directory is left as it was. *)
Theorem OpenKeyRegistry_key_mismatch
    (dir : regDir) (f : regFile) (iv e rest t : list byte)
    (readOnly : bool) (genIV : error + list byte) :
  dKeyRegistry dir = Some f ->
  rf_bytes f = iv ++ e ++ rest ->
  length iv = 16%nat ->
  length e = length sanityText ->
  (if (0 <? length sk)%nat then XORBlock sk iv e = inr t else t = e) ->
  t <> sanityText ->
  OpenKeyRegistry dir readOnly sk genIV
  = (Failed ErrEncryptionKeyMismatch, dir).
Proof.
  intros Hdir Hbytes Hiv Hlen Ht Hne.
  unfold OpenKeyRegistry. rewrite Hdir. f_equal.
  unfold buildKeyRegistry. cbn [fd_file]. rewrite Hbytes. cbv zeta.
  pose proof (ReadAt_middle' [] iv (e ++ rest) 0 aes_BlockSize eq_refl) as Hhead.
  cbn [app] in Hhead. rewrite Hhead by (rewrite Hiv; reflexivity). clear Hhead.
  rewrite (ReadAt_middle' iv e rest) by (rewrite ?Hiv, ?Hlen; reflexivity).
  destruct (0 <? length sk)%nat.
  - rewrite Ht. rewrite bool_decide_eq_false_2 by exact Hne. reflexivity.
  - subst t. rewrite bool_decide_eq_false_2 by exact Hne. reflexivity.
Qed.

(** X18. Opening the registry of a directory that has none.  In
    read-only mode the result is an empty registry without a file, and
    nothing is created.  Otherwise a registry file is created that holds
    the IV and the sanity text, encrypted when there is a storage key,
    and is synced; the rewrite file is gone; and the registry returned
    is empty and holds a writable descriptor of the new file to append
    to. *)
Theorem OpenKeyRegistry_creates_registry
    (dir : regDir) (iv e : list byte) (genIV : error + list byte) :
  dKeyRegistry dir = None ->
  length iv = 16%nat ->
  sanityAs sk iv e ->
  let f := mkRegFile (iv ++ e) (iv ++ e) in
  OpenKeyRegistry dir true sk genIV = (Returned (newKeyRegistry sk), dir)
  /\ OpenKeyRegistry dir false sk (inr iv)
     = (Returned (mkKeyRegistry ∅ 0 0 sk (Some (mkRegFd f false))),
        mkRegDir (Some f) None).
Proof.
  intros Hdir Hiv Hsan f. unfold OpenKeyRegistry. rewrite Hdir. split.
  - reflexivity.
  - cbn [negb]. unfold RewriteRegistry. cbn [storeAll].
    assert (He : (if (0 <? length sk)%nat then XORBlock sk iv sanityText
                  else inr sanityText) = (inr e : error + list byte)).
    { unfold sanityAs in Hsan. destruct (0 <? length sk)%nat.
      - destruct Hsan as (H1 & _). exact H1.
      - subst e. reflexivity. }
    rewrite He. cbn [dKeyRegistry FileSync rf_bytes fd_file fd_readOnly].
    pose proof (buildKeyRegistry_items sk false iv e (iv ++ e) [] Hiv Hsan
                  (Forall_nil_2 _)) as H.
    cbn [fmap list_fmap concat fold_left] in H. rewrite app_nil_r in H.
    cbv zeta in H.
    change (mkRegFile (iv ++ e) (iv ++ e)) with f in H |- *.
    rewrite H. reflexivity.
Qed.

End RegistryErrors.

Lemma buildKeyRegistry_torn_record_witness :
  length SampleKeys.iv16 = 16%nat
  /\ @sanityAs SampleKeys.registryEnv SampleKeys.sk16 SampleKeys.iv16
       SampleMore.sanity16
  /\ Forall (@itemOk SampleKeys.registryEnv SampleKeys.sk16) SampleMore.items21
  /\ Z.of_nat (length (SampleKeys.sampleBytes SampleMore.rotated)) < 2 ^ 32
  /\ (0 < 30 < length (@lenCrcBuf SampleKeys.registryEnv
                         (SampleKeys.sampleBytes SampleMore.rotated)
                       ++ SampleKeys.sampleBytes SampleMore.rotated))%nat
  /\ @buildKeyRegistry SampleKeys.registryEnv
       (mkRegFd
          (mkRegFile
             (SampleKeys.iv16 ++ SampleMore.sanity16
              ++ concat (@itemFrame SampleKeys.registryEnv <$> SampleMore.items21)
              ++ take 30 (@lenCrcBuf SampleKeys.registryEnv
                            (SampleKeys.sampleBytes SampleMore.rotated)
                          ++ SampleKeys.sampleBytes SampleMore.rotated)) [])
          false)
       SampleKeys.sk16
     = Failed io_EOF.
Proof.
  assert (H1 : length SampleKeys.iv16 = 16%nat) by reflexivity.
  assert (H2 : @sanityAs SampleKeys.registryEnv SampleKeys.sk16 SampleKeys.iv16
                 SampleMore.sanity16) by (vm_compute; repeat split).
  assert (H3 : Forall (@itemOk SampleKeys.registryEnv SampleKeys.sk16)
                 SampleMore.items21)
    by (repeat constructor; vm_compute; congruence).
  assert (H4 : Z.of_nat (length (SampleKeys.sampleBytes SampleMore.rotated))
               < 2 ^ 32) by (vm_compute; reflexivity).
  assert (H5 : (0 < 30 < length (@lenCrcBuf SampleKeys.registryEnv
                                   (SampleKeys.sampleBytes SampleMore.rotated)
                                 ++ SampleKeys.sampleBytes SampleMore.rotated))%nat)
    by (vm_compute; lia).
  split; [exact H1|]. split; [exact H2|]. split; [exact H3|].
  split; [exact H4|]. split; [exact H5|].
  exact (@buildKeyRegistry_torn_record SampleKeys.registryEnv SampleKeys.sk16
           false SampleKeys.iv16 SampleMore.sanity16 [] SampleMore.items21
           (SampleKeys.sampleBytes SampleMore.rotated) 30 H1 H2 H3 H4 H5).
Defined.

Lemma buildKeyRegistry_bad_checksum_witness :
  length SampleKeys.iv16 = 16%nat
  /\ @sanityAs SampleKeys.registryEnv SampleKeys.sk16 SampleKeys.iv16
       SampleMore.sanity16
  /\ Forall (@itemOk SampleKeys.registryEnv SampleKeys.sk16) SampleMore.items21
  /\ Z.of_nat (length (SampleKeys.sampleBytes SampleMore.rotated)) < 2 ^ 32
  /\ 0 <= 0 < 2 ^ 32
  /\ 0 <> @crc32_Checksum SampleKeys.registryEnv
            (SampleKeys.sampleBytes SampleMore.rotated)
  /\ @buildKeyRegistry SampleKeys.registryEnv
       (mkRegFd
          (mkRegFile
             (SampleKeys.iv16 ++ SampleMore.sanity16
              ++ concat (@itemFrame SampleKeys.registryEnv <$> SampleMore.items21)
              ++ (Wire.PutUint32
                    (Z.of_nat (length (SampleKeys.sampleBytes
                                         SampleMore.rotated)))
                  ++ Wire.PutUint32 0)
              ++ SampleKeys.sampleBytes SampleMore.rotated ++ []) [])
          false)
       SampleKeys.sk16
     = Failed errBadChecksum.
Proof.
  assert (H1 : length SampleKeys.iv16 = 16%nat) by reflexivity.
  assert (H2 : @sanityAs SampleKeys.registryEnv SampleKeys.sk16 SampleKeys.iv16
                 SampleMore.sanity16) by (vm_compute; repeat split).
  assert (H3 : Forall (@itemOk SampleKeys.registryEnv SampleKeys.sk16)
                 SampleMore.items21)
    by (repeat constructor; vm_compute; congruence).
  assert (H4 : Z.of_nat (length (SampleKeys.sampleBytes SampleMore.rotated))
               < 2 ^ 32) by (vm_compute; reflexivity).
  assert (H5 : 0 <= 0 < 2 ^ 32) by lia.
  assert (H6 : 0 <> @crc32_Checksum SampleKeys.registryEnv
                      (SampleKeys.sampleBytes SampleMore.rotated))
    by (vm_compute; discriminate).
  split; [exact H1|]. split; [exact H2|]. split; [exact H3|].
  split; [exact H4|]. split; [exact H5|]. split; [exact H6|].
  exact (@buildKeyRegistry_bad_checksum SampleKeys.registryEnv SampleKeys.sk16
           false SampleKeys.iv16 SampleMore.sanity16 [] SampleMore.items21
           (SampleKeys.sampleBytes SampleMore.rotated) [] 0 H1 H2 H3 H4 H5 H6).
Defined.

Lemma OpenKeyRegistry_key_mismatch_witness :
  dKeyRegistry (mkRegDir (Some (mkRegFile SampleMore.registryBytes [])) None)
  = Some (mkRegFile SampleMore.registryBytes [])
  /\ rf_bytes (mkRegFile SampleMore.registryBytes [])
     = SampleKeys.iv16 ++ SampleMore.sanity16
       ++ concat (@itemFrame SampleKeys.registryEnv <$> SampleMore.items21)
  /\ length SampleKeys.iv16 = 16%nat
  /\ length SampleMore.sanity16 = length sanityText
  /\ (if (0 <? length SampleMore.otherKey)%nat
      then @XORBlock SampleKeys.registryEnv SampleMore.otherKey SampleKeys.iv16
             SampleMore.sanity16 = inr SampleMore.garbled
      else SampleMore.garbled = SampleMore.sanity16)
  /\ SampleMore.garbled <> sanityText
  /\ @OpenKeyRegistry SampleKeys.registryEnv
       (mkRegDir (Some (mkRegFile SampleMore.registryBytes [])) None)
       false SampleMore.otherKey (inr SampleKeys.iv16)
     = (Failed ErrEncryptionKeyMismatch,
        mkRegDir (Some (mkRegFile SampleMore.registryBytes [])) None).
Proof.
  assert (H5 : if (0 <? length SampleMore.otherKey)%nat
               then @XORBlock SampleKeys.registryEnv SampleMore.otherKey
                      SampleKeys.iv16 SampleMore.sanity16
                    = inr SampleMore.garbled
               else SampleMore.garbled = SampleMore.sanity16)
    by (vm_compute; reflexivity).
  assert (H6 : SampleMore.garbled <> sanityText) by (vm_compute; discriminate).
  do 4 (split; [reflexivity|]). split; [exact H5|]. split; [exact H6|].
  exact (@OpenKeyRegistry_key_mismatch SampleKeys.registryEnv
           SampleMore.otherKey
           (mkRegDir (Some (mkRegFile SampleMore.registryBytes [])) None)
           (mkRegFile SampleMore.registryBytes [])
           SampleKeys.iv16 SampleMore.sanity16
           (concat (@itemFrame SampleKeys.registryEnv <$> SampleMore.items21))
           SampleMore.garbled false (inr SampleKeys.iv16)
           eq_refl eq_refl eq_refl eq_refl H5 H6).
Defined.

Lemma OpenKeyRegistry_creates_registry_witness :
  dKeyRegistry SampleKeys.emptyDir = None
  /\ length SampleKeys.iv16 = 16%nat
  /\ @sanityAs SampleKeys.registryEnv SampleKeys.sk16 SampleKeys.iv16
       SampleMore.sanity16
  /\ @OpenKeyRegistry SampleKeys.registryEnv SampleKeys.emptyDir true
       SampleKeys.sk16 (inr SampleKeys.iv16)
     = (Returned (newKeyRegistry SampleKeys.sk16), SampleKeys.emptyDir)
  /\ @OpenKeyRegistry SampleKeys.registryEnv SampleKeys.emptyDir false
       SampleKeys.sk16 (inr SampleKeys.iv16)
     = (Returned
          (mkKeyRegistry ∅ 0 0 SampleKeys.sk16
             (Some (mkRegFd
                      (mkRegFile (SampleKeys.iv16 ++ SampleMore.sanity16)
                         (SampleKeys.iv16 ++ SampleMore.sanity16))
                      false))),
        mkRegDir
          (Some (mkRegFile (SampleKeys.iv16 ++ SampleMore.sanity16)
                   (SampleKeys.iv16 ++ SampleMore.sanity16))) None).
Proof.
  assert (H3 : @sanityAs SampleKeys.registryEnv SampleKeys.sk16 SampleKeys.iv16
                 SampleMore.sanity16) by (vm_compute; repeat split).
  split; [reflexivity|]. split; [reflexivity|]. split; [exact H3|].
  exact (@OpenKeyRegistry_creates_registry SampleKeys.registryEnv
           SampleKeys.sk16 SampleKeys.emptyDir SampleKeys.iv16
           SampleMore.sanity16 (inr SampleKeys.iv16) eq_refl eq_refl H3).
Defined.

(** ** Writing keys to the registry file *)

Section RegistryWrites.
Context {GE : RegistryEnv}.
Variable sk : list byte.

(** The key of an item as [storeDataKey] leaves it in memory: with the
    material that went to the file. *)
Lemma storeAll_stores (items : list item) :
  forall (f : regFile) (keys : gmap Z DataKey),
    Forall (itemOk sk) items ->
    NoDup (itemId <$> items) ->
    Forall (fun it => keys !! itemId it = Some (itemKey it)) items ->
    exists keys' : gmap Z DataKey,
      storeAll (itemId <$> items) (Some (mkRegFd f false)) sk keys
      = (None,
         Some (mkRegFd (mkRegFile (rf_bytes f ++ concat (itemFrame <$> items))
                          (rf_synced f)) false),
         keys')
      /\ (forall it : item,
            it ∈ items ->
            keys' !! itemId it = Some (set_Data (itemKey it) (snd (fst it))))
      /\ (forall id : Z, id ∉ itemId <$> items -> keys' !! id = keys !! id).
Proof.
  induction items as [|it rest IH]; intros f keys Hok Hnd Hin.
  - exists keys. cbn. rewrite app_nil_r. destruct f. repeat split.
    intros it Hit. inversion Hit.
  - apply Forall_cons in Hok as [Hit Hok].
    apply Forall_cons in Hin as [Hk Hin].
    rewrite fmap_cons in Hnd. apply NoDup_cons in Hnd as [Hfresh Hnd].
    rewrite fmap_cons. cbn [storeAll]. rewrite Hk.
    rewrite (storeDataKey_stored sk f _ _ _ Hit).
    edestruct (IH (mkRegFile (rf_bytes f ++ lenCrcBuf (snd it) ++ snd it)
                     (rf_synced f))
                 (<[itemId it := set_Data (itemKey it) (snd (fst it))]> keys)
                 Hok Hnd) as (keys' & Hrest & Hin' & Hout').
    { rewrite Forall_forall in Hin |- *. intros it' Hit'.
      rewrite lookup_insert_ne; [apply Hin; exact Hit'|].
      intros Heq. apply Hfresh. rewrite Heq.
      apply list_elem_of_fmap. exists it'. split; [reflexivity|exact Hit']. }
    exists keys'. rewrite Hrest. cbn [rf_bytes rf_synced].
    rewrite fmap_cons, concat_cons. unfold itemFrame at 2.
    rewrite <- !app_assoc. split; [reflexivity|]. split.
    + intros it' Hit'. apply elem_of_cons in Hit' as [->|Hit'].
      * rewrite (Hout' _ Hfresh). apply lookup_insert_eq.
      * apply Hin'. exact Hit'.
    + intros id Hid. rewrite not_elem_of_cons in Hid. destruct Hid as [Hne Hid].
      rewrite (Hout' _ Hid). apply lookup_insert_ne. congruence.
Qed.

(** [storeDataKey] with a sync, over a key that the cipher and the codec
    accept. *)
Lemma storeDataKey_stored_sync (f : regFile) (k : DataKey) (c d : list byte) :
  storedAs sk k c d ->
  storeDataKey (Some (mkRegFd f false)) sk k true
  = (None,
     Some (mkRegFd (mkRegFile (rf_bytes f ++ lenCrcBuf d ++ d)
                      (rf_bytes f ++ lenCrcBuf d ++ d)) false),
     set_Data k c).
Proof.
  intros (Hx & HM & _). unfold storeDataKey.
  destruct (0 <? length sk)%nat.
  - destruct Hx as [Hx _]. rewrite Hx, HM.
    cbn [fp_Write fd_file fd_readOnly rf_bytes rf_synced].
    unfold FileSync. cbn [fd_file fd_readOnly rf_bytes].
    rewrite <- !app_assoc. reflexivity.
  - subst c. assert (Hk : set_Data k (Data k) = k) by (destruct k; reflexivity).
    rewrite Hk in HM |- *. rewrite HM.
    cbn [fp_Write fd_file fd_readOnly rf_bytes rf_synced].
    unfold FileSync. cbn [fd_file fd_readOnly rf_bytes].
    rewrite <- !app_assoc. reflexivity.
Qed.

(** Through a descriptor that was opened read-only nothing is stored:
    the first write is refused. *)
Lemma storeDataKey_read_only (f : regFile) (k : DataKey) (c d : list byte)
    (sync : bool) :
  storedAs sk k c d ->
  storeDataKey (Some (mkRegFd f true)) sk k sync
  = (Some os_EBADF, Some (mkRegFd f true), set_Data k c).
Proof.
  intros (Hx & HM & _). unfold storeDataKey.
  destruct (0 <? length sk)%nat.
  - destruct Hx as [Hx _]. rewrite Hx, HM. reflexivity.
  - subst c. assert (Hk : set_Data k (Data k) = k) by (destruct k; reflexivity).
    rewrite Hk in HM |- *. rewrite HM. reflexivity.
Qed.

(** X19. What a successful [RewriteRegistry] leaves behind.  The
    registry file of the directory is replaced by a synced file that
    holds the IV, the sanity text and the records of the keys in the
    order of the visit, and the rewrite file is gone.  In memory every
    key of the registry now holds the material that went to the file,
    which is the encrypted material when there is a storage key: the
    keys are stored through pointers and nothing puts the clear
    material back. *)
Theorem RewriteRegistry_effect
    (dir : regDir) (reg : KeyRegistry) (items : list item) (iv e : list byte) :
  Forall (itemOk sk) items ->
  NoDup (itemId <$> items) ->
  Forall (fun it => dataKeys reg !! itemId it = Some (itemKey it)) items ->
  (if (0 <? length sk)%nat then XORBlock sk iv sanityText = inr e
   else e = sanityText) ->
  let bytes := iv ++ e ++ concat (itemFrame <$> items) in
  exists reg' : KeyRegistry,
    RewriteRegistry dir reg sk (inr iv) (itemId <$> items)
    = (None, mkRegDir (Some (mkRegFile bytes bytes)) None, reg')
    /\ (forall it : item,
          it ∈ items ->
          dataKeys reg' !! itemId it
          = Some (set_Data (itemKey it) (snd (fst it))))
    /\ (forall id : Z,
          id ∉ itemId <$> items -> dataKeys reg' !! id = dataKeys reg !! id)
    /\ nextKeyID reg' = nextKeyID reg
    /\ lastCreated reg' = lastCreated reg.
Proof.
  intros Hok Hnd Hin He bytes.
  assert (He' : (if (0 <? length sk)%nat then XORBlock sk iv sanityText
                 else inr sanityText) = (inr e : error + list byte)).
  { destruct (0 <? length sk)%nat; [exact He|subst e; reflexivity]. }
  destruct (storeAll_stores items (mkRegFile (iv ++ e) []) (dataKeys reg)
              Hok Hnd Hin) as (keys' & Hst & Hin' & Hout').
  exists (set_dataKeys reg keys').
  unfold RewriteRegistry. rewrite He'. rewrite Hst.
  cbn [rf_bytes rf_synced FileSync set_dataKeys dataKeys nextKeyID lastCreated].
  unfold FileSync. cbn [rf_bytes]. subst bytes. rewrite <- !app_assoc.
  repeat split; assumption.
Qed.

(** X20. A failed rotation.  When [getDataKey] fails, the keys in
    memory, the last creation time and the storage key are what they
    were, but the next key id has been advanced all the same: the id is
    incremented before anything that can fail. *)
Theorem getDataKey_failure_keeps_keys
    (kr kr' : KeyRegistry) (nowNs nowUnix : Z) (genIV : error + list byte)
    (src : nat -> byte) (err : error) :
  getDataKey kr nowNs nowUnix genIV src = (Failed err, kr') ->
  dataKeys kr' = dataKeys kr
  /\ lastCreated kr' = lastCreated kr
  /\ storageKey kr' = storageKey kr
  /\ nextKeyID kr' = Wire.wrap64 (nextKeyID kr + 1).
Proof.
  unfold getDataKey. intros H.
  destruct (length (storageKey kr) =? 0)%nat; [congruence|].
  destruct (withinRotation _); [congruence|].
  cbv zeta in H. destruct genIV as [e0|iv].
  - injection H as _ <-. repeat split.
  - destruct (storeDataKey _ _ _ _) as [[[e1|] f'] dk'].
    + injection H as _ <-. repeat split.
    + congruence.
Qed.

(** The test of [getDataKey] when ten days or more have passed. *)
Lemma rotation_due (nowNs last : Z) :
  - 2 ^ 63 <= last + unixToInternal < 2 ^ 63 ->
  10 * 24 * 3600 * 10 ^ 9 <= nowNs - last * 10 ^ 9 ->
  withinRotation (time_Since nowNs last) = false.
Proof.
  intros Hrange Hdue. rewrite (withinRotation_ten_days _ _ Hrange).
  apply Z.ltb_ge. exact Hdue.
Qed.

(** X21. A rotation survives a reopening.  On a registry that was opened
    for writing from a file of well formed records and whose last
    creation is ten days old or older, [getDataKey] makes the key with
    the next id, appends it to the file and syncs the file; [dataKey]
    finds the new key under its id; and opening the file again, in
    either mode, gives a registry that has the new key under its id,
    with the material in clear, and that id as its next id. *)
Theorem getDataKey_rotation_survives_reopen
    (kr : KeyRegistry) (f : regFile) (iv0 e : list byte) (items : list item)
    (nowNs nowUnix : Z) (iv : list byte) (src : nat -> byte)
    (c d : list byte) (ro : bool) :
  storageKey kr = sk ->
  sk <> [] ->
  fp kr = Some (mkRegFd f false) ->
  rf_bytes f = iv0 ++ e ++ concat (itemFrame <$> items) ->
  length iv0 = 16%nat ->
  sanityAs sk iv0 e ->
  Forall (itemOk sk) items ->
  nextKeyID kr = fold_left Z.max (itemId <$> items) 0 ->
  nextKeyID kr + 1 < 2 ^ 64 ->
  - 2 ^ 63 <= lastCreated kr + unixToInternal < 2 ^ 63 ->
  10 * 24 * 3600 * 10 ^ 9 <= nowNs - lastCreated kr * 10 ^ 9 ->
  let dk := mkDataKey (nextKeyID kr + 1) (rand_Read src (length sk)) iv nowUnix in
  storedAs sk dk c d ->
  exists (kr' : KeyRegistry) (f' : regFile) (kr2 : KeyRegistry),
    getDataKey kr nowNs nowUnix (inr iv) src = (Returned (Some dk), kr')
    /\ fp kr' = Some (mkRegFd f' false)
    /\ rf_bytes f' = rf_bytes f ++ lenCrcBuf d ++ d
    /\ rf_synced f' = rf_bytes f'
    /\ dataKey kr' (KeyID dk) = inr (Some dk)
    /\ buildKeyRegistry (mkRegFd f' ro) sk = Returned kr2
    /\ dataKeys kr2 !! KeyID dk = Some dk
    /\ nextKeyID kr2 = KeyID dk.
Proof.
  intros Hsk Hne Hfp Hbytes Hiv0 Hsan Hok Hnext Hmax Hrange Hdue dk Hst.
  pose proof (rotation_due _ _ Hrange Hdue) as Hrot.
  pose proof (fold_max_ge (itemId <$> items) 0) as Hge. rewrite <- Hnext in Hge.
  assert (Hwrap : Wire.wrap64 (nextKeyID kr + 1) = nextKeyID kr + 1).
  { unfold Wire.wrap64. apply Z.mod_small. lia. }
  set (bytes' := rf_bytes f ++ lenCrcBuf d ++ d).
  set (f' := mkRegFile bytes' bytes').
  set (kr' := mkKeyRegistry (<[nextKeyID kr + 1 := dk]> (dataKeys kr)) nowUnix
                (nextKeyID kr + 1) sk (Some (mkRegFd f' false))).
  assert (Hget : getDataKey kr nowNs nowUnix (inr iv) src
                 = (Returned (Some dk), kr')).
  { unfold getDataKey. rewrite Hsk.
    destruct (Nat.eqb_spec (length sk) 0) as [Hz|_].
    { destruct sk; [congruence|discriminate Hz]. }
    rewrite Hrot. cbv zeta. rewrite Hwrap, Hfp.
    fold dk. rewrite (storeDataKey_stored_sync f dk c d Hst).
    assert (Hdk : set_Data (set_Data dk c) (rand_Read src (length sk)) = dk)
      by reflexivity.
    rewrite Hdk. reflexivity. }
  assert (Hfile : bytes'
                  = iv0 ++ e ++ concat (itemFrame <$> (items ++ [(dk, c, d)]))).
  { subst bytes'. rewrite Hbytes, fmap_app, concat_app. cbn [fmap list_fmap concat].
    unfold itemFrame at 2. cbn [snd]. rewrite app_nil_r, <- !app_assoc.
    reflexivity. }
  assert (Hok' : Forall (itemOk sk) (items ++ [(dk, c, d)])).
  { apply Forall_app. split; [exact Hok|]. apply Forall_singleton. exact Hst. }
  pose proof (buildKeyRegistry_items sk ro iv0 e bytes' _ Hiv0 Hsan Hok') as Hopen.
  cbv zeta in Hopen. rewrite <- Hfile in Hopen. fold f' in Hopen.
  rewrite fmap_app, fold_left_app in Hopen. cbn [fmap list_fmap fold_left] in Hopen.
  change (itemKey (dk, c, d)) with dk in Hopen.
  destruct (fold_absorb_next (itemKey <$> items) (newKeyRegistry sk))
    as (H1 & _).
  rewrite <- list_fmap_compose in H1. cbn [newKeyRegistry nextKeyID] in H1.
  change (KeyID ∘ itemKey) with itemId in H1. rewrite <- Hnext in H1.
  set (base := fold_left absorb (itemKey <$> items) (newKeyRegistry sk)) in *.
  exists kr', f'. eexists. split; [exact Hget|].
  split; [reflexivity|]. split; [reflexivity|]. split; [reflexivity|]. split.
  { unfold dataKey. cbn [KeyID dk].
    destruct (Z.eqb_spec (nextKeyID kr + 1) 0) as [Hz|_]; [lia|].
    subst kr'. cbn [dataKeys]. rewrite lookup_insert_eq. reflexivity. }
  split; [exact Hopen|].
  unfold absorb. cbn [set_fp dataKeys nextKeyID KeyID dk]. rewrite H1.
  destruct (Z.gtb_spec (nextKeyID kr + 1) (nextKeyID kr)) as [_|Hle]; [|lia].
  split; [apply lookup_insert_eq|reflexivity].
Qed.

(** X25. A registry that was opened read-only cannot rotate.  Opening a
    file of well formed records read-only succeeds and gives a registry
    whose descriptor is read-only; when its last creation is ten days
    old or older, [getDataKey] fails on the first write with the error
    of the descriptor: the file is as it was, no key is recorded, and
    the next key id has been advanced all the same. *)
Theorem getDataKey_read_only_fails
    (dir : regDir) (iv0 e synced : list byte) (items : list item)
    (genIV : error + list byte) (nowNs nowUnix : Z) (iv : list byte)
    (src : nat -> byte) (c d : list byte) :
  sk <> [] ->
  dKeyRegistry dir
  = Some (mkRegFile (iv0 ++ e ++ concat (itemFrame <$> items)) synced) ->
  length iv0 = 16%nat ->
  sanityAs sk iv0 e ->
  Forall (itemOk sk) items ->
  let last := fold_left Z.max ((fun it => CreatedAt (itemKey it)) <$> items) 0 in
  let next := Wire.wrap64 (fold_left Z.max (itemId <$> items) 0 + 1) in
  - 2 ^ 63 <= last + unixToInternal < 2 ^ 63 ->
  10 * 24 * 3600 * 10 ^ 9 <= nowNs - last * 10 ^ 9 ->
  storedAs sk (mkDataKey next (rand_Read src (length sk)) iv nowUnix) c d ->
  exists kr : KeyRegistry,
    OpenKeyRegistry dir true sk genIV = (Returned kr, dir)
    /\ fp kr
       = Some (mkRegFd
                 (mkRegFile (iv0 ++ e ++ concat (itemFrame <$> items)) synced)
                 true)
    /\ getDataKey kr nowNs nowUnix (inr iv) src
       = (Failed os_EBADF,
          mkKeyRegistry (dataKeys kr) (lastCreated kr) next sk (fp kr)).
Proof.
  intros Hne Hdir Hiv0 Hsan Hok last next Hrange Hdue Hst.
  pose proof (buildKeyRegistry_items sk true iv0 e synced items Hiv0 Hsan Hok)
    as Hopen.
  cbv zeta in Hopen.
  destruct (fold_absorb_next (itemKey <$> items) (newKeyRegistry sk))
    as (H1 & H2 & H3 & _).
  rewrite <- list_fmap_compose in H1, H2.
  cbn [newKeyRegistry nextKeyID lastCreated storageKey] in H1, H2, H3.
  change (KeyID ∘ itemKey) with itemId in H1.
  set (base := fold_left absorb (itemKey <$> items) (newKeyRegistry sk)) in *.
  eexists. split.
  { unfold OpenKeyRegistry. rewrite Hdir, Hopen. reflexivity. }
  split; [reflexivity|].
  unfold getDataKey. cbn [set_fp storageKey lastCreated nextKeyID fp dataKeys].
  rewrite H1, H3.
  destruct (Nat.eqb_spec (length sk) 0) as [Hz|_].
  { destruct sk; [congruence|discriminate Hz]. }
  change ((CreatedAt ∘ itemKey)) with (fun it : item => CreatedAt (itemKey it))
    in H2.
  rewrite H2. fold last. rewrite (rotation_due _ _ Hrange Hdue). cbv zeta.
  fold next.
  rewrite (storeDataKey_read_only _ _ c d true Hst). reflexivity.
Qed.

End RegistryWrites.

Lemma RewriteRegistry_effect_witness :
  Forall (@itemOk SampleKeys.registryEnv SampleKeys.sk16) SampleMore.items21
  /\ NoDup (itemId <$> SampleMore.items21)
  /\ Forall (fun it =>
               dataKeys (SampleKeys.twoKeys SampleKeys.sk16) !! itemId it
               = Some (itemKey it)) SampleMore.items21
  /\ (if (0 <? length SampleKeys.sk16)%nat
      then @XORBlock SampleKeys.registryEnv SampleKeys.sk16 SampleKeys.iv16
             sanityText = inr SampleMore.sanity16
      else SampleMore.sanity16 = sanityText)
  /\ exists reg' : KeyRegistry,
       @RewriteRegistry SampleKeys.registryEnv SampleKeys.emptyDir
         (SampleKeys.twoKeys SampleKeys.sk16) SampleKeys.sk16
         (inr SampleKeys.iv16) (itemId <$> SampleMore.items21)
       = (None,
          mkRegDir
            (Some (mkRegFile
                     (SampleKeys.iv16 ++ SampleMore.sanity16
                      ++ concat (@itemFrame SampleKeys.registryEnv
                                 <$> SampleMore.items21))
                     (SampleKeys.iv16 ++ SampleMore.sanity16
                      ++ concat (@itemFrame SampleKeys.registryEnv
                                 <$> SampleMore.items21)))) None,
          reg')
       /\ (forall it : item,
             it ∈ SampleMore.items21 ->
             dataKeys reg' !! itemId it
             = Some (set_Data (itemKey it) (snd (fst it))))
       /\ (forall id : Z,
             id ∉ itemId <$> SampleMore.items21 ->
             dataKeys reg' !! id
             = dataKeys (SampleKeys.twoKeys SampleKeys.sk16) !! id)
       /\ nextKeyID reg' = nextKeyID (SampleKeys.twoKeys SampleKeys.sk16)
       /\ lastCreated reg' = lastCreated (SampleKeys.twoKeys SampleKeys.sk16).
Proof.
  assert (H1 : Forall (@itemOk SampleKeys.registryEnv SampleKeys.sk16)
                 SampleMore.items21)
    by (repeat constructor; vm_compute; congruence).
  assert (H2 : NoDup (itemId <$> SampleMore.items21))
    by (apply (bool_decide_unpack _); vm_compute; exact I).
  assert (H3 : Forall (fun it =>
                         dataKeys (SampleKeys.twoKeys SampleKeys.sk16) !! itemId it
                         = Some (itemKey it)) SampleMore.items21)
    by (repeat constructor).
  assert (H4 : if (0 <? length SampleKeys.sk16)%nat
               then @XORBlock SampleKeys.registryEnv SampleKeys.sk16
                      SampleKeys.iv16 sanityText = inr SampleMore.sanity16
               else SampleMore.sanity16 = sanityText)
    by (vm_compute; reflexivity).
  split; [exact H1|]. split; [exact H2|]. split; [exact H3|]. split; [exact H4|].
  exact (@RewriteRegistry_effect SampleKeys.registryEnv SampleKeys.sk16
           SampleKeys.emptyDir (SampleKeys.twoKeys SampleKeys.sk16)
           SampleMore.items21 SampleKeys.iv16 SampleMore.sanity16 H1 H2 H3 H4).
Defined.

Lemma getDataKey_failure_keeps_keys_witness :
  @getDataKey SampleKeys.registryEnv SampleMore.onDisk SampleKeys.hundredDaysNs
    SampleKeys.hundredDaysUnix (inl (errFault 7)) SampleKeys.randomSource
  = (Failed (errFault 7),
     mkKeyRegistry (dataKeys SampleMore.onDisk) 2000 3 SampleKeys.sk16
       (fp SampleMore.onDisk))
  /\ dataKeys (mkKeyRegistry (dataKeys SampleMore.onDisk) 2000 3 SampleKeys.sk16
                (fp SampleMore.onDisk))
     = dataKeys SampleMore.onDisk
  /\ lastCreated (mkKeyRegistry (dataKeys SampleMore.onDisk) 2000 3
                    SampleKeys.sk16 (fp SampleMore.onDisk))
     = lastCreated SampleMore.onDisk
  /\ storageKey (mkKeyRegistry (dataKeys SampleMore.onDisk) 2000 3
                   SampleKeys.sk16 (fp SampleMore.onDisk))
     = storageKey SampleMore.onDisk
  /\ nextKeyID (mkKeyRegistry (dataKeys SampleMore.onDisk) 2000 3
                  SampleKeys.sk16 (fp SampleMore.onDisk))
     = Wire.wrap64 (nextKeyID SampleMore.onDisk + 1).
Proof.
  assert (H : @getDataKey SampleKeys.registryEnv SampleMore.onDisk
                SampleKeys.hundredDaysNs SampleKeys.hundredDaysUnix
                (inl (errFault 7)) SampleKeys.randomSource
              = (Failed (errFault 7),
                 mkKeyRegistry (dataKeys SampleMore.onDisk) 2000 3
                   SampleKeys.sk16 (fp SampleMore.onDisk)))
    by reflexivity.
  split; [exact H|].
  exact (@getDataKey_failure_keeps_keys SampleKeys.registryEnv
           SampleMore.onDisk _ SampleKeys.hundredDaysNs
           SampleKeys.hundredDaysUnix (inl (errFault 7))
           SampleKeys.randomSource (errFault 7) H).
Defined.

Lemma getDataKey_rotation_survives_reopen_witness :
  storageKey SampleMore.onDisk = SampleKeys.sk16
  /\ SampleKeys.sk16 <> []
  /\ fp SampleMore.onDisk
     = Some (mkRegFd
               (mkRegFile SampleMore.registryBytes SampleMore.registryBytes)
               false)
  /\ rf_bytes (mkRegFile SampleMore.registryBytes SampleMore.registryBytes)
     = SampleKeys.iv16 ++ SampleMore.sanity16
       ++ concat (@itemFrame SampleKeys.registryEnv <$> SampleMore.items21)
  /\ length SampleKeys.iv16 = 16%nat
  /\ @sanityAs SampleKeys.registryEnv SampleKeys.sk16 SampleKeys.iv16
       SampleMore.sanity16
  /\ Forall (@itemOk SampleKeys.registryEnv SampleKeys.sk16) SampleMore.items21
  /\ nextKeyID SampleMore.onDisk
     = fold_left Z.max (itemId <$> SampleMore.items21) 0
  /\ nextKeyID SampleMore.onDisk + 1 < 2 ^ 64
  /\ - 2 ^ 63 <= lastCreated SampleMore.onDisk + unixToInternal < 2 ^ 63
  /\ 10 * 24 * 3600 * 10 ^ 9
     <= SampleKeys.hundredDaysNs - lastCreated SampleMore.onDisk * 10 ^ 9
  /\ @storedAs SampleKeys.registryEnv SampleKeys.sk16 SampleMore.rotated
       (snd (fst (SampleKeys.storedItem SampleKeys.sk16 SampleMore.rotated)))
       (snd (SampleKeys.storedItem SampleKeys.sk16 SampleMore.rotated))
  /\ exists (kr' : KeyRegistry) (f' : regFile) (kr2 : KeyRegistry),
       @getDataKey SampleKeys.registryEnv SampleMore.onDisk
         SampleKeys.hundredDaysNs SampleKeys.hundredDaysUnix
         (inr SampleKeys.iv16) SampleKeys.randomSource
       = (Returned (Some SampleMore.rotated), kr')
       /\ fp kr' = Some (mkRegFd f' false)
       /\ rf_bytes f'
          = rf_bytes (mkRegFile SampleMore.registryBytes SampleMore.registryBytes)
            ++ @lenCrcBuf SampleKeys.registryEnv
                 (snd (SampleKeys.storedItem SampleKeys.sk16 SampleMore.rotated))
            ++ snd (SampleKeys.storedItem SampleKeys.sk16 SampleMore.rotated)
       /\ rf_synced f' = rf_bytes f'
       /\ dataKey kr' (KeyID SampleMore.rotated) = inr (Some SampleMore.rotated)
       /\ @buildKeyRegistry SampleKeys.registryEnv (mkRegFd f' true)
            SampleKeys.sk16 = Returned kr2
       /\ dataKeys kr2 !! KeyID SampleMore.rotated = Some SampleMore.rotated
       /\ nextKeyID kr2 = KeyID SampleMore.rotated.
Proof.
  assert (H2 : SampleKeys.sk16 <> []) by discriminate.
  assert (H6 : @sanityAs SampleKeys.registryEnv SampleKeys.sk16 SampleKeys.iv16
                 SampleMore.sanity16) by (vm_compute; repeat split).
  assert (H7 : Forall (@itemOk SampleKeys.registryEnv SampleKeys.sk16)
                 SampleMore.items21)
    by (repeat constructor; vm_compute; congruence).
  assert (H9 : nextKeyID SampleMore.onDisk + 1 < 2 ^ 64)
    by (vm_compute; reflexivity).
  assert (H10 : - 2 ^ 63 <= lastCreated SampleMore.onDisk + unixToInternal
                < 2 ^ 63) by (vm_compute; split; congruence).
  assert (H10' : 10 * 24 * 3600 * 10 ^ 9
                 <= SampleKeys.hundredDaysNs
                    - lastCreated SampleMore.onDisk * 10 ^ 9)
    by (vm_compute; congruence).
  assert (H11 : @storedAs SampleKeys.registryEnv SampleKeys.sk16
                  SampleMore.rotated
                  (snd (fst (SampleKeys.storedItem SampleKeys.sk16
                               SampleMore.rotated)))
                  (snd (SampleKeys.storedItem SampleKeys.sk16 SampleMore.rotated)))
    by (repeat constructor; vm_compute; congruence).
  split; [reflexivity|]. split; [exact H2|]. split; [reflexivity|].
  split; [reflexivity|]. split; [reflexivity|]. split; [exact H6|].
  split; [exact H7|]. split; [reflexivity|]. split; [exact H9|].
  split; [exact H10|]. split; [exact H10'|]. split; [exact H11|].
  exact (@getDataKey_rotation_survives_reopen SampleKeys.registryEnv
           SampleKeys.sk16 SampleMore.onDisk
           (mkRegFile SampleMore.registryBytes SampleMore.registryBytes)
           SampleKeys.iv16 SampleMore.sanity16 SampleMore.items21
           SampleKeys.hundredDaysNs SampleKeys.hundredDaysUnix SampleKeys.iv16
           SampleKeys.randomSource _ _ true
           eq_refl H2 eq_refl eq_refl eq_refl H6 H7 eq_refl H9 H10 H10' H11).
Defined.

Lemma getDataKey_read_only_fails_witness :
  SampleKeys.sk16 <> []
  /\ dKeyRegistry (mkRegDir (Some (mkRegFile SampleMore.registryBytes [])) None)
     = Some (mkRegFile
               (SampleKeys.iv16 ++ SampleMore.sanity16
                ++ concat (@itemFrame SampleKeys.registryEnv
                           <$> SampleMore.items21)) [])
  /\ length SampleKeys.iv16 = 16%nat
  /\ @sanityAs SampleKeys.registryEnv SampleKeys.sk16 SampleKeys.iv16
       SampleMore.sanity16
  /\ Forall (@itemOk SampleKeys.registryEnv SampleKeys.sk16) SampleMore.items21
  /\ - 2 ^ 63
     <= fold_left Z.max
          ((fun it => CreatedAt (itemKey it)) <$> SampleMore.items21) 0
        + unixToInternal < 2 ^ 63
  /\ 10 * 24 * 3600 * 10 ^ 9
     <= SampleKeys.hundredDaysNs
        - fold_left Z.max
            ((fun it => CreatedAt (itemKey it)) <$> SampleMore.items21) 0
          * 10 ^ 9
  /\ @storedAs SampleKeys.registryEnv SampleKeys.sk16
       (mkDataKey
          (Wire.wrap64 (fold_left Z.max (itemId <$> SampleMore.items21) 0 + 1))
          (rand_Read SampleKeys.randomSource (length SampleKeys.sk16))
          SampleKeys.iv16 SampleKeys.hundredDaysUnix)
       (snd (fst (SampleKeys.storedItem SampleKeys.sk16 SampleMore.rotated)))
       (snd (SampleKeys.storedItem SampleKeys.sk16 SampleMore.rotated))
  /\ exists kr : KeyRegistry,
       @OpenKeyRegistry SampleKeys.registryEnv
         (mkRegDir (Some (mkRegFile SampleMore.registryBytes [])) None)
         true SampleKeys.sk16 (inr SampleKeys.iv16)
       = (Returned kr,
          mkRegDir (Some (mkRegFile SampleMore.registryBytes [])) None)
       /\ fp kr
          = Some (mkRegFd
                    (mkRegFile
                       (SampleKeys.iv16 ++ SampleMore.sanity16
                        ++ concat (@itemFrame SampleKeys.registryEnv
                                   <$> SampleMore.items21)) [])
                    true)
       /\ @getDataKey SampleKeys.registryEnv kr SampleKeys.hundredDaysNs
            SampleKeys.hundredDaysUnix (inr SampleKeys.iv16)
            SampleKeys.randomSource
          = (Failed os_EBADF,
             mkKeyRegistry (dataKeys kr) (lastCreated kr)
               (Wire.wrap64
                  (fold_left Z.max (itemId <$> SampleMore.items21) 0 + 1))
               SampleKeys.sk16 (fp kr)).
Proof.
  assert (H1 : SampleKeys.sk16 <> []) by discriminate.
  assert (H4 : @sanityAs SampleKeys.registryEnv SampleKeys.sk16 SampleKeys.iv16
                 SampleMore.sanity16) by (vm_compute; repeat split).
  assert (H5 : Forall (@itemOk SampleKeys.registryEnv SampleKeys.sk16)
                 SampleMore.items21)
    by (repeat constructor; vm_compute; congruence).
  assert (H6 : - 2 ^ 63
               <= fold_left Z.max
                    ((fun it => CreatedAt (itemKey it)) <$> SampleMore.items21) 0
                  + unixToInternal < 2 ^ 63) by (vm_compute; split; congruence).
  assert (H7 : 10 * 24 * 3600 * 10 ^ 9
               <= SampleKeys.hundredDaysNs
                  - fold_left Z.max
                      ((fun it => CreatedAt (itemKey it)) <$> SampleMore.items21)
                      0 * 10 ^ 9) by (vm_compute; congruence).
  assert (H8 : @storedAs SampleKeys.registryEnv SampleKeys.sk16
                 (mkDataKey
                    (Wire.wrap64
                       (fold_left Z.max (itemId <$> SampleMore.items21) 0 + 1))
                    (rand_Read SampleKeys.randomSource (length SampleKeys.sk16))
                    SampleKeys.iv16 SampleKeys.hundredDaysUnix)
                 (snd (fst (SampleKeys.storedItem SampleKeys.sk16
                              SampleMore.rotated)))
                 (snd (SampleKeys.storedItem SampleKeys.sk16 SampleMore.rotated)))
    by (repeat constructor; vm_compute; congruence).
  split; [exact H1|]. split; [reflexivity|]. split; [reflexivity|].
  split; [exact H4|]. split; [exact H5|]. split; [exact H6|].
  split; [exact H7|]. split; [exact H8|].
  exact (@getDataKey_read_only_fails SampleKeys.registryEnv SampleKeys.sk16
           (mkRegDir (Some (mkRegFile SampleMore.registryBytes [])) None)
           SampleKeys.iv16 SampleMore.sanity16 [] SampleMore.items21
           (inr SampleKeys.iv16) SampleKeys.hundredDaysNs
           SampleKeys.hundredDaysUnix SampleKeys.iv16 SampleKeys.randomSource
           _ _ H1 eq_refl eq_refl H4 H5 H6 H7 H8).
Defined.

(** ** Opening the log manager, continued *)

Section FilterMore.

Lemma filterWAL_max (walhead : Z) (readOnly : bool) (fids : list Z) :
  forall (d : disk) (tr : list event) (m : Z) (acc : list Z)
         (d' : disk) (tr' : list event) (m' : Z) (out : list Z),
    filterWAL walhead readOnly fids d tr m acc = inr (d', tr', m', out) ->
    m' = fold_left Z.max fids m.
Proof.
  induction fids as [|fid rest IH]; intros d tr m acc d' tr' m' out H.
  - simpl in H. injection H as <- <- <- <-. reflexivity.
  - cbn [filterWAL fold_left] in H |- *.
    replace (Z.max m fid) with (if fid >? m then fid else m)
      by (destruct (Z.gtb_spec fid m); lia).
    destruct (fid >? walhead); [|eapply IH; eassumption].
    destruct readOnly; cbn [negb] in H; [eapply IH; eassumption|].
    destruct (os_Remove d (walFilePath fid)) as [err|d1]; [discriminate|].
    eapply IH; eassumption.
Qed.

Lemma filterWAL_read_only (walhead : Z) (fids : list Z) :
  forall (d : disk) (tr : list event) (m : Z) (acc : list Z),
    exists (m' : Z) (out : list Z),
      filterWAL walhead true fids d tr m acc = inr (d, tr, m', out).
Proof.
  induction fids as [|fid rest IH]; intros d tr m acc.
  - eexists _, _. reflexivity.
  - cbn [filterWAL negb]. destruct (fid >? walhead); apply IH.
Qed.

Lemma filterVlog_spec (vheadFid : Z) (fids : list Z) :
  forall (m : Z) (acc : list Z),
    filterVlog vheadFid fids m acc
    = (fold_left Z.max fids m,
       acc ++ filter (fun fid => vheadFid <= fid) fids).
Proof.
  induction fids as [|fid rest IH]; intros m acc.
  - cbn. rewrite app_nil_r. reflexivity.
  - cbn [filterVlog fold_left].
    replace (if fid >? m then fid else m) with (Z.max m fid)
      by (destruct (Z.gtb_spec fid m); lia).
    destruct (Z.ltb_spec fid vheadFid) as [Hlt|Hge]; rewrite IH.
    + rewrite filter_cons_False by lia. reflexivity.
    + rewrite filter_cons_True by lia. rewrite <- app_assoc. reflexivity.
Qed.

(** The removal that makes the WAL filter fail is the last thing it
    tried, on a file above [walhead] that the disk refuses to give up. *)
Lemma filterWAL_failure (walhead : Z) (readOnly : bool) (fids : list Z) :
  forall (d : disk) (tr : list event) (m : Z) (acc : list Z)
         (err : error) (d' : disk) (tr' : list event),
    filterWAL walhead readOnly fids d tr m acc = inl (err, d', tr') ->
    readOnly = false
    /\ exists (fid : Z) (cause : error),
         fid ∈ fids /\ walhead < fid
         /\ err = Wrapf cause "Error while removing log file %d"
         /\ os_Remove d' (walFilePath fid) = inl cause
         /\ last tr' = Some (EvRemove (walFilePath fid)).
Proof.
  induction fids as [|fid rest IH]; intros d tr m acc err d' tr' H.
  - discriminate H.
  - cbn [filterWAL] in H.
    assert (Hrest : forall d0 tr0 m0 acc0,
               filterWAL walhead readOnly rest d0 tr0 m0 acc0 = inl (err, d', tr') ->
               readOnly = false
               /\ exists (fid0 : Z) (cause : error),
                    fid0 ∈ fid :: rest /\ walhead < fid0
                    /\ err = Wrapf cause "Error while removing log file %d"
                    /\ os_Remove d' (walFilePath fid0) = inl cause
                    /\ last tr' = Some (EvRemove (walFilePath fid0))).
    { intros d0 tr0 m0 acc0 H0.
      destruct (IH _ _ _ _ _ _ _ H0) as (Hro & fid0 & cause & Hin & Hrest).
      split; [exact Hro|]. exists fid0, cause.
      split; [apply list_elem_of_further; exact Hin|exact Hrest]. }
    destruct (Z.gtb_spec fid walhead) as [Hgt|Hle]; [|eapply Hrest; exact H].
    destruct readOnly; cbn [negb] in H; [eapply Hrest; exact H|].
    destruct (os_Remove d (walFilePath fid)) as [cause|d1] eqn:Hrem;
      [|eapply Hrest; exact H].
    injection H as <- <- <-. split; [reflexivity|].
    exists fid, cause. split; [apply list_elem_of_here|].
    split; [lia|]. split; [reflexivity|]. split; [exact Hrem|].
    apply last_snoc.
Qed.

(** With both listings at hand the first part of [openLogManager] is
    the filter. *)
Lemma openLogManager_prefix_listed (o : Options) (vhd : valuePointer)
    (walhead : Z) (wals vlogs : list Z) (d : disk) :
  openLogManager_prefix o vhd walhead (inr wals) (inr vlogs) d
  = openLogManager_filter o vhd walhead wals vlogs d.
Proof.
  unfold openLogManager_prefix, openLogManager_filter.
  destruct (filterWAL walhead (ReadOnly o) wals d [] 0 [])
    as [bad|[[[d' tr'] m'] out]]; reflexivity.
Qed.

(** X22. In read-only mode the first part of [openLogManager] touches
    nothing, whatever the two listings return and whatever the two
    heads are: no file is removed, on success and on failure.  It fails
    exactly when one of the two listings of the directory fails, with
    the error of that listing, wrapped. *)
Theorem openLogManager_prefix_read_only
    (o : Options) (vhd : valuePointer) (walhead : Z)
    (walFiles vlogFiles : error + list Z) (d : disk) :
  ReadOnly o = true ->
  match openLogManager_prefix o vhd walhead walFiles vlogFiles d with
  | inr pre =>
      opDisk pre = d /\ opTrace pre = []
      /\ exists wals vlogs : list Z, walFiles = inr wals /\ vlogFiles = inr vlogs
  | inl (err, d', tr') =>
      d' = d /\ tr' = []
      /\ ((exists cause : error,
             walFiles = inl cause
             /\ err = Wrapf cause "Error while populating map in openLogManager")
          \/ (exists (wals : list Z) (cause : error),
                walFiles = inr wals /\ vlogFiles = inl cause
                /\ err = Wrapf cause "Error while populating vlog files"))
  end.
Proof.
  intros Hro. unfold openLogManager_prefix. rewrite Hro.
  destruct walFiles as [cause|wals].
  { split; [reflexivity|]. split; [reflexivity|].
    left. exists cause. split; reflexivity. }
  destruct (filterWAL_read_only walhead wals d [] 0 []) as (m' & out & ->).
  destruct vlogFiles as [cause|vlogs].
  { split; [reflexivity|]. split; [reflexivity|].
    right. exists wals, cause. repeat split. }
  destruct (filterVlog (Fid vhd) vlogs 0 []) as [maxVlog ids].
  cbn [opDisk opTrace]. split; [reflexivity|]. split; [reflexivity|].
  exists wals, vlogs. split; reflexivity.
Qed.

(** X23. What the replayer is built from.  When the first part of
    [openLogManager] succeeds, the WAL ids of the replayer are the ids
    found that are at most [walhead], in ascending order, and its vlog
    ids are the ids found that are at least the file id of [vhead], in
    ascending order; the two largest ids are taken over all the files
    found, the filtered and the removed ones included. *)
Theorem openLogManager_filter_replayer
    (o : Options) (vhd : valuePointer) (walhead : Z)
    (walFiles vlogFiles : list Z) (d : disk) (pre : openPrefix) :
  openLogManager_filter o vhd walhead walFiles vlogFiles d = inr pre ->
  walIDs (opReplayer pre) ≡ₚ filter (fun fid => fid <= walhead) walFiles
  /\ StronglySorted Z.le (walIDs (opReplayer pre))
  /\ vlogIDs (opReplayer pre) ≡ₚ filter (fun fid => Fid vhd <= fid) vlogFiles
  /\ StronglySorted Z.le (vlogIDs (opReplayer pre))
  /\ opMaxWalID pre = fold_left Z.max walFiles 0
  /\ opMaxVlogID pre = fold_left Z.max vlogFiles 0
  /\ vhead (opReplayer pre) = vhd.
Proof.
  unfold openLogManager_filter. intros H.
  destruct (filterWAL walhead (ReadOnly o) walFiles d [] 0 [])
    as [bad|[[[d' tr'] m'] out]] eqn:Hf; [discriminate|].
  rewrite filterVlog_spec in H. injection H as <-.
  cbn [opReplayer walIDs vlogIDs opMaxWalID opMaxVlogID vhead app].
  pose proof (filterWAL_kept _ _ _ _ _ _ _ _ _ _ _ Hf) as [-> _].
  pose proof (filterWAL_max _ _ _ _ _ _ _ _ _ _ _ Hf) as ->.
  cbn [app]. unfold sortIDs. repeat split.
  - apply merge_sort_Permutation.
  - apply StronglySorted_merge_sort; apply _.
  - apply merge_sort_Permutation.
  - apply StronglySorted_merge_sort; apply _.
Qed.

(** X24. The three ways in which the first part of [openLogManager]
    fails.  The listing of the WAL files fails: nothing has been
    touched.  The disk refuses to remove a WAL file above [walhead]:
    the store is not read-only, that removal is the last thing that was
    tried, and the file is still refused on the disk that is left.  Or
    the listing of the vlog files fails: the WAL loop has run in full
    by then.  In the last two cases nothing is undone: the disk that is
    left is the one after the removals that went through. *)
Theorem openLogManager_prefix_failure
    (o : Options) (vhd : valuePointer) (walhead : Z)
    (walFiles vlogFiles : error + list Z) (d : disk)
    (err : error) (d' : disk) (tr' : list event) :
  openLogManager_prefix o vhd walhead walFiles vlogFiles d = inl (err, d', tr') ->
  (exists cause : error,
     walFiles = inl cause
     /\ err = Wrapf cause "Error while populating map in openLogManager"
     /\ d' = d /\ tr' = [])
  \/ (exists (wals : list Z) (fid : Z) (cause : error),
        walFiles = inr wals
        /\ ReadOnly o = false
        /\ fid ∈ wals /\ walhead < fid
        /\ err = Wrapf cause "Error while removing log file %d"
        /\ os_Remove d' (walFilePath fid) = inl cause
        /\ last tr' = Some (EvRemove (walFilePath fid)))
  \/ (exists (wals : list Z) (cause : error) (maxWal : Z) (kept : list Z),
        walFiles = inr wals
        /\ vlogFiles = inl cause
        /\ err = Wrapf cause "Error while populating vlog files"
        /\ filterWAL walhead (ReadOnly o) wals d [] 0 [] = inr (d', tr', maxWal, kept)).
Proof.
  unfold openLogManager_prefix. intros H.
  destruct walFiles as [cause|wals].
  { injection H as <- <- <-. left. exists cause. repeat split. }
  destruct (filterWAL walhead (ReadOnly o) wals d [] 0 [])
    as [[[err0 d0] tr0]|[[[d0 tr0] m0] out]] eqn:Hf.
  - injection H as <- <- <-. right. left.
    destruct (filterWAL_failure _ _ _ _ _ _ _ _ _ _ Hf)
      as (Hro & fid & cause & Hin & Hgt & Herr & Hrem & Hlast).
    exists wals, fid, cause. repeat split; assumption.
  - destruct vlogFiles as [cause|vlogs].
    + injection H as <- <- <-. right. right.
      exists wals, cause, m0, out. repeat split. exact Hf.
    + destruct (filterVlog (Fid vhd) vlogs 0 []). discriminate H.
Qed.

End FilterMore.

Lemma openLogManager_prefix_read_only_witness :
  ReadOnly SampleMore.readOnlyOptions = true
  /\ match openLogManager_prefix SampleMore.readOnlyOptions (mkVP 1 0 20) 2
             (inr [3; 1; 2]) (inl os_ErrPermission) Sample.threeWals with
     | inr pre =>
         opDisk pre = Sample.threeWals /\ opTrace pre = []
         /\ exists wals vlogs : list Z,
              (inr [3; 1; 2] : error + list Z) = inr wals
              /\ (inl os_ErrPermission : error + list Z) = inr vlogs
     | inl (err, d', tr') =>
         d' = Sample.threeWals /\ tr' = []
         /\ ((exists cause : error,
                (inr [3; 1; 2] : error + list Z) = inl cause
                /\ err = Wrapf cause
                           "Error while populating map in openLogManager")
             \/ (exists (wals : list Z) (cause : error),
                   (inr [3; 1; 2] : error + list Z) = inr wals
                   /\ (inl os_ErrPermission : error + list Z) = inl cause
                   /\ err = Wrapf cause "Error while populating vlog files"))
     end.
Proof.
  split; [reflexivity|].
  exact (openLogManager_prefix_read_only SampleMore.readOnlyOptions
           (mkVP 1 0 20) 2 (inr [3; 1; 2]) (inl os_ErrPermission)
           Sample.threeWals eq_refl).
Defined.

Lemma openLogManager_filter_replayer_witness :
  exists pre : openPrefix,
    openLogManager_filter Sample.options (mkVP 2 0 20) 2 [3; 2; 1] [3; 1; 2]
      Sample.threeWals = inr pre
    /\ walIDs (opReplayer pre) ≡ₚ filter (fun fid => fid <= 2) [3; 2; 1]
    /\ StronglySorted Z.le (walIDs (opReplayer pre))
    /\ vlogIDs (opReplayer pre)
       ≡ₚ filter (fun fid => Fid (mkVP 2 0 20) <= fid) [3; 1; 2]
    /\ StronglySorted Z.le (vlogIDs (opReplayer pre))
    /\ opMaxWalID pre = fold_left Z.max [3; 2; 1] 0
    /\ opMaxVlogID pre = fold_left Z.max [3; 1; 2] 0
    /\ vhead (opReplayer pre) = mkVP 2 0 20.
Proof.
  eexists.
  assert (H : openLogManager_filter Sample.options (mkVP 2 0 20) 2 [3; 2; 1]
                [3; 1; 2] Sample.threeWals = inr _) by (vm_compute; reflexivity).
  split; [exact H|].
  exact (openLogManager_filter_replayer Sample.options (mkVP 2 0 20) 2
           [3; 2; 1] [3; 1; 2] Sample.threeWals _ H).
Defined.

Lemma openLogManager_prefix_failure_witness :
  exists (d' : disk) (tr' : list event),
    openLogManager_prefix Sample.options (mkVP 1 0 20) 2 (inr [1; 3])
      (inr [1]) SampleMore.lockedWal
    = inl (Wrapf os_ErrPermission "Error while removing log file %d", d', tr')
    /\ ((exists cause : error,
           (inr [1; 3] : error + list Z) = inl cause
           /\ Wrapf os_ErrPermission "Error while removing log file %d"
              = Wrapf cause "Error while populating map in openLogManager"
           /\ d' = SampleMore.lockedWal /\ tr' = [])
        \/ (exists (wals : list Z) (fid : Z) (cause : error),
              (inr [1; 3] : error + list Z) = inr wals
              /\ ReadOnly Sample.options = false
              /\ fid ∈ wals /\ 2 < fid
              /\ Wrapf os_ErrPermission "Error while removing log file %d"
                 = Wrapf cause "Error while removing log file %d"
              /\ os_Remove d' (walFilePath fid) = inl cause
              /\ last tr' = Some (EvRemove (walFilePath fid)))
        \/ (exists (wals : list Z) (cause : error) (maxWal : Z) (kept : list Z),
              (inr [1; 3] : error + list Z) = inr wals
              /\ (inr [1] : error + list Z) = inl cause
              /\ Wrapf os_ErrPermission "Error while removing log file %d"
                 = Wrapf cause "Error while populating vlog files"
              /\ filterWAL 2 (ReadOnly Sample.options) wals
                   SampleMore.lockedWal [] 0 []
                 = inr (d', tr', maxWal, kept))).
Proof.
  eexists _, _.
  assert (H : openLogManager_prefix Sample.options (mkVP 1 0 20) 2
                (inr [1; 3]) (inr [1]) SampleMore.lockedWal
              = inl (Wrapf os_ErrPermission "Error while removing log file %d",
                     _, _)) by reflexivity.
  split; [exact H|].
  exact (openLogManager_prefix_failure Sample.options (mkVP 1 0 20) 2
           (inr [1; 3]) (inr [1]) SampleMore.lockedWal _ _ _ H).
Defined.
